(** * Capacitated vehicle routing demo: the construction and improvement engine

    A shallow embedding of the algorithmic core of [main.js]: the route
    metrics, the Nearest Neighbor and Clarke-Wright Savings constructors, the
    2-Opt improver, the solution evaluator, the feasibility check and the
    top-level [solveVRP] driver, followed by the properties of the design
    document, each one proved or refuted on the embedding.  Around the core
    it embeds the retrying [fetchWithRetry] helper, the checks of
    [loadFromJSONFile] on a parsed problem file and the best-of selection of
    the result views, with the properties the code shows for them.

    Conventions of the embedding.
    - A JavaScript number that is known to be finite is an exact rational
      ([Q]); rounding of IEEE doubles is not modelled.  Where the source can
      produce [NaN] (arithmetic on [undefined]) the type [JSNumber] is used.
      A property about a sum that the code computes is stated on that sum
      as the code adds it up (the same operands in the same order and
      grouping) or uses only the order of the values that the code compares,
      so that it reads the same on doubles.
    - [Infinity] as the initial value of [nearestDist] and [-1] as the initial
      value of [nearestIdx] are the [None] of an option.
    - The global variables of the script are the fields of one record,
      [Globals], passed explicitly.
    - A complete cost matrix is a total function on pairs of node indices.
    - Objects are compared by reference in JavaScript ([indexOf], [!==]); a
      customer object carries its identity in the field [ref], and a route
      record of the Savings constructor is identified by its position in the
      [routes] array, which never holds the same object twice.
    - The two loops of the script without a syntactic bound (the second
      [while] of [nearestNeighborVRP] and the [while (improved)] of
      [twoOptImprovement]) take a [fuel] argument and return [None] when it
      runs out. *)

From Stdlib Require Import QArith Lqa Lia Sorted.
From stdpp Require Import base option list strings.

Close Scope Q_scope.

(** ** Numbers *)

(** Strict comparison [a < b] on finite numbers. *)
Definition Qltb (a b : Q) : bool := negb (Qle_bool b a).

(** A number that may be [NaN]. *)
Inductive JSNumber : Type :=
  | Num (q : Q)
  | NaN.

(** [a + b] where either operand may be [NaN]. *)
Definition js_add (a b : JSNumber) : JSNumber :=
  match a, b with
  | Num x, Num y => Num (x + y)
  | _, _ => NaN
  end.

(** [x * y] where [x] is finite and [y] may be [undefined]. *)
Definition js_mul_undef (x : Q) (y : option Q) : JSNumber :=
  match y with
  | Some f => Num (x * f)
  | None => NaN
  end.

(** ** Data model *)

(** A customer object of [destinations].  [ref] is the identity of the
    object; [id], [lat] and [lng] are not read by the engine. *)
Record Destination : Type := {
  ref : nat;
  demand : Q
}.

(** A route: node indices, 0 is the depot, customer [k] of [destinations]
    (counted from 0) is node [k + 1]. *)
Definition Route : Type := list nat.

(** The global variables of the script. *)
Record Globals : Type := {
  depot : option (Q * Q);
  destinations : list Destination;
  numVehicles : nat;
  vehicleCapacity : Q;
  fuelConsumption : option Q;
  distanceMatrix : nat -> nat -> Q;
  timeMatrix : nat -> nat -> Q
}.

(** The ten entries of [vehicleColors]. *)
Definition vehicleColors : list string :=
  ["#e74c3c"; "#3498db"; "#2ecc71"; "#f39c12"; "#9b59b6";
   "#1abc9c"; "#e67e22"; "#34495e"; "#16a085"; "#c0392b"]%string.

(** ** Route metrics *)

(** The loop of [calculateRouteDistance] and [calculateRouteTime]:
    [acc += matrix[route[i]][route[i + 1]]] for [i < route.length - 1]. *)
Fixpoint sumLegs (matrix : nat -> nat -> Q) (acc : Q) (route : Route) : Q :=
  match route with
  | a :: (b :: _) as rest => sumLegs matrix (acc + matrix a b)%Q rest
  | _ => acc
  end.

Definition calculateRouteDistance (g : Globals) (route : Route) : Q :=
  sumLegs (distanceMatrix g) 0%Q route.

Definition calculateRouteTime (g : Globals) (route : Route) : Q :=
  sumLegs (timeMatrix g) 0%Q route.

Definition calculateRouteEnergy (g : Globals) (route : Route) : JSNumber :=
  let distance := calculateRouteDistance g route in
  js_mul_undef (distance / 100)%Q (fuelConsumption g).

(** ** Nearest Neighbor *)

(** [destinations.indexOf(d)], [None] for [-1]. *)
Definition indexOf (ds : list Destination) (d : Destination) : option nat :=
  fst <$> list_find (fun x => ref x = ref d) ds.

(** [destinations.indexOf(d) + 1]: the node index of a customer object
    ([-1 + 1 = 0] when the object is not in the array). *)
Definition nodeIndex (g : Globals) (d : Destination) : nat :=
  match indexOf (destinations g) d with
  | Some k => S k
  | None => 0
  end.

(** The inner [for] loop: scans [unvisited] from position [i] on and keeps
    in [nearest] the pair (nearestIdx, nearestDist). *)
Fixpoint scanNearest (g : Globals) (currentPos : nat) (currentLoad : Q)
    (i : nat) (unvisited : list Destination) (nearest : option (nat * Q))
    : option (nat * Q) :=
  match unvisited with
  | [] => nearest
  | u :: rest =>
      let destIdx := nodeIndex g u in
      let dist := distanceMatrix g currentPos destIdx in
      let closer :=
        match nearest with
        | None => true
        | Some (_, nearestDist) => Qltb dist nearestDist
        end in
      scanNearest g currentPos currentLoad (S i) rest
        (if closer && Qle_bool (currentLoad + demand u) (vehicleCapacity g)
         then Some (i, dist) else nearest)
  end.

(** The [while (unvisited.length > 0)] loop that fills one route.  Every
    iteration that does not [break] removes one element of [unvisited], so
    [n = length unvisited] iterations are enough. *)
Fixpoint fillRoute (g : Globals) (n : nat) (unvisited : list Destination)
    (route : Route) (currentPos : nat) (currentLoad : Q)
    : Route * list Destination :=
  match n, unvisited with
  | S n', _ :: _ =>
      match scanNearest g currentPos currentLoad 0 unvisited None with
      | None => (route, unvisited)
      | Some (nearestIdx, _) =>
          match unvisited !! nearestIdx with
          | Some nextDest =>
              let nextIdx := nodeIndex g nextDest in
              fillRoute g n' (delete nearestIdx unvisited) (route ++ [nextIdx])
                nextIdx (currentLoad + demand nextDest)%Q
          | None => (route, unvisited)
          end
      end
  | _, _ => (route, unvisited)
  end.

(** The body shared by both vehicle loops: a route from the depot and back. *)
Definition buildRoute (g : Globals) (unvisited : list Destination)
    : Route * list Destination :=
  let '(route, unvisited') := fillRoute g (length unvisited) unvisited [0] 0 0%Q in
  (route ++ [0], unvisited').

(** [if (route.length > 2) vehicleRoutes.push(route)]. *)
Definition pushIfServed (vehicleRoutes : list Route) (route : Route) : list Route :=
  if 2 <? length route then vehicleRoutes ++ [route] else vehicleRoutes.

(** [for (v = 0; v < numVehicles && unvisited.length > 0; v++)], with
    [k = numVehicles - v]. *)
Fixpoint vehicleLoop (g : Globals) (k : nat) (unvisited : list Destination)
    (vehicleRoutes : list Route) : list Route * list Destination :=
  match k, unvisited with
  | S k', _ :: _ =>
      let '(route, unvisited') := buildRoute g unvisited in
      vehicleLoop g k' unvisited' (pushIfServed vehicleRoutes route)
  | _, _ => (vehicleRoutes, unvisited)
  end.

(** [while (unvisited.length > 0 && vehicleRoutes.length < numVehicles)]. *)
Fixpoint extraLoop (g : Globals) (fuel : nat) (unvisited : list Destination)
    (vehicleRoutes : list Route) : option (list Route) :=
  if bool_decide (unvisited <> []) && (length vehicleRoutes <? numVehicles g) then
    match fuel with
    | 0 => None
    | S fuel' =>
        let '(route, unvisited') := buildRoute g unvisited in
        extraLoop g fuel' unvisited' (pushIfServed vehicleRoutes route)
    end
  else Some vehicleRoutes.

Definition nearestNeighborVRP (g : Globals) (fuel : nat) : option (list Route) :=
  let '(vehicleRoutes, unvisited) :=
    vehicleLoop g (numVehicles g) (destinations g) [] in
  extraLoop g fuel unvisited vehicleRoutes.

(** ** Clarke-Wright Savings *)

(** An entry of the [savings] array. *)
Record Saving : Type := {
  sav_i : nat;
  sav_j : nat;
  saving : Q
}.

(** An entry of the [routes] array: the route, its load and its two end
    customers ([ends.start] and [ends.end]). *)
Record RouteInfo : Type := {
  route : Route;
  load : Q;
  ends_start : nat;
  ends_end : nat
}.

(** The two nested [for] loops: [i] from 1 to [n], [j] from [i + 1] to [n]. *)
Definition computeSavings (g : Globals) : list Saving :=
  let n := length (destinations g) in
  i ← seq 1 n;
  j ← seq (i + 1) (n - i);
  [ {| sav_i := i; sav_j := j;
       saving := (distanceMatrix g 0 i + distanceMatrix g 0 j
                  - distanceMatrix g i j)%Q |} ].

(** [savings.sort((a, b) => b.saving - a.saving)]: a stable sort, largest
    saving first.  [s] passes [t] only when its saving is strictly smaller. *)
Fixpoint insertSaving (s : Saving) (sorted : list Saving) : list Saving :=
  match sorted with
  | [] => [s]
  | t :: rest =>
      if Qltb (saving s) (saving t) then t :: insertSaving s rest
      else s :: t :: rest
  end.

Definition sortSavings (savings : list Saving) : list Saving :=
  foldr insertSaving [] savings.

(** [destinations.map((_, idx) => ({route: [0, idx + 1, 0], ...}))]. *)
Definition initialRoutes (g : Globals) : list RouteInfo :=
  imap (fun idx d =>
          {| route := [0; idx + 1; 0];
             load := demand d;
             ends_start := idx + 1;
             ends_end := idx + 1 |})
       (destinations g).

(** The body of the merge loop after the [break] test.  [list_find] returns
    the first matching entry with its position; [routeI !== routeJ] compares
    the positions, and [routes.indexOf(routeI)] is that position. *)
Definition mergeStep (g : Globals) (routes : list RouteInfo) (s : Saving)
    : list RouteInfo :=
  match list_find (fun r => ends_end r = sav_i s) routes,
        list_find (fun r => ends_start r = sav_j s) routes with
  | Some (idxI, routeI), Some (idxJ, routeJ) =>
      if bool_decide (idxI <> idxJ) then
        let totalLoad := (load routeI + load routeJ)%Q in
        if Qle_bool totalLoad (vehicleCapacity g) then
          let newRoute := removelast (route routeI) ++ tail (route routeJ) in
          delete (idxI `min` idxJ) (delete (idxI `max` idxJ) routes)
            ++ [ {| route := newRoute;
                    load := totalLoad;
                    ends_start := ends_start routeI;
                    ends_end := ends_end routeJ |} ]
        else routes
      else routes
  | _, _ => routes
  end.

(** [for (const saving of savings)] with its [break]. *)
Fixpoint mergeLoop (g : Globals) (savings : list Saving)
    (routes : list RouteInfo) : list RouteInfo :=
  match savings with
  | [] => routes
  | s :: rest =>
      if length routes <=? numVehicles g then routes
      else mergeLoop g rest (mergeStep g routes s)
  end.

Definition savingsAlgorithmVRP (g : Globals) : list Route :=
  let savings := sortSavings (computeSavings g) in
  route <$> mergeLoop g savings (initialRoutes g).

(** ** 2-Opt *)

(** [[...route.slice(0, i), ...route.slice(i, j + 1).reverse(),
      ...route.slice(j + 1)]]. *)
Definition reverseSegment (route : Route) (i j : nat) : Route :=
  take i route ++ reverse (take (j + 1 - i) (drop i route)) ++ drop (j + 1) route.

(** The index pairs of one pass in scan order: [1 <= i < length - 2] and
    [i + 1 <= j < length - 1]. *)
Definition movePairs (len : nat) : list (nat * nat) :=
  i ← seq 1 (len - 2 - 1);
  j ← seq (i + 1) (len - 1 - (i + 1));
  [(i, j)].

(** The variables [bestRoute], [bestDistance] and [improved]. *)
Record Best : Type := {
  bestRoute : Route;
  bestDistance : Q;
  improved : bool
}.

(** The body of the inner loop for one pair. *)
Definition tryMove (g : Globals) (route : Route) (b : Best) (ij : nat * nat) : Best :=
  let newRoute := reverseSegment route ij.1 ij.2 in
  let newDistance := calculateRouteDistance g newRoute in
  if Qltb newDistance (bestDistance b)
  then {| bestRoute := newRoute; bestDistance := newDistance; improved := true |}
  else b.

(** One pass of the [while (improved)] loop, after [improved = false]. *)
Definition twoOptPass (g : Globals) (route : Route) (b : Best) : Best :=
  fold_left (tryMove g route) (movePairs (length route))
    {| bestRoute := bestRoute b; bestDistance := bestDistance b; improved := false |}.

(** [while (improved) { ...; route = bestRoute; }  return bestRoute;]. *)
Fixpoint twoOptLoop (g : Globals) (fuel : nat) (route : Route) (b : Best)
    : option Route :=
  if improved b then
    match fuel with
    | 0 => None
    | S fuel' =>
        let b' := twoOptPass g route b in
        twoOptLoop g fuel' (bestRoute b') b'
    end
  else Some (bestRoute b).

Definition twoOptImprovement (g : Globals) (fuel : nat) (route : Route)
    : option Route :=
  twoOptLoop g fuel route
    {| bestRoute := route;
       bestDistance := calculateRouteDistance g route;
       improved := true |}.

(** ** Solution evaluator *)

Record Solution : Type := {
  algorithm : string;
  distance : Q;
  time : Q;
  energy : JSNumber;
  vehicles : nat;
  routes : list Route;
  color : option string
}.

(** The accumulators [totalDistance], [totalTime] and [totalEnergy] of the
    [forEach] of [evaluateSolution]. *)
Definition accumulate (g : Globals) (acc : Q * Q * JSNumber) (route : Route)
    : Q * Q * JSNumber :=
  let '(totalDistance, totalTime, totalEnergy) := acc in
  ((totalDistance + calculateRouteDistance g route)%Q,
   (totalTime + calculateRouteTime g route)%Q,
   js_add totalEnergy (calculateRouteEnergy g route)).

Definition evaluateSolution (g : Globals) (routes : list Route)
    (algorithmName : string) (colorIndex : nat) : Solution :=
  let totalVehicles := length routes in
  let '(totalDistance, totalTime, totalEnergy) :=
    fold_left (accumulate g) routes (0%Q, 0%Q, Num 0) in
  {| algorithm := algorithmName;
     distance := totalDistance;
     time := totalTime;
     energy := totalEnergy;
     vehicles := totalVehicles;
     routes := routes;
     color := vehicleColors !! (colorIndex `mod` length vehicleColors) |}.

(** ** Feasibility check and driver *)

(** The messages passed to [alert]. *)
Inductive Alert : Type :=
  | DemandExceedsCapacity (totalDemand totalCapacity : Q)
  | NoDestinations
  | NoDepot
  | SelectAlgorithm.

(** [destinations.reduce((sum, d) => sum + d.demand, 0)]. *)
Definition totalDemand (g : Globals) : Q :=
  fold_left (fun sum d => (sum + demand d)%Q) (destinations g) 0%Q.

Definition totalCapacity (g : Globals) : Q :=
  (inject_Z (Z.of_nat (numVehicles g)) * vehicleCapacity g)%Q.

(** [validateProblem]: the returned boolean and the alerts raised. *)
Definition validateProblem (g : Globals) : bool * list Alert :=
  if Qltb (totalCapacity g) (totalDemand g) then
    (false, [DemandExceedsCapacity (totalDemand g) (totalCapacity g)])
  else if length (destinations g) =? 0 then (false, [NoDestinations])
  else if depot g is None then (false, [NoDepot])
  else (true, []).

(** The three check boxes read by [solveVRP]. *)
Record Controls : Type := {
  useNearestNeighbor : bool;
  useSavings : bool;
  use2Opt : bool
}.

(** What a call of [solveVRP] does: it returns early after some alerts, or
    it runs the selected constructors and displays their solutions. *)
Inductive Outcome : Type :=
  | ReturnedEarly (alerts : list Alert)
  | Displayed (results : list Solution).

(** [routes.map((route) => twoOptImprovement(route))] when [use2Opt]. *)
Definition improveAll (g : Globals) (fuel : nat) (ui : Controls)
    (routes : list Route) : option (list Route) :=
  if use2Opt ui then mapM (twoOptImprovement g fuel) routes else Some routes.

(** [solveVRP], with [g] holding the matrices that
    [calculateDistanceMatrix] has stored. *)
Definition solveVRP (g : Globals) (fuel : nat) (ui : Controls) : option Outcome :=
  let '(valid, alerts) := validateProblem g in
  if negb valid then Some (ReturnedEarly alerts)
  else if negb (useNearestNeighbor ui) && negb (useSavings ui) then
    Some (ReturnedEarly [SelectAlgorithm])
  else
    let suffix := if use2Opt ui then " + 2-Opt"%string else ""%string in
    resultsNN ←
      (if useNearestNeighbor ui then
         routes ← nearestNeighborVRP g fuel;
         routes ← improveAll g fuel ui routes;
         Some [evaluateSolution g routes ("Vecino Más Cercano" +:+ suffix) 0]
       else Some []);
    resultsSavings ←
      (if useSavings ui then
         routes ← improveAll g fuel ui (savingsAlgorithmVRP g);
         Some [evaluateSolution g routes ("Algoritmo de Ahorros" +:+ suffix)
                 (length resultsNN)]
       else Some []);
    Some (Displayed (resultsNN ++ resultsSavings)).

(** ** Vocabulary of the properties *)

(** Every element of [destinations] is an object of its own, as in an array
    produced by [JSON.parse]. *)
Definition distinctObjects (g : Globals) : Prop :=
  NoDup (ref <$> destinations g).

(** The demand of the customer at a node; the depot demands nothing. *)
Definition demandAt (g : Globals) (node : nat) : Q :=
  match node with
  | 0 => 0%Q
  | S k => from_option demand 0%Q (destinations g !! k)
  end.

(** The sum of the demands of the customers of a route. *)
Definition routeDemand (g : Globals) (route : Route) : Q :=
  foldr (fun node acc => (demandAt g node + acc)%Q) 0%Q route.

(** The customers of a route: its nodes other than the depot. *)
Definition customersOf (route : Route) : list nat :=
  filter (fun node => node <> 0) route.

(** The customers of all routes of a solution, with repetitions. *)
Definition servedCustomers (routes : list Route) : list nat :=
  concat (customersOf <$> routes).

(** The sum of the distances of a list of routes. *)
Definition sumOfDistances (g : Globals) (routes : list Route) : Q :=
  foldr (fun route acc => (calculateRouteDistance g route + acc)%Q) 0%Q routes.

(** The number of routes with at least one customer. *)
Definition nonEmptyRoutes (routes : list Route) : nat :=
  length (filter (fun route => customersOf route <> []) routes).

(** ** Concrete problems *)

(** A matrix given by its rows. *)
Definition matrixOf (rows : list (list Q)) : nat -> nat -> Q :=
  fun i j => nth j (nth i rows []) 0%Q.

(** The customer objects of a problem file, one fresh object per entry. *)
Definition parseDestinations (demands : list Q) : list Destination :=
  imap (fun k q => {| ref := k; demand := q |}) demands.

Definition mkGlobals (demands : list Q) (vehicles : nat) (capacity : Q)
    (fuel : option Q) (rows : list (list Q)) : Globals :=
  {| depot := Some (0%Q, 0%Q);
     destinations := parseDestinations demands;
     numVehicles := vehicles;
     vehicleCapacity := capacity;
     fuelConsumption := fuel;
     distanceMatrix := matrixOf rows;
     timeMatrix := matrixOf rows |}.

(** The failing scenario of the feasibility check: one customer of demand 5,
    one vehicle of capacity 3. *)
Definition overloaded : Globals :=
  mkGlobals [5%Q] 1 3%Q None [[0; 1]; [1; 0]]%Q.

(** One customer of demand 5 and two vehicles of capacity 3: the total demand
    fits the fleet, the customer fits no vehicle. *)
Definition oversized : Globals :=
  mkGlobals [5%Q] 2 3%Q None [[0; 1]; [1; 0]]%Q.

(** Two customers of demand 5, one vehicle of capacity 5 (total demand 10),
    distances 3, 4 and 2: no merge is possible. *)
Definition unmergeable : Globals :=
  mkGlobals [5%Q; 5%Q] 1 5%Q (Some 8%Q) [[0; 3; 4]; [3; 0; 2]; [4; 2; 0]]%Q.

(** Three customers of demand 1, one vehicle of capacity 10, the savings of
    the pairs (1, 3) and (2, 3) equal and larger than that of (1, 2). *)
Definition misaligned : Globals :=
  mkGlobals [1%Q; 1%Q; 1%Q] 1 10%Q None
    [[0; 1; 1; 1]; [1; 0; 2; 1]; [1; 2; 0; 1]; [1; 1; 1; 0]]%Q.

(** The merge scenario of the design document: two customers of demand 5, one
    vehicle of capacity 10, distances 3, 4 and 2. *)
Definition mergeable : Globals :=
  mkGlobals [5%Q; 5%Q] 1 10%Q (Some 8%Q) [[0; 3; 4]; [3; 0; 2]; [4; 2; 0]]%Q.

(** Three customers of demand 5, two vehicles of capacity 10, no consumption
    rate in the problem file. *)
Definition threeCustomers : Globals :=
  mkGlobals [5%Q; 5%Q; 5%Q] 2 10%Q None
    [[0; 3; 4; 1]; [3; 0; 2; 7]; [4; 2; 0; 1]; [1; 7; 1; 0]]%Q.

(** A route with crossing edges: [0,1,2,3,0] costs 9+1+9+1 = 20, and
    reversing positions 1..2 gives [0,2,1,3,0], which costs 1+1+1+1 = 4. *)
Definition crossing : Globals :=
  mkGlobals [1%Q; 1%Q; 1%Q] 1 10%Q (Some 0%Q)
    [[0; 9; 1; 1]; [9; 0; 1; 1]; [1; 1; 0; 9]; [1; 1; 9; 0]]%Q.

Definition allControls : Controls :=
  {| useNearestNeighbor := true; useSavings := true; use2Opt := true |}.

(** ** Vocabulary of the proofs *)

(** A route that starts at the depot, ends at the depot and visits only
    customers in between. *)
Definition framed (r : Route) : Prop := r = 0 :: customersOf r ++ [0].

(** The entry pushed by a merge of [routeI] and [routeJ]. *)
Definition mergedEntry (routeI routeJ : RouteInfo) : RouteInfo :=
  {| route := removelast (route routeI) ++ tail (route routeJ);
     load := (load routeI + load routeJ)%Q;
     ends_start := ends_start routeI;
     ends_end := ends_end routeJ |}.

(** The customers of all entries of the array. *)
Definition customersOfEntries (rs : list RouteInfo) : list nat :=
  servedCustomers (route <$> rs).

(** The state of the array that every merge attempt keeps: every route is
    framed by the depot and the customers of the routes are those of the
    initial array. *)
Definition partitions (n : nat) (rs : list RouteInfo) : Prop :=
  Forall (fun r => framed (route r)) rs
  /\ customersOfEntries rs ≡ₚ seq 1 n.

(** The sum of the demands of a list of customer objects. *)
Definition sumDemand (ds : list Destination) : Q :=
  foldr (fun d acc => (demand d + acc)%Q) 0%Q ds.

(** The state of the two vehicle loops: the unvisited objects are objects of
    [destinations], the customers of the routes and the unvisited customers
    are together the customers 1..C, and every route fits a vehicle. *)
Definition nnInvariant (g : Globals) (vehicleRoutes : list Route)
    (unvisited : list Destination) : Prop :=
  unvisited ⊆ destinations g
  /\ servedCustomers vehicleRoutes ++ (nodeIndex g <$> unvisited)
     ≡ₚ seq 1 (length (destinations g))
  /\ Forall (fun r => (routeDemand g r <= vehicleCapacity g)%Q) vehicleRoutes.

(** All lists of [n] nodes drawn from [nodes]: a finite space that holds
    every permutation of a route of length [n] over these nodes. *)
Fixpoint words (nodes : list nat) (n : nat) : list Route :=
  match n with
  | 0 => [[]]
  | S n' => a ← nodes; w ← words nodes n'; [a :: w]
  end.

(** The routes of the space of [route0] strictly shorter than [d]. *)
Definition shorterRoutes (g : Globals) (route0 : Route) (d : Q) : list Route :=
  filter (fun w => Qltb (calculateRouteDistance g w) d)
    (words route0 (length route0)).

(** A move adopted from [route]: its distance is the recorded one and it is
    [route] with its inner nodes rearranged. *)
Definition adopted (g : Globals) (route : Route) (b : Best) : Prop :=
  bestDistance b = calculateRouteDistance g (bestRoute b)
  /\ bestRoute b ≡ₚ route
  /\ head (bestRoute b) = head route
  /\ last (bestRoute b) = last route.

(** The state at the head of the [while (improved)] loop, for the call on
    [route0]. *)
Definition atLoopHead (g : Globals) (route0 route : Route) (b : Best) : Prop :=
  bestRoute b = route
  /\ bestDistance b = calculateRouteDistance g route
  /\ route ≡ₚ route0
  /\ head route = head route0
  /\ last route = last route0
  /\ (calculateRouteDistance g route <= calculateRouteDistance g route0)%Q.

(** The index pairs that [tryMove] may be given. *)
Definition inner (route : Route) (ij : nat * nat) : Prop :=
  1 <= ij.1 /\ ij.1 <= ij.2 + 1 /\ ij.2 + 1 < length route.

(** ** Vocabulary of the further properties *)

(** [nearest] is what the scan of [nearestNeighborVRP] must hold after the
    candidates [seen]: nothing when no candidate fits the vehicle, and
    otherwise the position and distance of a fitting candidate that is at
    least as near as every fitting candidate and strictly nearer than the
    fitting candidates before it. *)
Definition nearestAmong (g : Globals) (currentPos : nat) (currentLoad : Q)
    (seen : list Destination) (nearest : option (nat * Q)) : Prop :=
  match nearest with
  | None =>
      Forall (fun u => ~ (currentLoad + demand u <= vehicleCapacity g)%Q) seen
  | Some (idx, dist) =>
      exists u,
        seen !! idx = Some u
        /\ (currentLoad + demand u <= vehicleCapacity g)%Q
        /\ dist = distanceMatrix g currentPos (nodeIndex g u)
        /\ forall j v,
             seen !! j = Some v ->
             (currentLoad + demand v <= vehicleCapacity g)%Q ->
             (dist <= distanceMatrix g currentPos (nodeIndex g v))%Q
             /\ (j < idx ->
                 (dist < distanceMatrix g currentPos (nodeIndex g v))%Q)
  end.

(** A route as a constructor returns it: framed by the depot, with at least
    one customer. *)
Definition servedRoute (r : Route) : Prop :=
  framed r /\ customersOf r <> [].

(** A route that no reversal of an inner segment makes strictly shorter. *)
Definition localOptimum (g : Globals) (route : Route) : Prop :=
  forall i j, 1 <= i -> i < j -> j + 1 < length route ->
    (calculateRouteDistance g route
     <= calculateRouteDistance g (reverseSegment route i j))%Q.

(** What 2-Opt keeps of a route: its nodes, its ends and its demand. *)
Definition sameService (g : Globals) (r r' : Route) : Prop :=
  r' ≡ₚ r /\ head r' = head r /\ last r' = last r
  /\ (routeDemand g r' == routeDemand g r)%Q
  /\ (calculateRouteDistance g r' <= calculateRouteDistance g r)%Q.

(** ** Best result *)

(** [results.reduce((best, current) =>
      current.distance < best.distance ? current : best)]
    of [displayResults], [displayResultsInNewTab] and [exportResults];
    [None] is the [TypeError] that [reduce] without an initial value raises
    on an empty array. *)
Definition bestResult (results : list Solution) : option Solution :=
  match results with
  | [] => None
  | first :: rest =>
      Some (fold_left
              (fun best current =>
                 if Qltb (distance current) (distance best) then current else best)
              rest first)
  end.

(** [best] is the entry at position [i] of [results], no entry has a smaller
    distance and the entries before it have a strictly larger one. *)
Definition firstMinimum (results : list Solution) (i : nat) (best : Solution)
    : Prop :=
  results !! i = Some best
  /\ forall j s, results !! j = Some s ->
       (distance best <= distance s)%Q
       /\ (j < i -> (distance best < distance s)%Q).

(** Three candidate solutions of the merge scenario, of total distance 14, 9
    and 9. *)
Definition mergedResult : Solution :=
  evaluateSolution mergeable [[0; 1; 2; 0]] "Vecino Más Cercano" 1.

Definition threeResults : list Solution :=
  [evaluateSolution mergeable [[0; 1; 0]; [0; 2; 0]] "Algoritmo de Ahorros" 0;
   mergedResult;
   evaluateSolution mergeable [[0; 2; 1; 0]] "Vecino Más Cercano + 2-Opt" 2].

(** ** Fetch with retries *)

(** What one call of [fetch] does, as far as [fetchWithRetry] looks at it:
    the promise rejects (a network error), or it resolves with a response of
    some status whose [Retry-After] header is absent or empty ([None]) or
    has the value that [parseFloat] gives. *)
Inductive FetchOutcome : Type :=
  | Rejects
  | Responds (status : nat) (retryAfter : option JSNumber).

(** [res.ok]: the status is in the range 200-299. *)
Definition responseOk (status : nat) : bool :=
  (200 <=? status) && (status <=? 299).

(** The errors [fetchWithRetry] throws: the network error it caught, the
    [Error("HTTP <status>: ...")] it made for a response that is not ok, or
    [Error("Max retry attempts reached")]. *)
Inductive FetchError : Type :=
  | NetworkError
  | HttpError (status : nat)
  | MaxRetryReached.

Inductive FetchResult : Type :=
  | Resolved (status : nat)
  | Thrown (e : FetchError).

(** A run of [fetchWithRetry]: how it ends, how many times [fetch] was
    called and the arguments of the calls of [sleep], in order. *)
Record RetryRun : Type := {
  outcome : FetchResult;
  fetchCount : nat;
  waits : list JSNumber
}.

(** [parseFloat(retryAfter) * 1000]. *)
Definition retryAfterMs (v : JSNumber) : JSNumber :=
  match v with
  | Num q => Num (q * 1000)
  | NaN => NaN
  end.

(** The [while (attempt < maxAttempts)] loop, with
    [remaining = maxAttempts - attempt]; [fetch k] is what the call number
    [k] of [fetch] does (counted from 0). *)
Fixpoint retryLoop (fetch : nat -> FetchOutcome) (remaining attempt : nat)
    (delay : Q) (slept : list JSNumber) : RetryRun :=
  match remaining with
  | 0 => {| outcome := Thrown MaxRetryReached;
            fetchCount := attempt; waits := slept |}
  | S remaining' =>
      let caught (err : FetchError) :=
        if remaining' =? 0 then
          {| outcome := Thrown err; fetchCount := S attempt; waits := slept |}
        else
          retryLoop fetch remaining' (S attempt) (delay * 2)
            (slept ++ [Num delay]) in
      match fetch attempt with
      | Rejects => caught NetworkError
      | Responds status retryAfter =>
          if status =? 429 then
            let waitMs :=
              match retryAfter with
              | Some v => retryAfterMs v
              | None => Num delay
              end in
            retryLoop fetch remaining' (S attempt) (delay * 2)
              (slept ++ [waitMs])
          else if negb (responseOk status) then caught (HttpError status)
          else {| outcome := Resolved status;
                  fetchCount := S attempt; waits := slept |}
      end
  end.

Definition fetchWithRetry (fetch : nat -> FetchOutcome) (maxAttempts : nat)
    : RetryRun :=
  retryLoop fetch maxAttempts 0 500 [].

(** A call of [fetch] that ends the retries: an ok response. *)
Definition succeeds (o : FetchOutcome) : Prop :=
  exists status retryAfter,
    o = Responds status retryAfter /\ responseOk status = true.

(** The delay of the attempt number [k]: the initial 500 ms doubled once
    per earlier attempt. *)
Definition backoffWait (k : nat) (w : JSNumber) : Prop :=
  exists q, w = Num q /\ (q == inject_Z (500 * 2 ^ Z.of_nat k))%Q.

(** The argument of the call number [k] of [sleep]: the [Retry-After] value
    of a 429 response that has one, and otherwise the delay of the attempt. *)
Definition expectedWait (fetch : nat -> FetchOutcome) (k : nat) (w : JSNumber)
    : Prop :=
  match fetch k with
  | Responds status (Some v) =>
      if status =? 429 then w = retryAfterMs v else backoffWait k w
  | _ => backoffWait k w
  end.

(** Three rejected calls, a 503, then a 200. *)
Definition flakyFetch (k : nat) : FetchOutcome :=
  match k with
  | 0 | 1 | 2 => Rejects
  | 3 => Responds 503 None
  | _ => Responds 200 None
  end.

(** ** Vocabulary of the savings properties *)

(** [a] may come before [b] in the sorted savings. *)
Definition savingGe (a b : Saving) : Prop := (saving b <= saving a)%Q.

(** The entries of [savings] with the saving [v], in order. *)
Definition withSaving (v : Q) (l : list Saving) : list Saving :=
  List.filter (fun s => Qeq_bool (saving s) v) l.

(** An entry of [routes] whose [ends] are the first and the last customer of
    its route. *)
Definition oriented (r : RouteInfo) : Prop :=
  exists body,
    route r = 0 :: body ++ [0]
    /\ head body = Some (ends_start r)
    /\ last body = Some (ends_end r).

(** The solution with one vehicle per customer: the routes [0, k, 0]. *)
Definition singleRoutes (g : Globals) : list Route :=
  (fun k => [0; k; 0]) <$> seq 1 (length (destinations g)).

(** ** Loading a problem file *)

(** A value returned by [JSON.parse]. *)
#[warnings="-register-all"]
Inductive JSON : Type :=
  | JNull
  | JBool (b : bool)
  | JNumber (q : Q)
  | JString (s : string)
  | JArray (items : list JSON)
  | JObject (fields : list (string * JSON)).

(** What ends the [try] block of [loadFromJSONFile] early: the [TypeError]
    of reading a property of [null], or one of the errors it throws. The
    number is that of the customer in the message, counted from 1. *)
Inductive LoadError : Type :=
  | TypeErrorThrown
  | MissingDepotOrDestinations
  | BadDepotCoordinates
  | BadDestinations
  | BadCustomerCoordinates (n : nat)
  | BadCustomerDemand (n : nat)
  | MissingCustomerId (n : nat).

(** A computation of the [try] block: an error or a value. *)
Definition Load (A : Type) : Type := LoadError + A.

Definition load_bind {A B : Type} (m : Load A) (k : A -> Load B) : Load B :=
  match m with
  | inl e => inl e
  | inr a => k a
  end.

(** The value of [key] in an object parsed from the members [fields]: the
    last member with that key, [None] ([undefined]) without one. *)
Definition fieldOf (fields : list (string * JSON)) (key : string)
    : option JSON :=
  snd <$> (snd <$> list_find (fun kv => kv.1 = key) (reverse fields)).

(** [v.key] for the keys of a problem file, none of which a number, a
    string, a boolean or an array has; reading a property of [null]
    throws. *)
Definition getField (v : JSON) (key : string) : Load (option JSON) :=
  match v with
  | JNull => inl TypeErrorThrown
  | JObject fields => inr (fieldOf fields key)
  | _ => inr None
  end.

(** The truth value of [v] in [!v]. *)
Definition truthy (v : option JSON) : bool :=
  match v with
  | None | Some JNull => false
  | Some (JBool b) => b
  | Some (JNumber q) => negb (Qeq_bool q 0)
  | Some (JString s) => negb (String.eqb s "")
  | Some (JArray _) | Some (JObject _) => true
  end.

(** [typeof v === "number"], with the number. *)
Definition asNumber (v : option JSON) : option Q :=
  match v with
  | Some (JNumber q) => Some q
  | _ => None
  end.

(** A customer that passed the checks. *)
Record Customer : Type := {
  customerId : JSON;
  customerLat : Q;
  customerLng : Q;
  customerDemand : Q
}.

(** What a successful load stores in the global variables. The four
    parameters are stored as they are in the file. *)
Record LoadedCase : Type := {
  loadedDepot : Q * Q;
  loadedCustomers : list Customer;
  loadedNumVehicles : option JSON;
  loadedVehicleCapacity : option JSON;
  loadedAvgSpeed : option JSON;
  loadedFuelConsumption : option JSON
}.

(** The body of the [forEach] over [destinations], for the customer of
    position [index]. *)
Definition checkCustomer (index : nat) (dest : JSON) : Load Customer :=
  load_bind (getField dest "lat") (fun lat =>
  load_bind (getField dest "lng") (fun lng =>
  match asNumber lat, asNumber lng with
  | Some la, Some lo =>
      load_bind (getField dest "demand") (fun demand =>
      match asNumber demand with
      | Some d =>
          if Qle_bool d 0 then inl (BadCustomerDemand (index + 1))
          else
            load_bind (getField dest "id") (fun id =>
            match id with
            | Some v =>
                if truthy id
                then inr {| customerId := v; customerLat := la;
                            customerLng := lo; customerDemand := d |}
                else inl (MissingCustomerId (index + 1))
            | None => inl (MissingCustomerId (index + 1))
            end)
      | None => inl (BadCustomerDemand (index + 1))
      end)
  | _, _ => inl (BadCustomerCoordinates (index + 1))
  end)).

(** The [forEach]: the first customer that fails a check ends it. *)
Fixpoint checkCustomers (index : nat) (dests : list JSON) : Load (list Customer) :=
  match dests with
  | [] => inr []
  | dest :: rest =>
      load_bind (checkCustomer index dest) (fun c =>
      load_bind (checkCustomers (S index) rest) (fun cs =>
      inr (c :: cs)))
  end.

(** The [try] block of [loadFromJSONFile] on the parsed file, up to the
    assignment of the global variables. *)
Definition loadCase (caseStudyData : JSON) : Load LoadedCase :=
  load_bind (getField caseStudyData "depot") (fun depot =>
  if negb (truthy depot) then inl MissingDepotOrDestinations else
  load_bind (getField caseStudyData "destinations") (fun destinations =>
  if negb (truthy destinations) then inl MissingDepotOrDestinations else
  match depot, destinations with
  | Some depotV, Some destinationsV =>
      load_bind (getField depotV "lat") (fun lat =>
      load_bind (getField depotV "lng") (fun lng =>
      match asNumber lat, asNumber lng with
      | Some la, Some lo =>
          match destinationsV with
          | JArray (d :: ds) =>
              load_bind (checkCustomers 0 (d :: ds)) (fun customers =>
              load_bind (getField caseStudyData "numVehicles") (fun nv =>
              load_bind (getField caseStudyData "vehicleCapacity") (fun vc =>
              load_bind (getField caseStudyData "avgSpeed") (fun sp =>
              load_bind (getField caseStudyData "fuelConsumption") (fun fc =>
              inr {| loadedDepot := (la, lo);
                     loadedCustomers := customers;
                     loadedNumVehicles := nv;
                     loadedVehicleCapacity := vc;
                     loadedAvgSpeed := sp;
                     loadedFuelConsumption := fc |})))))
          | _ => inl BadDestinations
          end
      | _, _ => inl BadDepotCoordinates
      end))
  | _, _ => inl MissingDepotOrDestinations
  end)).

(** The object that [JSON.parse] gives for a customer written with its four
    keys. *)
Definition customerJSON (c : Customer) : JSON :=
  JObject [("id", customerId c); ("lat", JNumber (customerLat c));
           ("lng", JNumber (customerLng c));
           ("demand", JNumber (customerDemand c))]%string.

(** A problem file with a depot, customers and any further keys. *)
Definition caseJSON (depot : Q * Q) (customers : list Customer)
    (others : list (string * JSON)) : JSON :=
  JObject ([("depot", JObject [("lat", JNumber depot.1);
                               ("lng", JNumber depot.2)]);
            ("destinations", JArray (customerJSON <$> customers))]%string
           ++ others).

(** The keys other than the depot and the customers. *)
Definition freeOfCoreKeys (others : list (string * JSON)) : Prop :=
  Forall (fun kv => kv.1 <> "depot"%string /\ kv.1 <> "destinations"%string)
    others.

(** A customer as the checks accept it: a positive demand and an [id] that
    is not [null], [false], 0 or the empty string. *)
Definition acceptedCustomer (c : Customer) : Prop :=
  (0 < customerDemand c)%Q /\ truthy (Some (customerId c)) = true.

(** A file of two customers without any parameter, and what loading it
    stores. *)
Definition bareLoaded : LoadedCase :=
  {| loadedDepot := (0, 0);
     loadedCustomers :=
       [ {| customerId := JString "C1"; customerLat := 1; customerLng := 2;
            customerDemand := 10 |};
         {| customerId := JNumber 7; customerLat := 3; customerLng := 4;
            customerDemand := 5 |} ];
     loadedNumVehicles := None;
     loadedVehicleCapacity := None;
     loadedAvgSpeed := None;
     loadedFuelConsumption := None |}%Q.

Definition bareCase : JSON :=
  caseJSON (loadedDepot bareLoaded) (loadedCustomers bareLoaded) [].

(** ** Vocabulary of the capacity and route-count properties *)

(** The value of [currentLoad] when [nearestNeighborVRP] closes [route]: the
    demands of its customers added to 0 one after the other, in the order of
    the visits. *)
Definition accumulatedLoad (g : Globals) (route : Route) : Q :=
  fold_left (fun currentLoad node => (currentLoad + demandAt g node)%Q)
    (customersOf route) 0%Q.

(** [v] is a sum of the demands of the customers [customers] as
    [savingsAlgorithmVRP] builds the [load] of a route: the demand of a
    single customer, or the sum of two such sums for the customers of the
    two routes of a merge, in the order of the merged route. *)
Inductive sumsDemands (g : Globals) : list nat -> Q -> Prop :=
  | sums_one (k : nat) : sumsDemands g [k] (demandAt g k)
  | sums_plus (a b : list nat) (x y : Q) :
      sumsDemands g a x -> sumsDemands g b y ->
      sumsDemands g (a ++ b) (x + y)%Q.

(** The [routes] array of [savingsAlgorithmVRP] when its merge loop ends;
    the function returns the [route] of each entry. *)
Definition finalEntries (g : Globals) : list RouteInfo :=
  mergeLoop g (sortSavings (computeSavings g)) (initialRoutes g).

(** An entry of [routes] as the merge loop keeps it: its route is framed by
    the depot, its [load] is a sum of the demands of its customers, and it
    fits a vehicle unless it is the initial route of a single customer. *)
Definition recorded (g : Globals) (r : RouteInfo) : Prop :=
  framed (route r)
  /\ sumsDemands g (customersOf (route r)) (load r)
  /\ ((load r <= vehicleCapacity g)%Q
      \/ exists k d, route r = [0; S k; 0] /\ destinations g !! k = Some d
                     /\ load r = demand d).

(** No merge is left for the pair ([i], [j]): no entry of [rs] that ends at
    [i] and other entry that starts at [j] have loads that fit one vehicle
    together. *)
Definition blocked (g : Globals) (rs : list RouteInfo) (i j : nat) : Prop :=
  forall rI rJ, rI ∈ rs -> rJ ∈ rs -> route rI <> route rJ ->
    ends_end rI = i -> ends_start rJ = j ->
    ~ (load rI + load rJ <= vehicleCapacity g)%Q.

(** The state of the [routes] array that every merge attempt keeps, for [n]
    customers of demand 0 or more. *)
Definition mergeState (n : nat) (rs : list RouteInfo) : Prop :=
  partitions n rs
  /\ Forall oriented rs
  /\ Forall (fun r => (0 <= load r)%Q) rs.


(** The merge scenario with a second vehicle: two customers of demand 5, two
    vehicles of capacity 10, distances 3, 4 and 2. *)
Definition spareVehicle : Globals :=
  mkGlobals [5%Q; 5%Q] 2 10%Q (Some 8%Q) [[0; 3; 4]; [3; 0; 2]; [4; 2; 0]]%Q.

(** * Properties *)

(** ** Numbers *)

Lemma Qltb_lt (a b : Q) : Qltb a b = true <-> (a < b)%Q.
Proof.
  unfold Qltb. rewrite negb_true_iff. split.
  - intros H. apply Qnot_le_lt. intros Hle.
    apply Qle_bool_iff in Hle. congruence.
  - intros H. destruct (Qle_bool b a) eqn:E; [|reflexivity].
    apply Qle_bool_iff in E. exfalso. revert E. apply Qlt_not_le, H.
Qed.

Lemma Qltb_ge (a b : Q) : Qltb a b = false <-> (b <= a)%Q.
Proof.
  unfold Qltb. rewrite negb_false_iff. apply Qle_bool_iff.
Qed.

(** ** Lists of nodes *)

Lemma customersOf_app (a b : Route) :
  customersOf (a ++ b) = customersOf a ++ customersOf b.
Proof. apply filter_app. Qed.

Lemma customersOf_cons (x : nat) (a : Route) :
  customersOf (x :: a) = if decide (x <> 0) then x :: customersOf a else customersOf a.
Proof. reflexivity. Qed.

Lemma customersOf_idemp (a : Route) : customersOf (customersOf a) = customersOf a.
Proof.
  induction a as [|x a IH]; [reflexivity|].
  rewrite customersOf_cons. destruct (decide (x <> 0)) as [Hx|Hx]; [|exact IH].
  rewrite customersOf_cons. destruct (decide (x <> 0)); [|contradiction].
  now rewrite IH.
Qed.

Lemma elem_of_customersOf (k : nat) (r : Route) :
  k ∈ customersOf r <-> k <> 0 /\ k ∈ r.
Proof. exact (list_elem_of_filter (fun node => node <> 0) r k). Qed.

Lemma customersOf_depot_framed (body : list nat) :
  customersOf (0 :: body ++ [0]) = customersOf body.
Proof.
  change (0 :: body ++ [0]) with ([0] ++ body ++ [0]).
  rewrite !customersOf_app. change (customersOf [0]) with (@nil nat).
  now rewrite app_nil_r.
Qed.

Lemma framed_merge (a b : Route) :
  framed a -> framed b ->
  removelast a ++ tail b = 0 :: (customersOf a ++ customersOf b) ++ [0]
  /\ customersOf (removelast a ++ tail b) = customersOf a ++ customersOf b.
Proof.
  unfold framed. intros Ha Hb.
  assert (E : removelast a ++ tail b
              = 0 :: (customersOf a ++ customersOf b) ++ [0]).
  { rewrite Ha at 1. rewrite Hb at 1.
    change (0 :: customersOf a ++ [0]) with ((0 :: customersOf a) ++ [0]).
    rewrite removelast_last. simpl. now rewrite <- app_assoc. }
  split; [exact E|].
  rewrite E.
  change (0 :: (customersOf a ++ customersOf b) ++ [0])
    with ([0] ++ (customersOf a ++ customersOf b) ++ [0]).
  rewrite !customersOf_app, !customersOf_idemp.
  unfold customersOf at 1 4. simpl. now rewrite app_nil_r.
Qed.

Lemma servedCustomers_app (a b : list Route) :
  servedCustomers (a ++ b) = servedCustomers a ++ servedCustomers b.
Proof. unfold servedCustomers. now rewrite fmap_app, concat_app. Qed.

Lemma servedCustomers_singleton (r : Route) : servedCustomers [r] = customersOf r.
Proof. unfold servedCustomers. simpl. apply app_nil_r. Qed.

Lemma elem_of_concat {A : Type} (x : A) (ls : list (list A)) :
  x ∈ concat ls <-> exists l, x ∈ l /\ l ∈ ls.
Proof.
  rewrite list_elem_of_In, in_concat. split.
  - intros (l & Hl & Hx). exists l. now rewrite !list_elem_of_In.
  - intros (l & Hx & Hl). exists l. now rewrite <- !list_elem_of_In.
Qed.

(** In a concatenation without repetition an element lies in one block. *)
Lemma NoDup_concat_unique {A : Type} (ls : list (list A)) (i j : nat)
    (a b : list A) (x : A) :
  NoDup (concat ls) -> ls !! i = Some a -> ls !! j = Some b ->
  x ∈ a -> x ∈ b -> i = j.
Proof.
  revert i j. induction ls as [|l ls IH]; intros i j Hnd Hi Hj Ha Hb.
  - discriminate.
  - simpl in Hnd. apply NoDup_app in Hnd as (_ & Hdisj & Hnd).
    assert (Hin : forall n c, ls !! n = Some c -> x ∈ c -> x ∈ concat ls).
    { intros n c Hn Hc. apply elem_of_concat. exists c. split; [exact Hc|].
      apply list_elem_of_lookup. now exists n. }
    destruct i as [|i], j as [|j]; simpl in Hi, Hj.
    + reflexivity.
    + injection Hi as ->. exfalso. apply (Hdisj x Ha). now apply (Hin j b).
    + injection Hj as ->. exfalso. apply (Hdisj x Hb). now apply (Hin i a).
    + f_equal. now apply IH.
Qed.

(** ** Feasibility check and driver *)

Lemma validateProblem_excess (g : Globals) :
  (totalCapacity g < totalDemand g)%Q ->
  validateProblem g
  = (false, [DemandExceedsCapacity (totalDemand g) (totalCapacity g)]).
Proof.
  intros H. unfold validateProblem.
  apply Qltb_lt in H. rewrite H. reflexivity.
Qed.

(** C1, as amended: when the total demand exceeds [numVehicles] times
    [vehicleCapacity], [validateProblem] raises the demand warning and
    returns false, and [solveVRP] returns at once: whatever constructors are
    selected, none is run and no solution is displayed. *)
Theorem solveVRP_excess_demand_returns_early (g : Globals) (fuel : nat) (ui : Controls) :
  (totalCapacity g < totalDemand g)%Q ->
  validateProblem g
  = (false, [DemandExceedsCapacity (totalDemand g) (totalCapacity g)])
  /\ solveVRP g fuel ui
     = Some (ReturnedEarly
               [DemandExceedsCapacity (totalDemand g) (totalCapacity g)]).
Proof.
  intros H. pose proof (validateProblem_excess g H) as Hv.
  split; [exact Hv|].
  unfold solveVRP. rewrite Hv. reflexivity.
Qed.

Lemma solveVRP_excess_demand_witness :
  (totalCapacity overloaded < totalDemand overloaded)%Q
  /\ solveVRP overloaded 7 allControls
     = Some (ReturnedEarly
               [DemandExceedsCapacity (totalDemand overloaded)
                                      (totalCapacity overloaded)]).
Proof.
  assert (H : (totalCapacity overloaded < totalDemand overloaded)%Q)
    by (vm_compute; reflexivity).
  split; [exact H|].
  exact (proj2 (solveVRP_excess_demand_returns_early overloaded 7 allControls H)).
Defined.

(** C1 as stated fails: with one customer of demand 5 and one vehicle of
    capacity 3 (a depot and a customer are present), [solveVRP] displays no
    solution, whatever the fuel. *)
Lemma solveVRP_excess_demand_aborts :
  (totalCapacity overloaded < totalDemand overloaded)%Q
  /\ depot overloaded <> None
  /\ length (destinations overloaded) = 1
  /\ forall fuel results,
       solveVRP overloaded fuel allControls <> Some (Displayed results).
Proof.
  split; [vm_compute; reflexivity|].
  split; [discriminate|].
  split; [reflexivity|].
  intros fuel results.
  assert (H : (totalCapacity overloaded < totalDemand overloaded)%Q)
    by (vm_compute; reflexivity).
  unfold solveVRP. rewrite (validateProblem_excess overloaded H).
  discriminate.
Qed.

(** ** Route metrics and evaluator *)

Lemma fold_accumulate_distance (g : Globals) (routes : list Route)
    (d t : Q) (e : JSNumber) :
  ((fold_left (accumulate g) routes (d, t, e)).1.1
   == d + sumOfDistances g routes)%Q.
Proof.
  revert d t e. induction routes as [|r routes IH]; intros d t e; simpl.
  - lra.
  - rewrite IH. lra.
Qed.

Lemma evaluateSolution_distance (g : Globals) (routes : list Route)
    (name : string) (colorIndex : nat) :
  distance (evaluateSolution g routes name colorIndex)
  = (fold_left (accumulate g) routes (0%Q, 0%Q, Num 0)).1.1.
Proof.
  unfold evaluateSolution.
  destruct (fold_left _ _ _) as [[d t] e]. reflexivity.
Qed.

Lemma evaluateSolution_vehicles (g : Globals) (routes : list Route)
    (name : string) (colorIndex : nat) :
  vehicles (evaluateSolution g routes name colorIndex) = length routes.
Proof.
  unfold evaluateSolution.
  destruct (fold_left _ _ _) as [[d t] e]. reflexivity.
Qed.

(** C7, as amended: with a consumption rate [f] in the problem file,
    [calculateRouteEnergy] is [calculateRouteDistance / 100 * f], which is 0
    when [f] is 0; with no consumption rate in the file the global is
    [undefined] and the result is [NaN], not 0. *)
Theorem calculateRouteEnergy_formula (g : Globals) (route : Route) :
  (forall f, fuelConsumption g = Some f ->
     calculateRouteEnergy g route
     = Num (calculateRouteDistance g route / 100 * f)%Q)
  /\ (forall f, fuelConsumption g = Some f -> (f == 0)%Q ->
        exists e, calculateRouteEnergy g route = Num e /\ (e == 0)%Q)
  /\ (fuelConsumption g = None -> calculateRouteEnergy g route = NaN).
Proof.
  unfold calculateRouteEnergy. split; [|split].
  - intros f ->. reflexivity.
  - intros f -> Hf. eexists. split; [reflexivity|].
    rewrite Hf. ring.
  - intros ->. reflexivity.
Qed.

Lemma calculateRouteEnergy_witness :
  calculateRouteEnergy mergeable [0; 1; 2; 0] = Num (9 / 100 * 8)%Q
  /\ (exists e, calculateRouteEnergy crossing [0; 1; 2; 3; 0] = Num e /\ (e == 0)%Q)
  /\ calculateRouteEnergy threeCustomers [0; 1; 2; 0] = NaN.
Proof.
  split; [|split].
  - exact (proj1 (calculateRouteEnergy_formula mergeable [0; 1; 2; 0])
             8%Q eq_refl).
  - exact (proj1 (proj2 (calculateRouteEnergy_formula crossing [0; 1; 2; 3; 0]))
             0%Q eq_refl (Qeq_refl 0)).
  - exact (proj2 (proj2 (calculateRouteEnergy_formula threeCustomers [0; 1; 2; 0]))
             eq_refl).
Defined.

(** C7 as stated fails: with no consumption rate in the problem file the
    energy of the route [0, 1, 2, 0] is [NaN], not 0. *)
Lemma calculateRouteEnergy_absent_rate :
  fuelConsumption threeCustomers = None
  /\ calculateRouteEnergy threeCustomers [0; 1; 2; 0] = NaN
  /\ calculateRouteEnergy threeCustomers [0; 1; 2; 0] <> Num 0.
Proof. split; [reflexivity|]. split; [reflexivity|discriminate]. Qed.

(** ** Demand of a route *)

Section Demands.

Context (g : Globals).

Lemma routeDemand_app (a b : Route) :
  (routeDemand g (a ++ b) == routeDemand g a + routeDemand g b)%Q.
Proof.
  induction a as [|x a IH]; simpl.
  - lra.
  - unfold routeDemand in *. simpl. rewrite IH. lra.
Qed.

Lemma routeDemand_depot_framed (body : list nat) :
  (routeDemand g (0%nat :: body ++ [0%nat]) == routeDemand g body)%Q.
Proof.
  change (0 :: body ++ [0]) with ([0] ++ body ++ [0]).
  rewrite !routeDemand_app. unfold routeDemand at 1 3. simpl. lra.
Qed.

Lemma routeDemand_framed (a : Route) :
  framed a -> (routeDemand g a == routeDemand g (customersOf a))%Q.
Proof.
  intros Ha. unfold framed in Ha. rewrite Ha at 1.
  apply routeDemand_depot_framed.
Qed.

End Demands.

(** ** Clarke-Wright Savings *)

Section Savings.

Context (g : Globals).

(** What one merge attempt does to the array: nothing, or two entries whose
    loads fit one vehicle are replaced by their merge. *)
Lemma mergeStep_cases (rs : list RouteInfo) (s : Saving) :
  mergeStep g rs s = rs
  \/ exists routeI routeJ rest,
       rs ≡ₚ routeI :: routeJ :: rest
       /\ mergeStep g rs s = rest ++ [mergedEntry routeI routeJ]
       /\ (load routeI + load routeJ <= vehicleCapacity g)%Q.
Proof.
  unfold mergeStep.
  destruct (list_find _ rs) as [[idxI routeI]|] eqn:EI; [|now left].
  destruct (list_find (fun r => ends_start r = sav_j s) rs)
    as [[idxJ routeJ]|] eqn:EJ; [|now left].
  destruct (bool_decide (idxI <> idxJ)) eqn:Ene; [|now left].
  destruct (Qle_bool _ _) eqn:Ecap; [|now left].
  right. exists routeI, routeJ, (delete (idxI `min` idxJ) (delete (idxI `max` idxJ) rs)).
  apply bool_decide_eq_true in Ene.
  apply list_find_Some in EI as (HI & _ & _).
  apply list_find_Some in EJ as (HJ & _ & _).
  apply Qle_bool_iff in Ecap.
  split; [|split; [reflexivity|exact Ecap]].
  destruct (Nat.lt_total idxI idxJ) as [Hlt|[Heq|Hgt]]; [|contradiction|].
  - rewrite Nat.min_l, Nat.max_r by lia.
    etrans; [apply (delete_Permutation rs idxJ routeJ HJ)|].
    etrans; [|apply perm_swap].
    apply perm_skip, delete_Permutation.
    rewrite list_lookup_delete_lt by lia. exact HI.
  - rewrite Nat.min_r, Nat.max_l by lia.
    etrans; [apply (delete_Permutation rs idxI routeI HI)|].
    apply perm_skip, delete_Permutation.
    rewrite list_lookup_delete_lt by lia. exact HJ.
Qed.

(** A property of the array kept by every merge attempt holds when the merge
    loop ends. *)
Lemma mergeLoop_invariant (P : list RouteInfo -> Prop) :
  (forall rs s, P rs -> P (mergeStep g rs s)) ->
  forall savings rs, P rs -> P (mergeLoop g savings rs).
Proof.
  intros Hstep savings. induction savings as [|s savings IH]; intros rs Hrs; simpl.
  - exact Hrs.
  - destruct (length rs <=? numVehicles g); [exact Hrs|].
    apply IH, Hstep, Hrs.
Qed.

Lemma mergeLoop_stops (savings : list Saving) (rs : list RouteInfo) :
  length rs <= numVehicles g -> mergeLoop g savings rs = rs.
Proof.
  intros H. destruct savings as [|s savings]; [reflexivity|].
  simpl. apply Nat.leb_le in H. now rewrite H.
Qed.

Lemma mergeStep_length (rs : list RouteInfo) (s : Saving) :
  length (mergeStep g rs s) = length rs
  \/ S (length (mergeStep g rs s)) = length rs.
Proof.
  destruct (mergeStep_cases rs s) as [->|(rI & rJ & rest & Hp & -> & _)];
    [now left|right].
  rewrite (Permutation_length Hp), length_app. simpl. lia.
Qed.

Lemma mergeLoop_length (savings : list Saving) (rs : list RouteInfo) :
  numVehicles g `min` length rs <= length (mergeLoop g savings rs)
  /\ length (mergeLoop g savings rs) <= length rs.
Proof.
  revert rs. induction savings as [|s savings IH]; intros rs; simpl; [lia|].
  destruct (length rs <=? numVehicles g) eqn:E; [lia|].
  apply Nat.leb_gt in E.
  destruct (IH (mergeStep g rs s)) as [IH1 IH2].
  destruct (mergeStep_length rs s) as [Hl|Hl]; lia.
Qed.

Lemma length_initialRoutes :
  length (initialRoutes g) = length (destinations g).
Proof. unfold initialRoutes. apply length_imap. Qed.

Lemma customersOfEntries_cons (r : RouteInfo) (rs : list RouteInfo) :
  customersOfEntries (r :: rs) = customersOf (route r) ++ customersOfEntries rs.
Proof. reflexivity. Qed.

Lemma customersOfEntries_app (a b : list RouteInfo) :
  customersOfEntries (a ++ b) = customersOfEntries a ++ customersOfEntries b.
Proof.
  unfold customersOfEntries, servedCustomers.
  now rewrite !fmap_app, concat_app.
Qed.

Lemma customersOfEntries_perm (a b : list RouteInfo) :
  a ≡ₚ b -> customersOfEntries a ≡ₚ customersOfEntries b.
Proof.
  unfold customersOfEntries, servedCustomers. intros H.
  now rewrite H.
Qed.

Lemma mergeStep_partitions (n : nat) (rs : list RouteInfo) (s : Saving) :
  partitions n rs -> partitions n (mergeStep g rs s).
Proof.
  intros [Hf Hc].
  destruct (mergeStep_cases rs s) as [->|(rI & rJ & rest & Hp & -> & _)];
    [now split|].
  rewrite Hp in Hf. apply Forall_cons in Hf as [HfI Hf].
  apply Forall_cons in Hf as [HfJ Hf].
  destruct (framed_merge _ _ HfI HfJ) as [E Hm].
  split.
  - apply Forall_app. split; [exact Hf|].
    apply Forall_singleton. unfold framed. simpl. rewrite Hm. exact E.
  - rewrite <- Hc, (customersOfEntries_perm _ _ Hp).
    rewrite customersOfEntries_app, !customersOfEntries_cons.
    unfold customersOfEntries at 2. simpl. rewrite Hm, app_nil_r.
    rewrite (Permutation_app_comm (customersOfEntries rest)).
    now rewrite <- app_assoc.
Qed.

Lemma initialRoutes_shape (f : nat -> nat) (ds : list Destination) :
  Forall (fun r => framed (route r))
    (imap (fun idx d => {| route := [0; S (f idx); 0]; load := demand d;
                           ends_start := S (f idx); ends_end := S (f idx) |}) ds)
  /\ customersOfEntries
       (imap (fun idx d => {| route := [0; S (f idx); 0]; load := demand d;
                              ends_start := S (f idx); ends_end := S (f idx) |}) ds)
     = (fun idx => S (f idx)) <$> seq 0 (length ds).
Proof.
  revert f. induction ds as [|d ds IH]; intros f.
  - split; [constructor|reflexivity].
  - rewrite imap_cons. destruct (IH (f ∘ S)) as [IH1 IH2]. split.
    + constructor; [reflexivity|exact IH1].
    + rewrite customersOfEntries_cons. simpl length. simpl seq.
      rewrite fmap_cons. simpl route.
      change (customersOf [0; S (f 0); 0]) with [S (f 0)]. simpl.
      f_equal. etrans; [exact IH2|].
      rewrite <- fmap_S_seq, <- list_fmap_compose. reflexivity.
Qed.

Lemma initialRoutes_partitions :
  partitions (length (destinations g)) (initialRoutes g).
Proof.
  unfold initialRoutes.
  assert (E : imap (fun idx d => {| route := [0; idx + 1; 0]; load := demand d;
                                    ends_start := idx + 1; ends_end := idx + 1 |})
                (destinations g)
              = imap (fun idx d => {| route := [0; S (id idx); 0]; load := demand d;
                                      ends_start := S (id idx); ends_end := S (id idx) |})
                  (destinations g)).
  { apply imap_ext. intros i d _. simpl. unfold id.
    now replace (i + 1) with (S i) by lia. }
  rewrite E. destruct (initialRoutes_shape id (destinations g)) as [H1 H2].
  split; [exact H1|]. rewrite H2.
  now rewrite fmap_S_seq.
Qed.

Lemma savings_partitions :
  partitions (length (destinations g))
    (mergeLoop g (sortSavings (computeSavings g)) (initialRoutes g)).
Proof.
  apply mergeLoop_invariant.
  - intros rs s. apply mergeStep_partitions.
  - apply initialRoutes_partitions.
Qed.

End Savings.

(** The scenarios of the design document. *)
Example savings_merge_scenario :
  savingsAlgorithmVRP mergeable = [[0; 1; 2; 0]]
  /\ (calculateRouteDistance mergeable [0; 1; 2; 0]%nat == 9)%Q.
Proof. split; vm_compute; reflexivity. Qed.

(** Equal savings keep the order in which the pairs were generated. *)
Example sortSavings_stable_scenario :
  (fun s => (sav_i s, sav_j s)) <$> sortSavings (computeSavings misaligned)
  = [(1, 3); (2, 3); (1, 2)].
Proof. vm_compute. reflexivity. Qed.

(** A merge that would overload the vehicle is not made. *)
Example savings_capacity_scenario :
  savingsAlgorithmVRP unmergeable = [[0; 1; 0]; [0; 2; 0]].
Proof. vm_compute. reflexivity. Qed.

(** C10: the customers of the routes returned by [savingsAlgorithmVRP] are
    exactly the customers 1..C, each one once: no customer is dropped,
    whatever the demands and the capacity, and every customer lies in
    exactly one route. *)
Theorem savings_serves_every_customer_once (g : Globals) :
  servedCustomers (savingsAlgorithmVRP g) ≡ₚ seq 1 (length (destinations g))
  /\ forall k, 1 <= k <= length (destinations g) ->
       exists i r,
         savingsAlgorithmVRP g !! i = Some r /\ k ∈ r
         /\ forall j r', savingsAlgorithmVRP g !! j = Some r' -> k ∈ r' -> j = i.
Proof.
  destruct (savings_partitions g) as [_ Hp].
  change (servedCustomers (savingsAlgorithmVRP g)
          ≡ₚ seq 1 (length (destinations g))) in Hp.
  split; [exact Hp|].
  intros k Hk.
  assert (Hin : k ∈ servedCustomers (savingsAlgorithmVRP g)).
  { rewrite Hp. apply elem_of_seq. lia. }
  assert (Hnd : NoDup (servedCustomers (savingsAlgorithmVRP g))).
  { rewrite Hp. apply NoDup_seq. }
  unfold servedCustomers in Hin, Hnd.
  apply elem_of_concat in Hin as (c & Hkc & Hc).
  apply list_elem_of_lookup in Hc as [i Hi].
  rewrite list_lookup_fmap in Hi.
  destruct (savingsAlgorithmVRP g !! i) as [r|] eqn:Er; [|discriminate].
  injection Hi as <-.
  exists i, r. split; [exact Er|].
  apply elem_of_customersOf in Hkc as [Hk0 Hkr]. split; [exact Hkr|].
  intros j r' Hj Hkr'.
  apply (NoDup_concat_unique _ j i (customersOf r') (customersOf r) k Hnd).
  - rewrite list_lookup_fmap, Hj. reflexivity.
  - rewrite list_lookup_fmap, Er. reflexivity.
  - now apply elem_of_customersOf.
  - now apply elem_of_customersOf.
Qed.

Lemma savings_serves_every_customer_witness :
  exists i r,
    savingsAlgorithmVRP unmergeable !! i = Some r /\ 2 ∈ r
    /\ forall j r', savingsAlgorithmVRP unmergeable !! j = Some r' -> 2 ∈ r' -> j = i.
Proof.
  apply (proj2 (savings_serves_every_customer_once unmergeable) 2).
  simpl. lia.
Defined.

(** ** Nearest Neighbor *)

Section NearestNeighbor.

Context (g : Globals).

(** A customer selected by the scan fits the vehicle. *)
Lemma scanNearest_Some (pos : nat) (currentLoad : Q) (i : nat)
    (us : list Destination) (nearest : option (nat * Q)) (idx : nat) (dist : Q) :
  scanNearest g pos currentLoad i us nearest = Some (idx, dist) ->
  nearest = Some (idx, dist)
  \/ exists u, i <= idx /\ us !! (idx - i) = Some u
       /\ (currentLoad + demand u <= vehicleCapacity g)%Q.
Proof.
  revert i nearest. induction us as [|u us IH]; intros i nearest H; simpl in H.
  - now left.
  - apply IH in H as [H|(u' & Hle & Hu' & Hfit)].
    + destruct (_ && _) eqn:E; [|now left].
      apply andb_true_iff in E as [_ Hfit]. apply Qle_bool_iff in Hfit.
      injection H as <- <-. right. exists u.
      split; [lia|]. rewrite Nat.sub_diag. split; [reflexivity|exact Hfit].
    + right. exists u'. split; [lia|]. split; [|exact Hfit].
      replace (idx - i) with (S (idx - S i)) by lia. exact Hu'.
Qed.

Lemma scanNearest_keeps (pos : nat) (currentLoad : Q) (i : nat)
    (us : list Destination) (best : nat * Q) :
  is_Some (scanNearest g pos currentLoad i us (Some best)).
Proof.
  revert i best. induction us as [|u us IH]; intros i best; simpl.
  - now exists best.
  - destruct (_ && _); apply IH.
Qed.

Lemma scanNearest_first_fits (pos i : nat) (currentLoad : Q)
    (u : Destination) (us : list Destination) :
  (currentLoad + demand u <= vehicleCapacity g)%Q ->
  is_Some (scanNearest g pos currentLoad i (u :: us) None).
Proof.
  intros Hfit. simpl. apply Qle_bool_iff in Hfit. rewrite Hfit. simpl.
  apply scanNearest_keeps.
Qed.

Lemma fillRoute_step (n : nat) (u : Destination)
    (us : list Destination) (route : Route) (pos : nat) (currentLoad : Q)
    (idx : nat) (dist : Q) (next : Destination) :
  scanNearest g pos currentLoad 0 (u :: us) None = Some (idx, dist) ->
  (u :: us) !! idx = Some next ->
  fillRoute g (S n) (u :: us) route pos currentLoad
  = fillRoute g n (delete idx (u :: us)) (route ++ [nodeIndex g next])
      (nodeIndex g next) (currentLoad + demand next)%Q.
Proof.
  intros Hs Hn. cbn -[scanNearest lookup delete]. rewrite Hs, Hn. reflexivity.
Qed.

(** The filling loop needs no more iterations than there are unvisited
    customers: any larger bound gives the same route. *)
Lemma fillRoute_enough (n m : nat) (unvisited : list Destination)
    (route : Route) (pos : nat) (currentLoad : Q) :
  length unvisited <= n -> length unvisited <= m ->
  fillRoute g n unvisited route pos currentLoad
  = fillRoute g m unvisited route pos currentLoad.
Proof.
  revert m unvisited route pos currentLoad.
  induction n as [|n IH]; intros m unvisited route pos currentLoad Hn Hm.
  - destruct unvisited; [|simpl in Hn; lia]. now destruct m.
  - destruct unvisited as [|u us]; [now destruct m|].
    destruct m as [|m]; [simpl in Hm; lia|].
    cbn -[scanNearest lookup delete].
    destruct (scanNearest g pos currentLoad 0 (u :: us) None) as [[idx dist]|];
      [|reflexivity].
    destruct ((u :: us) !! idx) as [next|] eqn:E; [|reflexivity].
    assert (Hl : length (delete idx (u :: us)) = length us).
    { rewrite length_delete by (now exists next). simpl. lia. }
    simpl in Hn, Hm. apply IH; lia.
Qed.

(** Closes the cases in which the filling loop ends at once: no customer was
    taken. *)
Ltac nothing_taken H :=
  simpl in H; injection H as <- <-; exists []; rewrite app_nil_r; auto.

(** The customers taken by one run of the filling loop. *)
Lemma fillRoute_spec (n : nat) (unvisited : list Destination)
    (route : Route) (pos : nat) (currentLoad : Q)
    (route' : Route) (unvisited' : list Destination) :
  fillRoute g n unvisited route pos currentLoad = (route', unvisited') ->
  exists taken,
    route' = route ++ (nodeIndex g <$> taken)
    /\ unvisited ≡ₚ taken ++ unvisited'
    /\ (taken = [] \/ (currentLoad + sumDemand taken <= vehicleCapacity g)%Q).
Proof.
  revert unvisited route pos currentLoad.
  induction n as [|n IH]; intros unvisited route pos currentLoad H.
  - destruct unvisited; nothing_taken H.
  - destruct unvisited as [|u0 us]; [nothing_taken H|].
    cbn [fillRoute] in H.
    destruct (scanNearest g pos currentLoad 0 (u0 :: us) None)
      as [[idx dist]|] eqn:Escan;
      [|nothing_taken H].
    apply scanNearest_Some in Escan as [Hs|(u & _ & Hu & Hfit)]; [discriminate|].
    rewrite Nat.sub_0_r in Hu. rewrite Hu in H.
    apply IH in H as (taken & -> & Hperm & Hload).
    exists (u :: taken). split; [|split].
    + rewrite fmap_cons, <- app_assoc. reflexivity.
    + etrans; [apply (delete_Permutation _ idx u Hu)|].
      simpl. now apply perm_skip.
    + right. destruct Hload as [->|Hload].
      * unfold sumDemand. simpl. lra.
      * unfold sumDemand in *. simpl. lra.
Qed.

Lemma fillRoute_length (n : nat) (unvisited : list Destination)
    (route : Route) (pos : nat) (currentLoad : Q) :
  length route <= length (fillRoute g n unvisited route pos currentLoad).1.
Proof.
  destruct (fillRoute g n unvisited route pos currentLoad) as [r u] eqn:E.
  apply fillRoute_spec in E as (taken & -> & _). simpl.
  rewrite length_app. lia.
Qed.

Lemma buildRoute_spec (unvisited : list Destination)
    (r : Route) (unvisited' : list Destination) :
  buildRoute g unvisited = (r, unvisited') ->
  exists taken,
    r = 0 :: (nodeIndex g <$> taken) ++ [0]
    /\ unvisited ≡ₚ taken ++ unvisited'
    /\ (taken = [] \/ (sumDemand taken <= vehicleCapacity g)%Q).
Proof.
  unfold buildRoute.
  destruct (fillRoute g _ unvisited [0] 0 0%Q) as [route u'] eqn:E.
  intros H. injection H as <- <-.
  apply fillRoute_spec in E as (taken & -> & Hperm & Hload).
  exists taken. split; [reflexivity|]. split; [exact Hperm|].
  destruct Hload as [->|Hload]; [now left|right]. lra.
Qed.

Lemma buildRoute_unvisited_subset (unvisited : list Destination) :
  (buildRoute g unvisited).2 ⊆ unvisited.
Proof.
  destruct (buildRoute g unvisited) as [r u'] eqn:E.
  apply buildRoute_spec in E as (taken & _ & Hp & _).
  intros x Hx. rewrite Hp. apply elem_of_app. now right.
Qed.

Lemma buildRoute_serves (u : Destination) (us : list Destination) :
  (demand u <= vehicleCapacity g)%Q ->
  2 < length (buildRoute g (u :: us)).1.
Proof.
  intros Hfit. unfold buildRoute.
  destruct (scanNearest_first_fits 0 0 0%Q u us) as [[idx dist] Es];
    [lra|].
  pose proof Es as Es'.
  apply scanNearest_Some in Es' as [Hs|(u' & _ & Hu' & _)]; [discriminate|].
  rewrite Nat.sub_0_r in Hu'.
  change (length (u :: us)) with (S (length us)).
  rewrite (fillRoute_step _ u us [0] 0 0%Q idx dist u' Es Hu').
  pose proof (fillRoute_length (length us) (delete idx (u :: us))
                ([0] ++ [nodeIndex g u']) (nodeIndex g u') (0 + demand u')%Q) as Hl.
  destruct (fillRoute g _ _ _ _ _) as [r rest]. simpl in Hl. simpl.
  rewrite length_app. simpl. lia.
Qed.

(** After [k] vehicles nothing is left unvisited or [k] routes were pushed. *)
Lemma vehicleLoop_fills (k : nat) (unvisited : list Destination)
    (vehicleRoutes : list Route) :
  (forall d, d ∈ unvisited -> (demand d <= vehicleCapacity g)%Q) ->
  (vehicleLoop g k unvisited vehicleRoutes).2 = []
  \/ length (vehicleLoop g k unvisited vehicleRoutes).1 = length vehicleRoutes + k.
Proof.
  revert unvisited vehicleRoutes.
  induction k as [|k IH]; intros unvisited vehicleRoutes Hfit.
  - right. destruct unvisited; simpl; lia.
  - destruct unvisited as [|u us]; [now left|].
    cbn [vehicleLoop].
    pose proof (buildRoute_serves u us (Hfit u ltac:(left))) as Hlen.
    pose proof (buildRoute_unvisited_subset (u :: us)) as Hsub.
    destruct (buildRoute g (u :: us)) as [r unvisited']. simpl in Hlen, Hsub.
    destruct (IH unvisited' (pushIfServed vehicleRoutes r)) as [H|H].
    + intros d Hd. apply Hfit, Hsub, Hd.
    + now left.
    + right. rewrite H. unfold pushIfServed.
      apply Nat.ltb_lt in Hlen. rewrite Hlen, length_app. simpl. lia.
Qed.

(** When every customer fits a vehicle the second vehicle loop is never
    entered, and [nearestNeighborVRP] returns whatever the fuel. *)
Lemma nearestNeighborVRP_returns_when_customers_fit :
  (forall d, d ∈ destinations g -> (demand d <= vehicleCapacity g)%Q) ->
  exists routes, forall fuel, nearestNeighborVRP g fuel = Some routes.
Proof.
  intros Hfit. unfold nearestNeighborVRP.
  pose proof (vehicleLoop_fills (numVehicles g) (destinations g) [] Hfit) as H.
  destruct (vehicleLoop g _ _ _) as [vehicleRoutes unvisited]. simpl in H.
  exists vehicleRoutes. intros fuel.
  assert (E : bool_decide (unvisited <> []) && (length vehicleRoutes <? numVehicles g)
              = false).
  { destruct H as [->|H].
    - rewrite bool_decide_eq_false_2 by (intros Hne; now apply Hne). reflexivity.
    - apply andb_false_iff. right. apply Nat.ltb_ge. lia. }
  destruct fuel; simpl; rewrite E; reflexivity.
Qed.

(** When no unvisited customer fits an empty vehicle the scan selects
    nothing and the route built is the empty route [0, 0]. *)
Lemma scanNearest_none_fits (pos : nat) (i : nat) (us : list Destination) :
  Forall (fun u => ~ (0 + demand u <= vehicleCapacity g)%Q) us ->
  scanNearest g pos 0%Q i us None = None.
Proof.
  revert i. induction us as [|u us IH]; intros i Hall; [reflexivity|].
  apply Forall_cons in Hall as [Hu Hall]. simpl.
  destruct (Qle_bool (0 + demand u) (vehicleCapacity g)) eqn:E.
  - apply Qle_bool_iff in E. contradiction.
  - now apply IH.
Qed.

Lemma buildRoute_none_fits (unvisited : list Destination) :
  Forall (fun u => ~ (0 + demand u <= vehicleCapacity g)%Q) unvisited ->
  buildRoute g unvisited = ([0; 0], unvisited).
Proof.
  intros Hall. unfold buildRoute.
  destruct unvisited as [|u us]; [reflexivity|].
  cbn -[scanNearest lookup delete].
  now rewrite scanNearest_none_fits.
Qed.

(** The second vehicle loop makes no progress, and so never ends, once it is
    entered with customers none of which fits a vehicle. *)
Lemma extraLoop_never_returns (fuel : nat) (unvisited : list Destination)
    (vehicleRoutes : list Route) :
  unvisited <> [] ->
  length vehicleRoutes < numVehicles g ->
  Forall (fun u => ~ (0 + demand u <= vehicleCapacity g)%Q) unvisited ->
  extraLoop g fuel unvisited vehicleRoutes = None.
Proof.
  intros Hne Hlen Hall.
  assert (E : bool_decide (unvisited <> [])
              && (length vehicleRoutes <? numVehicles g) = true).
  { apply andb_true_iff. split.
    - now apply bool_decide_eq_true.
    - now apply Nat.ltb_lt. }
  induction fuel as [|fuel IH]; simpl; rewrite E; [reflexivity|].
  rewrite (buildRoute_none_fits unvisited Hall). exact IH.
Qed.

(** From here on the objects of [destinations] are pairwise distinct, which
    is what [indexOf] by reference relies on. *)
Section DistinctObjects.

Hypothesis Hnd : distinctObjects g.

Lemma nodeIndex_lookup (k : nat) (d : Destination) :
  destinations g !! k = Some d -> nodeIndex g d = S k.
Proof.
  intros Hk. unfold nodeIndex, indexOf.
  destruct (list_find _ (destinations g)) as [[i x]|] eqn:E; simpl.
  - apply list_find_Some in E as (Hi & Hx & _). f_equal.
    apply (NoDup_lookup _ i k (ref d) Hnd); rewrite list_lookup_fmap.
    + rewrite Hi. simpl. now f_equal.
    + now rewrite Hk.
  - apply list_find_None in E. rewrite Forall_forall in E.
    exfalso. apply (E d); [|reflexivity].
    now apply (list_elem_of_lookup_2 _ k).
Qed.

Lemma demandAt_nodeIndex (d : Destination) :
  d ∈ destinations g ->
  demandAt g (nodeIndex g d) = demand d /\ nodeIndex g d <> 0.
Proof.
  intros Hd. apply list_elem_of_lookup in Hd as [k Hk].
  rewrite (nodeIndex_lookup k d Hk). split; [|discriminate].
  simpl. now rewrite Hk.
Qed.

Lemma nodeIndex_destinations :
  nodeIndex g <$> destinations g = seq 1 (length (destinations g)).
Proof.
  apply list_eq. intros k. rewrite list_lookup_fmap.
  destruct (destinations g !! k) as [d|] eqn:E; simpl.
  - rewrite (nodeIndex_lookup k d E).
    apply lookup_lt_Some in E. now rewrite lookup_seq_lt.
  - apply lookup_ge_None in E. now rewrite lookup_seq_ge.
Qed.

Lemma taken_metrics (taken : list Destination) :
  taken ⊆ destinations g ->
  (routeDemand g (nodeIndex g <$> taken) == sumDemand taken)%Q
  /\ customersOf (nodeIndex g <$> taken) = nodeIndex g <$> taken.
Proof.
  induction taken as [|d taken IH]; intros Hsub.
  - split; reflexivity.
  - assert (Hd : d ∈ destinations g) by (apply Hsub; left).
    assert (Hsub' : taken ⊆ destinations g)
      by (intros x Hx; apply Hsub; now right).
    destruct (IH Hsub') as [IH1 IH2].
    destruct (demandAt_nodeIndex d Hd) as [Hdem Hnz].
    rewrite fmap_cons. split.
    + unfold routeDemand, sumDemand in *. simpl. rewrite Hdem, IH1. reflexivity.
    + rewrite customersOf_cons. destruct (decide (nodeIndex g d <> 0)); [|contradiction].
      now rewrite IH2.
Qed.

(** One vehicle keeps the state of the loops. *)
Lemma buildRoute_invariant (vehicleRoutes : list Route)
    (unvisited : list Destination) (r : Route) (unvisited' : list Destination) :
  nnInvariant g vehicleRoutes unvisited ->
  buildRoute g unvisited = (r, unvisited') ->
  nnInvariant g (pushIfServed vehicleRoutes r) unvisited'.
Proof.
  intros (Hsub & Hperm & Hcap) Hb.
  apply buildRoute_spec in Hb as (taken & -> & Hp & Hload).
  assert (Htaken : taken ⊆ destinations g).
  { intros x Hx. apply Hsub. rewrite Hp. apply elem_of_app. now left. }
  assert (Hsub' : unvisited' ⊆ destinations g).
  { intros x Hx. apply Hsub. rewrite Hp. apply elem_of_app. now right. }
  destruct (taken_metrics taken Htaken) as [Hdem Hcust].
  assert (Hlen : length (0 :: (nodeIndex g <$> taken) ++ [0]) = 2 + length taken).
  { simpl. rewrite length_app, length_fmap. simpl. lia. }
  unfold pushIfServed. rewrite Hlen.
  destruct taken as [|d taken].
  - simpl. split; [exact Hsub'|]. split; [|exact Hcap].
    rewrite <- Hperm, Hp. reflexivity.
  - replace (2 <? 2 + length (d :: taken)) with true
      by (symmetry; apply Nat.ltb_lt; simpl; lia).
    split; [exact Hsub'|]. split.
    + rewrite servedCustomers_app, servedCustomers_singleton.
      rewrite customersOf_depot_framed, Hcust.
      rewrite <- Hperm, Hp, fmap_app, <- app_assoc. reflexivity.
    + apply Forall_app. split; [exact Hcap|]. apply Forall_singleton.
      destruct Hload as [Hnil|Hload]; [discriminate|].
      rewrite routeDemand_depot_framed, Hdem. exact Hload.
Qed.

Lemma vehicleLoop_invariant (k : nat) (unvisited : list Destination)
    (vehicleRoutes : list Route) :
  nnInvariant g vehicleRoutes unvisited ->
  nnInvariant g (vehicleLoop g k unvisited vehicleRoutes).1
                (vehicleLoop g k unvisited vehicleRoutes).2.
Proof.
  revert unvisited vehicleRoutes.
  induction k as [|k IH]; intros unvisited vehicleRoutes Hinv.
  - destruct unvisited; exact Hinv.
  - destruct unvisited as [|u0 us]; [exact Hinv|].
    cbn [vehicleLoop].
    destruct (buildRoute g (u0 :: us)) as [r unvisited'] eqn:Eb.
    apply IH. now apply (buildRoute_invariant _ (u0 :: us)).
Qed.

Lemma extraLoop_invariant (fuel : nat) (unvisited : list Destination)
    (vehicleRoutes result : list Route) :
  nnInvariant g vehicleRoutes unvisited ->
  extraLoop g fuel unvisited vehicleRoutes = Some result ->
  exists dropped, nnInvariant g result dropped.
Proof.
  revert unvisited vehicleRoutes.
  induction fuel as [|fuel IH]; intros unvisited vehicleRoutes Hinv H.
  - simpl in H. destruct (_ && _); [discriminate|].
    injection H as <-. now exists unvisited.
  - cbn [extraLoop] in H. destruct (_ && _).
    + destruct (buildRoute g unvisited) as [r unvisited'] eqn:Eb.
      apply IH in H; [exact H|].
      now apply (buildRoute_invariant _ unvisited).
    + injection H as <-. now exists unvisited.
Qed.

Lemma nnInvariant_initial :
  nnInvariant g [] (destinations g).
Proof.
  split; [done|]. split; [|constructor].
  simpl. now rewrite nodeIndex_destinations.
Qed.

(** What holds of every list of routes that [nearestNeighborVRP] returns. *)
Lemma nearestNeighborVRP_invariant (fuel : nat) (result : list Route) :
  nearestNeighborVRP g fuel = Some result ->
  exists dropped, nnInvariant g result dropped.
Proof.
  unfold nearestNeighborVRP.
  pose proof (vehicleLoop_invariant (numVehicles g) (destinations g) []
                (nnInvariant_initial)) as Hinv.
  destruct (vehicleLoop g _ _ _) as [vehicleRoutes unvisited].
  intros H. now apply (extraLoop_invariant fuel unvisited vehicleRoutes).
Qed.

End DistinctObjects.

End NearestNeighbor.

Example nearest_neighbor_scenario :
  nearestNeighborVRP threeCustomers 0 = Some [[0; 3; 2; 0]; [0; 1; 0]].
Proof. vm_compute. reflexivity. Qed.

Lemma parseDestinations_distinct (demands : list Q) :
  NoDup (ref <$> parseDestinations demands).
Proof.
  unfold parseDestinations.
  assert (E : ref <$> imap (fun k q => {| ref := k; demand := q |}) demands
              = seq 0 (length demands)).
  { rewrite fmap_imap. apply list_eq. intros i.
    rewrite list_lookup_imap.
    destruct (demands !! i) as [q|] eqn:Eq; simpl.
    - apply lookup_lt_Some in Eq. now rewrite lookup_seq_lt.
    - apply lookup_ge_None in Eq. now rewrite lookup_seq_ge. }
  rewrite E. apply NoDup_seq.
Qed.

Lemma mkGlobals_distinct (demands : list Q) (vehicles : nat) (capacity : Q)
    (fuel : option Q) (rows : list (list Q)) :
  distinctObjects (mkGlobals demands vehicles capacity fuel rows).
Proof. apply parseDestinations_distinct. Qed.

(** C3 fails on the code: with one customer of demand 5 and two vehicles of
    capacity 3 (vehicle count >= 1, capacity > 0, demand > 0, total demand
    within the fleet's capacity), the second vehicle loop of
    [nearestNeighborVRP] builds the empty route [0, 0] for ever: no amount of
    fuel makes it return, and [solveVRP] with Nearest Neighbor selected
    passes the feasibility check and never returns either. *)
Theorem nearestNeighborVRP_oversized_never_returns :
  fst (validateProblem oversized) = true
  /\ (forall fuel, nearestNeighborVRP oversized fuel = None)
  /\ (forall fuel, solveVRP oversized fuel allControls = None).
Proof.
  assert (Hnn : forall fuel, nearestNeighborVRP oversized fuel = None).
  { intros fuel. unfold nearestNeighborVRP.
    assert (Hloop : vehicleLoop oversized (numVehicles oversized)
                      (destinations oversized) []
                    = ([], destinations oversized))
      by (vm_compute; reflexivity).
    rewrite Hloop. apply extraLoop_never_returns.
    - discriminate.
    - simpl. lia.
    - repeat constructor. vm_compute. intros H. now apply H. }
  split; [vm_compute; reflexivity|]. split; [exact Hnn|].
  intros fuel. unfold solveVRP.
  assert (Hv : validateProblem oversized = (true, []))
    by (vm_compute; reflexivity).
  rewrite Hv. simpl. rewrite Hnn. reflexivity.
Qed.

(** ** Capacity: the load that the constructors compare with the capacity *)

(** In exact arithmetic every sum of the demands of the customers of a route
    is their sum. *)
Lemma sumsDemands_exact (g : Globals) (customers : list nat) (v : Q) :
  sumsDemands g customers v -> (v == routeDemand g customers)%Q.
Proof.
  induction 1 as [k|a b x y _ IHa _ IHb].
  - unfold routeDemand. simpl. lra.
  - rewrite routeDemand_app, IHa, IHb. reflexivity.
Qed.

Section Loads.

Context (g : Globals).

Lemma mergeStep_recorded (rs : list RouteInfo) (s : Saving) :
  Forall (recorded g) rs -> Forall (recorded g) (mergeStep g rs s).
Proof.
  intros Hrs.
  destruct (mergeStep_cases g rs s) as [->|(rI & rJ & rest & Hp & -> & Hcap)];
    [exact Hrs|].
  rewrite Hp in Hrs. apply Forall_cons in Hrs as [(HfI & HlI & _) Hrs].
  apply Forall_cons in Hrs as [(HfJ & HlJ & _) Hrs].
  apply Forall_app. split; [exact Hrs|]. apply Forall_singleton.
  destruct (framed_merge _ _ HfI HfJ) as [E Hm].
  split; [|split].
  - unfold framed. simpl. rewrite Hm. exact E.
  - simpl. rewrite Hm. now constructor.
  - left. exact Hcap.
Qed.

Lemma initialRoutes_recorded : Forall (recorded g) (initialRoutes g).
Proof.
  apply Forall_lookup. intros i r Hi. unfold initialRoutes in Hi.
  rewrite list_lookup_imap in Hi.
  destruct (destinations g !! i) as [d|] eqn:Ed; [|discriminate].
  injection Hi as <-. rewrite Nat.add_1_r.
  assert (Hd : demandAt g (S i) = demand d) by (simpl; now rewrite Ed).
  split; [reflexivity|]. split; simpl.
  - rewrite <- Hd. apply (sums_one g (S i)).
  - right. now exists i, d.
Qed.

Lemma finalEntries_recorded : Forall (recorded g) (finalEntries g).
Proof.
  apply (mergeLoop_invariant g (Forall (recorded g))).
  - intros rs s. apply mergeStep_recorded.
  - apply initialRoutes_recorded.
Qed.

(** Closes the cases in which the filling loop takes no customer. *)
Ltac none_taken H :=
  simpl in H; injection H as <- <-; exists []; rewrite app_nil_r; auto.

(** The customers taken by one run of the filling loop, with the load added
    up for them. *)
Lemma fillRoute_load (n : nat) (unvisited : list Destination)
    (route : Route) (pos : nat) (currentLoad : Q)
    (route' : Route) (unvisited' : list Destination) :
  fillRoute g n unvisited route pos currentLoad = (route', unvisited') ->
  exists taken,
    route' = route ++ (nodeIndex g <$> taken)
    /\ unvisited ≡ₚ taken ++ unvisited'
    /\ (taken = []
        \/ (fold_left (fun load d => load + demand d) taken currentLoad
            <= vehicleCapacity g)%Q).
Proof.
  revert unvisited route pos currentLoad.
  induction n as [|n IH]; intros unvisited route pos currentLoad H.
  - destruct unvisited; none_taken H.
  - destruct unvisited as [|u0 us]; [none_taken H|].
    cbn [fillRoute] in H.
    destruct (scanNearest g pos currentLoad 0 (u0 :: us) None)
      as [[idx dist]|] eqn:Escan;
      [|none_taken H].
    apply scanNearest_Some in Escan as [Hs|(u & _ & Hu & Hfit)]; [discriminate|].
    rewrite Nat.sub_0_r in Hu. rewrite Hu in H.
    apply IH in H as (taken & -> & Hperm & Hload).
    exists (u :: taken). split; [|split].
    + rewrite fmap_cons, <- app_assoc. reflexivity.
    + etrans; [apply (delete_Permutation _ idx u Hu)|].
      simpl. now apply perm_skip.
    + right. destruct Hload as [->|Hload]; [exact Hfit|exact Hload].
Qed.

Lemma buildRoute_load (unvisited : list Destination)
    (r : Route) (unvisited' : list Destination) :
  buildRoute g unvisited = (r, unvisited') ->
  exists taken,
    r = 0 :: (nodeIndex g <$> taken) ++ [0]
    /\ unvisited ≡ₚ taken ++ unvisited'
    /\ (taken = []
        \/ (fold_left (fun load d => load + demand d) taken 0
            <= vehicleCapacity g)%Q).
Proof.
  unfold buildRoute.
  destruct (fillRoute g _ unvisited [0] 0 0%Q) as [route u'] eqn:E.
  intros H. injection H as <- <-.
  apply fillRoute_load in E as (taken & -> & Hperm & Hload).
  now exists taken.
Qed.

(** A property of the two vehicle loops kept by every vehicle holds of the
    routes that [nearestNeighborVRP] returns. *)
Lemma nearestNeighborVRP_keeps (P : list Route -> list Destination -> Prop) :
  (forall vehicleRoutes unvisited r unvisited',
     P vehicleRoutes unvisited ->
     buildRoute g unvisited = (r, unvisited') ->
     P (pushIfServed vehicleRoutes r) unvisited') ->
  P [] (destinations g) ->
  forall fuel routes,
    nearestNeighborVRP g fuel = Some routes -> exists dropped, P routes dropped.
Proof.
  intros Hstep Hinit fuel routes. unfold nearestNeighborVRP.
  assert (Hfor : forall k unvisited vehicleRoutes,
            P vehicleRoutes unvisited ->
            P (vehicleLoop g k unvisited vehicleRoutes).1
              (vehicleLoop g k unvisited vehicleRoutes).2).
  { induction k as [|k IH]; intros unvisited vehicleRoutes Hinv.
    - now destruct unvisited.
    - destruct unvisited as [|u0 us]; [exact Hinv|].
      cbn [vehicleLoop].
      destruct (buildRoute g (u0 :: us)) as [r unvisited'] eqn:Eb.
      apply IH. now apply (Hstep _ (u0 :: us)). }
  specialize (Hfor (numVehicles g) (destinations g) [] Hinit).
  destruct (vehicleLoop g _ _ _) as [vehicleRoutes unvisited].
  simpl in Hfor. revert unvisited vehicleRoutes Hfor.
  induction fuel as [|fuel IH]; intros unvisited vehicleRoutes Hinv H.
  - simpl in H. destruct (_ && _); [discriminate|].
    injection H as <-. now exists unvisited.
  - cbn [extraLoop] in H. destruct (_ && _).
    + destruct (buildRoute g unvisited) as [r unvisited'] eqn:Eb.
      apply IH in H; [exact H|]. now apply (Hstep _ unvisited).
    + injection H as <-. now exists unvisited.
Qed.

Hypothesis Hnd : distinctObjects g.

Lemma accumulatedLoad_taken (taken : list Destination) :
  taken ⊆ destinations g ->
  accumulatedLoad g (0 :: (nodeIndex g <$> taken) ++ [0])
  = fold_left (fun load d => (load + demand d)%Q) taken 0%Q.
Proof.
  intros Hsub. unfold accumulatedLoad.
  rewrite customersOf_depot_framed.
  rewrite (proj2 (taken_metrics g Hnd taken Hsub)).
  generalize 0%Q. induction taken as [|d taken IH]; intros acc; [reflexivity|].
  assert (Hd : d ∈ destinations g) by (apply Hsub; left).
  rewrite fmap_cons. simpl.
  rewrite (proj1 (demandAt_nodeIndex g Hnd d Hd)).
  apply IH. intros x Hx. apply Hsub. now right.
Qed.

Lemma nearestNeighborVRP_loads (fuel : nat) (routes : list Route) :
  nearestNeighborVRP g fuel = Some routes ->
  Forall (fun r => (accumulatedLoad g r <= vehicleCapacity g)%Q) routes.
Proof.
  intros H.
  apply (nearestNeighborVRP_keeps
           (fun vehicleRoutes unvisited =>
              unvisited ⊆ destinations g
              /\ Forall (fun r => (accumulatedLoad g r <= vehicleCapacity g)%Q)
                   vehicleRoutes)) in H as (dropped & _ & H); [exact H| |].
  - intros vehicleRoutes unvisited r unvisited' [Hsub Hall] Hb.
    apply buildRoute_load in Hb as (taken & -> & Hp & Hload).
    split.
    { intros x Hx. apply Hsub. rewrite Hp. apply elem_of_app. now right. }
    unfold pushIfServed.
    destruct (2 <? length (0 :: (nodeIndex g <$> taken) ++ [0])) eqn:E;
      [|exact Hall].
    apply Forall_app. split; [exact Hall|]. apply Forall_singleton.
    destruct Hload as [->|Hload]; [discriminate|].
    rewrite accumulatedLoad_taken; [exact Hload|].
    intros x Hx. apply Hsub. rewrite Hp. apply elem_of_app. now left.
  - split; [done|constructor].
Qed.

End Loads.

(** C2, as amended: every route of a list returned by [nearestNeighborVRP]
    has an accumulated load (the value of [currentLoad], the demands of its
    customers added up in the order of the visits) within [vehicleCapacity];
    every entry of the final [routes] array of [savingsAlgorithmVRP] has as
    [load] a sum of the demands of the customers of its route, and this load
    is within [vehicleCapacity] unless the route is the initial route
    [0, i, 0] of a single customer, whose load is the customer's demand; so
    when every customer's demand is within [vehicleCapacity] the load of
    every route of both constructors is within it, and Nearest Neighbor does
    return its routes. *)
Theorem constructors_respect_capacity (g : Globals) :
  distinctObjects g ->
  (forall fuel routes,
     nearestNeighborVRP g fuel = Some routes ->
     Forall (fun r => (accumulatedLoad g r <= vehicleCapacity g)%Q) routes)
  /\ savingsAlgorithmVRP g = route <$> finalEntries g
  /\ Forall (fun r =>
       sumsDemands g (customersOf (route r)) (load r)
       /\ ((load r <= vehicleCapacity g)%Q
           \/ exists k d, route r = [0; S k; 0] /\ destinations g !! k = Some d
                          /\ load r = demand d))
       (finalEntries g)
  /\ ((forall d, d ∈ destinations g -> (demand d <= vehicleCapacity g)%Q) ->
      Forall (fun r => (load r <= vehicleCapacity g)%Q) (finalEntries g)
      /\ exists routes,
           (forall fuel, nearestNeighborVRP g fuel = Some routes)
           /\ Forall (fun r => (accumulatedLoad g r <= vehicleCapacity g)%Q)
                routes).
Proof.
  intros Hnd.
  split; [intros fuel routes; apply (nearestNeighborVRP_loads g Hnd)|].
  split; [reflexivity|]. split.
  - eapply Forall_impl; [apply finalEntries_recorded|].
    intros r (_ & Hl & Hc). now split.
  - intros Hfit. split.
    + eapply Forall_impl; [apply finalEntries_recorded|].
      intros r (_ & _ & [Hc|(k & d & _ & Hk & ->)]); [exact Hc|].
      apply Hfit. now apply (list_elem_of_lookup_2 _ k).
    + destruct (nearestNeighborVRP_returns_when_customers_fit g Hfit)
        as [routes Hr].
      exists routes. split; [exact Hr|].
      apply (nearestNeighborVRP_loads g Hnd 0), Hr.
Qed.

Lemma constructors_respect_capacity_witness :
  Forall (fun r => (accumulatedLoad threeCustomers r
                    <= vehicleCapacity threeCustomers)%Q)
    [[0; 3; 2; 0]; [0; 1; 0]]
  /\ Forall (fun r => (load r <= vehicleCapacity threeCustomers)%Q)
       (finalEntries threeCustomers).
Proof.
  pose proof (constructors_respect_capacity threeCustomers
                (mkGlobals_distinct _ _ _ _ _)) as (Hnn & _ & _ & Hfit).
  split.
  - apply (Hnn 0). vm_compute. reflexivity.
  - apply Hfit. intros d Hd.
    apply list_elem_of_In in Hd. simpl in Hd.
    destruct Hd as [<-|[<-|[<-|[]]]]; vm_compute; discriminate.
Defined.

(** C2 as stated fails for the Savings constructor: the invariants allow a
    customer of demand 5 with two vehicles of capacity 3 (the feasibility
    check passes), and the route [0, 1, 0] returned for it has demand 5. *)
Lemma savings_oversized_customer :
  fst (validateProblem oversized) = true
  /\ (0 < vehicleCapacity oversized)%Q
  /\ 1 <= numVehicles oversized
  /\ Forall (fun d => (0 < demand d)%Q) (destinations oversized)
  /\ savingsAlgorithmVRP oversized = [[0; 1; 0]]
  /\ ~ (routeDemand oversized [0; 1; 0]%nat <= vehicleCapacity oversized)%Q.
Proof.
  split; [vm_compute; reflexivity|].
  split; [vm_compute; reflexivity|]. split; [simpl; lia|].
  split; [repeat constructor|]. split; [vm_compute; reflexivity|].
  vm_compute. intros H. now apply H.
Qed.

(** C8: in a list of routes returned by one call of [nearestNeighborVRP] or
    of [savingsAlgorithmVRP] no customer index appears twice, within a route
    or across routes; and when every customer fits a vehicle Nearest
    Neighbor does return such a list. *)
Theorem constructors_serve_no_customer_twice (g : Globals) :
  distinctObjects g ->
  (forall fuel routes,
     nearestNeighborVRP g fuel = Some routes -> NoDup (servedCustomers routes))
  /\ NoDup (servedCustomers (savingsAlgorithmVRP g))
  /\ ((forall d, d ∈ destinations g -> (demand d <= vehicleCapacity g)%Q) ->
      exists routes,
        (forall fuel, nearestNeighborVRP g fuel = Some routes)
        /\ NoDup (servedCustomers routes)).
Proof.
  intros Hnd.
  assert (Hnn : forall fuel routes,
            nearestNeighborVRP g fuel = Some routes ->
            NoDup (servedCustomers routes)).
  { intros fuel routes H.
    apply (nearestNeighborVRP_invariant g Hnd fuel routes) in H
      as (dropped & _ & Hperm & _).
    assert (Hall : NoDup (servedCustomers routes ++ (nodeIndex g <$> dropped)))
      by (rewrite Hperm; apply NoDup_seq).
    now apply NoDup_app in Hall as (Hserved & _). }
  split; [exact Hnn|]. split.
  - destruct (savings_partitions g) as [_ Hp].
    change (servedCustomers (savingsAlgorithmVRP g)
            ≡ₚ seq 1 (length (destinations g))) in Hp.
    rewrite Hp. apply NoDup_seq.
  - intros Hfit.
    destruct (nearestNeighborVRP_returns_when_customers_fit g Hfit)
      as [routes Hr].
    exists routes. split; [exact Hr|]. apply (Hnn 0), Hr.
Qed.

Lemma constructors_serve_no_customer_twice_witness :
  NoDup (servedCustomers [[0; 3; 2; 0]; [0; 1; 0]])
  /\ NoDup (servedCustomers (savingsAlgorithmVRP threeCustomers)).
Proof.
  pose proof (constructors_serve_no_customer_twice threeCustomers
                (mkGlobals_distinct _ _ _ _ _)) as (Hnn & Hsav & _).
  split; [|exact Hsav].
  apply (Hnn 0). vm_compute. reflexivity.
Defined.

(** ** 2-Opt *)

Lemma movePairs_bounds (len i j : nat) :
  (i, j) ∈ movePairs len -> 1 <= i /\ i < j /\ j + 1 < len.
Proof.
  unfold movePairs. intros H.
  apply list_elem_of_bind in H as (i' & H & Hi).
  apply list_elem_of_bind in H as (j' & H & Hj).
  apply list_elem_of_singleton in H. injection H as -> ->.
  apply elem_of_seq in Hi, Hj. lia.
Qed.

Lemma movePairs_inner (route : Route) :
  Forall (inner route) (movePairs (length route)).
Proof.
  apply Forall_forall. intros [i j] H.
  apply movePairs_bounds in H. unfold inner. simpl. lia.
Qed.

Lemma reverseSegment_perm (route : Route) (i j : nat) :
  i <= j + 1 -> reverseSegment route i j ≡ₚ route.
Proof.
  intros Hij. unfold reverseSegment.
  replace (drop (j + 1) route) with (drop (j + 1 - i) (drop i route))
    by (rewrite drop_drop; f_equal; lia).
  rewrite reverse_Permutation, take_drop, take_drop. reflexivity.
Qed.

Lemma reverseSegment_head (route : Route) (i j : nat) :
  1 <= i -> head (reverseSegment route i j) = head route.
Proof.
  intros Hi. unfold reverseSegment.
  destruct i as [|i]; [lia|]. destruct route; [|reflexivity].
  now rewrite !drop_nil, !take_nil.
Qed.

Lemma reverseSegment_last (route : Route) (i j : nat) :
  j + 1 < length route -> last (reverseSegment route i j) = last route.
Proof.
  intros Hj. unfold reverseSegment.
  assert (Hd : last (drop (j + 1) route) = last route).
  { rewrite !last_lookup, lookup_drop, length_drop. f_equal. lia. }
  assert (Hs : is_Some (last (drop (j + 1) route))).
  { apply last_is_Some. intros E.
    apply (f_equal length) in E. rewrite length_drop in E. simpl in E. lia. }
  destruct Hs as [x Hx].
  rewrite !last_app, Hx. now rewrite <- Hd.
Qed.

Lemma elem_of_words (nodes : list nat) (w : Route) :
  (forall x, x ∈ w -> x ∈ nodes) -> w ∈ words nodes (length w).
Proof.
  induction w as [|a w IH]; intros Hsub; simpl.
  - apply list_elem_of_singleton. reflexivity.
  - apply list_elem_of_bind. exists a. split; [|apply Hsub; left].
    apply list_elem_of_bind. exists w. split; [apply list_elem_of_singleton; reflexivity|].
    apply IH. intros x Hx. apply Hsub. now right.
Qed.

Lemma length_words (nodes : list nat) (n : nat) :
  length (words nodes n) = length nodes ^ n.
Proof.
  induction n as [|n IH]; [reflexivity|].
  cbn [words]. rewrite Nat.pow_succ_r'.
  assert (E : forall l : list nat,
             length (a ← l; w ← words nodes n; [a :: w])
             = length l * length (words nodes n)).
  { induction l as [|a l IHl]; [reflexivity|].
    rewrite bind_cons, length_app, IHl. simpl. f_equal.
    generalize (words nodes n). intros ws.
    induction ws as [|w ws IHw]; [reflexivity|].
    rewrite bind_cons, length_app, IHw. reflexivity. }
  rewrite E, IH. reflexivity.
Qed.

Lemma permutation_in_space (route0 route : Route) :
  route ≡ₚ route0 -> route ∈ words route0 (length route0).
Proof.
  intros Hp. rewrite <- (Permutation_length Hp).
  apply elem_of_words. intros x Hx. now rewrite <- Hp.
Qed.

Section TwoOpt.

Context (g : Globals).

Lemma tryMove_cases (route : Route) (b : Best) (ij : nat * nat) :
  inner route ij ->
  tryMove g route b ij = b
  \/ improved (tryMove g route b ij) = true
     /\ (bestDistance (tryMove g route b ij) < bestDistance b)%Q
     /\ adopted g route (tryMove g route b ij).
Proof.
  intros (Hi & Hij & Hj). unfold tryMove.
  destruct (Qltb _ _) eqn:E; [right|now left].
  apply Qltb_lt in E. split; [reflexivity|]. split; [exact E|].
  split; [reflexivity|]. simpl. split; [|split].
  - now apply reverseSegment_perm.
  - now apply reverseSegment_head.
  - now apply reverseSegment_last.
Qed.

Lemma fold_tryMove_cases (route : Route) (pairs : list (nat * nat))
    (b : Best) :
  Forall (inner route) pairs ->
  fold_left (tryMove g route) pairs b = b
  \/ improved (fold_left (tryMove g route) pairs b) = true
     /\ (bestDistance (fold_left (tryMove g route) pairs b) < bestDistance b)%Q
     /\ adopted g route (fold_left (tryMove g route) pairs b).
Proof.
  revert b. induction pairs as [|ij pairs IH]; intros b Hall; [now left|].
  apply Forall_cons in Hall as [Hij Hall]. simpl.
  destruct (tryMove_cases route b ij Hij) as [->|(Himp & Hlt & Had)];
    [now apply IH|].
  right. destruct (IH (tryMove g route b ij) Hall) as [->|(Himp' & Hlt' & Had')].
  - now split.
  - split; [exact Himp'|]. split; [|exact Had'].
    eapply Qlt_trans; [exact Hlt'|exact Hlt].
Qed.

(** One pass changes nothing and reports no improvement, or adopts a
    strictly shorter rearrangement of the route. *)
Lemma twoOptPass_cases (route : Route) (b : Best) :
  twoOptPass g route b
  = {| bestRoute := bestRoute b; bestDistance := bestDistance b; improved := false |}
  \/ improved (twoOptPass g route b) = true
     /\ (bestDistance (twoOptPass g route b) < bestDistance b)%Q
     /\ adopted g route (twoOptPass g route b).
Proof.
  unfold twoOptPass.
  destruct (fold_tryMove_cases route (movePairs (length route))
              {| bestRoute := bestRoute b; bestDistance := bestDistance b;
                 improved := false |} (movePairs_inner route)) as [H|H].
  - now left.
  - now right.
Qed.

Lemma twoOptPass_keeps_head (route0 route : Route) (b : Best) :
  atLoopHead g route0 route b ->
  atLoopHead g route0 (bestRoute (twoOptPass g route b)) (twoOptPass g route b).
Proof.
  intros (Hb & Hd & Hp & Hh & Hl & Hle).
  destruct (twoOptPass_cases route b) as [->|(_ & Hlt & Hd' & Hp' & Hh' & Hl')].
  - simpl. rewrite Hb. repeat split; try assumption.
  - split; [reflexivity|]. split; [exact Hd'|].
    split; [now rewrite Hp'|]. split; [congruence|]. split; [congruence|].
    rewrite <- Hd'. rewrite Hd in Hlt. lra.
Qed.

Lemma twoOptLoop_result (route0 : Route) (fuel : nat)
    (route : Route) (b : Best) (r : Route) :
  atLoopHead g route0 route b ->
  twoOptLoop g fuel route b = Some r ->
  r ≡ₚ route0 /\ head r = head route0 /\ last r = last route0
  /\ (calculateRouteDistance g r <= calculateRouteDistance g route0)%Q.
Proof.
  revert route b. induction fuel as [|fuel IH]; intros route b Hhead H.
  - simpl in H. destruct (improved b); [discriminate|].
    injection H as <-. destruct Hhead as (-> & _ & Hp & Hh & Hl & Hle). auto.
  - cbn [twoOptLoop] in H. destruct (improved b).
    + apply IH in H; [exact H|]. now apply twoOptPass_keeps_head.
    + injection H as <-. destruct Hhead as (-> & _ & Hp & Hh & Hl & Hle). auto.
Qed.

Lemma twoOptLoop_more_fuel (fuel fuel' : nat) (route : Route)
    (b : Best) (r : Route) :
  twoOptLoop g fuel route b = Some r -> fuel <= fuel' ->
  twoOptLoop g fuel' route b = Some r.
Proof.
  revert fuel' route b. induction fuel as [|fuel IH]; intros fuel' route b H Hle.
  - simpl in H. destruct (improved b) eqn:E; [discriminate|].
    destruct fuel'; simpl; now rewrite E.
  - destruct fuel' as [|fuel']; [lia|].
    cbn [twoOptLoop] in *. destruct (improved b); [|exact H].
    apply IH; [exact H|lia].
Qed.

(** A strictly shorter route of the space leaves strictly fewer shorter
    routes. *)
Lemma shorterRoutes_decrease (route0 route : Route) (d : Q) :
  route ≡ₚ route0 ->
  (calculateRouteDistance g route < d)%Q ->
  length (shorterRoutes g route0 (calculateRouteDistance g route))
  < length (shorterRoutes g route0 d).
Proof.
  intros Hp Hlt. unfold shorterRoutes.
  set (U := words route0 (length route0)).
  set (d' := calculateRouteDistance g route) in *.
  rewrite <- (list_filter_filter_l
                (fun w => Qltb (calculateRouteDistance g w) d')
                (fun w => Qltb (calculateRouteDistance g w) d) U).
  - apply (length_filter_lt _ _ route).
    + apply list_elem_of_filter. split.
      * apply Is_true_true, Qltb_lt. exact Hlt.
      * now apply permutation_in_space.
    + intros H. apply Is_true_true, Qltb_lt in H. fold d' in H.
      revert H. apply Qlt_irrefl.
  - intros w H. apply Is_true_true. apply Is_true_true in H.
    apply Qltb_lt. apply Qltb_lt in H. eapply Qlt_trans; [exact H|exact Hlt].
Qed.

Lemma twoOptLoop_returns (route0 : Route) (fuel : nat)
    (route : Route) (b : Best) :
  atLoopHead g route0 route b ->
  length (shorterRoutes g route0 (calculateRouteDistance g route)) < fuel ->
  is_Some (twoOptLoop g fuel route b).
Proof.
  revert route b. induction fuel as [|fuel IH]; intros route b Hhead Hm; [lia|].
  cbn [twoOptLoop]. destruct (improved b); [|now eexists].
  pose proof (twoOptPass_keeps_head route0 route b Hhead) as Hhead'.
  destruct (twoOptPass_cases route b) as [E|(Himp & Hlt & Hd' & Hp' & _)].
  - rewrite E. simpl. destruct fuel; simpl; now eexists.
  - apply IH; [exact Hhead'|].
    destruct Hhead as (_ & Hd & Hp & _).
    assert (Hdec : length (shorterRoutes g route0
                     (calculateRouteDistance g (bestRoute (twoOptPass g route b))))
                   < length (shorterRoutes g route0 (calculateRouteDistance g route))).
    { apply shorterRoutes_decrease.
      - now rewrite Hp'.
      - rewrite <- Hd', <- Hd. exact Hlt. }
    lia.
Qed.

Lemma atLoopHead_initial (route : Route) :
  atLoopHead g route route
    {| bestRoute := route;
       bestDistance := calculateRouteDistance g route;
       improved := true |}.
Proof. repeat split; try reflexivity. apply Qle_refl. Qed.

(** The improver returns, within [length route ^ length route] passes after
    the first, a rearrangement of the route that is no longer. *)
Lemma twoOptImprovement_returns (route : Route) :
  exists r,
    (forall fuel, length route ^ length route < fuel ->
       twoOptImprovement g fuel route = Some r)
    /\ (forall fuel r', twoOptImprovement g fuel route = Some r' -> r' = r)
    /\ r ≡ₚ route /\ head r = head route /\ last r = last route
    /\ (calculateRouteDistance g r <= calculateRouteDistance g route)%Q.
Proof.
  set (bound := S (length route ^ length route)).
  assert (Hb : length (shorterRoutes g route (calculateRouteDistance g route)) < bound).
  { unfold bound, shorterRoutes.
    pose proof (length_filter
                  (fun w => Qltb (calculateRouteDistance g w)
                              (calculateRouteDistance g route))
                  (words route (length route))) as H.
    rewrite length_words in H. lia. }
  destruct (twoOptLoop_returns route bound route _ (atLoopHead_initial route) Hb)
    as [r Hr].
  exists r. split; [|split].
  - intros fuel Hfuel. unfold twoOptImprovement.
    apply (twoOptLoop_more_fuel bound); [exact Hr|unfold bound; lia].
  - intros fuel r' Hr'. unfold twoOptImprovement in Hr'.
    pose proof (twoOptLoop_more_fuel fuel (fuel `max` bound) _ _ _ Hr'
                  (Nat.le_max_l _ _)) as H1.
    pose proof (twoOptLoop_more_fuel bound (fuel `max` bound) _ _ _ Hr
                  (Nat.le_max_r _ _)) as H2.
    congruence.
  - apply (twoOptLoop_result route bound route _ r (atLoopHead_initial route) Hr).
Qed.

End TwoOpt.

Example two_opt_scenario :
  twoOptImprovement crossing 2 [0; 1; 2; 3; 0] = Some [0; 2; 1; 3; 0]
  /\ (calculateRouteDistance crossing [0; 1; 2; 3; 0]%nat == 20)%Q
  /\ (calculateRouteDistance crossing [0; 2; 1; 3; 0]%nat == 4)%Q.
Proof. repeat split; vm_compute; reflexivity. Qed.

(** C4: [twoOptImprovement] returns a route whose distance is at most that
    of the input, whose nodes are those of the input with the same
    multiplicities, and whose first and last elements are those of the
    input. *)
Theorem twoOptImprovement_contract (g : Globals) (route : Route) :
  exists r,
    (forall fuel, length route ^ length route < fuel ->
       twoOptImprovement g fuel route = Some r)
    /\ (forall fuel r', twoOptImprovement g fuel route = Some r' -> r' = r)
    /\ (calculateRouteDistance g r <= calculateRouteDistance g route)%Q
    /\ r ≡ₚ route
    /\ head r = head route
    /\ last r = last route.
Proof.
  destruct (twoOptImprovement_returns g route) as (r & H1 & H2 & H3 & H4 & H5 & H6).
  exists r. auto 10.
Qed.

(** C9: [twoOptImprovement] terminates: the loop returns after at most
    [length route ^ length route + 1] passes, because a pass that reports an
    improvement has adopted a rearrangement of the route with a strictly
    smaller distance, and the lists of [length route] nodes of the route are
    finitely many. *)
Theorem twoOptImprovement_terminates (g : Globals) (route : Route) :
  (exists r, forall fuel, length route ^ length route < fuel ->
     twoOptImprovement g fuel route = Some r)
  /\ (forall cur b,
        improved (twoOptPass g cur b) = true ->
        (bestDistance (twoOptPass g cur b) < bestDistance b)%Q
        /\ bestRoute (twoOptPass g cur b) ≡ₚ cur)
  /\ (forall cur, cur ≡ₚ route -> cur ∈ words route (length route))
  /\ length (words route (length route)) = length route ^ length route.
Proof.
  split; [|split; [|split]].
  - destruct (twoOptImprovement_returns g route) as (r & H1 & _). now exists r.
  - intros cur b Himp.
    destruct (twoOptPass_cases g cur b) as [E|(_ & Hlt & _ & Hp & _)].
    + rewrite E in Himp. discriminate.
    + now split.
  - intros cur. apply permutation_in_space.
  - apply length_words.
Qed.

Lemma twoOptImprovement_terminates_witness :
  (exists r, forall fuel, 5 ^ 5 < fuel ->
     twoOptImprovement crossing fuel [0; 1; 2; 3; 0] = Some r)
  /\ (bestDistance
        (twoOptPass crossing [0; 1; 2; 3; 0]%nat
           {| bestRoute := [0; 1; 2; 3; 0]%nat; bestDistance := 20; improved := true |})
      < 20)%Q.
Proof.
  pose proof (twoOptImprovement_terminates crossing [0; 1; 2; 3; 0]) as (H1 & H2 & _).
  split; [exact H1|].
  apply (H2 [0; 1; 2; 3; 0]
           {| bestRoute := [0; 1; 2; 3; 0]; bestDistance := 20%Q; improved := true |}).
  vm_compute. reflexivity.
Defined.

(** ** Nearest Neighbor: the choice of the next customer *)

Section NearestChoice.

Context (g : Globals) (currentPos : nat) (currentLoad : Q).

Lemma nearestAmong_step (seen : list Destination) (u : Destination)
    (nearest : option (nat * Q)) :
  nearestAmong g currentPos currentLoad seen nearest ->
  nearestAmong g currentPos currentLoad (seen ++ [u])
    (if match nearest with
        | None => true
        | Some (_, nearestDist) =>
            Qltb (distanceMatrix g currentPos (nodeIndex g u)) nearestDist
        end && Qle_bool (currentLoad + demand u) (vehicleCapacity g)
     then Some (length seen, distanceMatrix g currentPos (nodeIndex g u))
     else nearest).
Proof.
  intros Hopt.
  destruct (Qle_bool (currentLoad + demand u) (vehicleCapacity g)) eqn:Efit.
  - apply Qle_bool_iff in Efit.
    assert (Hnew :
              (forall j v, seen !! j = Some v ->
                 (currentLoad + demand v <= vehicleCapacity g)%Q ->
                 (distanceMatrix g currentPos (nodeIndex g u)
                  < distanceMatrix g currentPos (nodeIndex g v))%Q) ->
              nearestAmong g currentPos currentLoad (seen ++ [u])
                (Some (length seen, distanceMatrix g currentPos (nodeIndex g u)))).
    { intros Hlt. exists u. split; [apply list_lookup_middle; reflexivity|].
      split; [exact Efit|]. split; [reflexivity|].
      intros j v Hj Hv.
      destruct (decide (j < length seen)) as [Hjs|Hjs].
      - rewrite lookup_app_l in Hj by exact Hjs.
        pose proof (Hlt j v Hj Hv). split; [lra|]. intros _. assumption.
      - apply lookup_lt_Some in Hj as Hjl. rewrite length_app in Hjl. simpl in Hjl.
        assert (j = length seen) as -> by lia.
        rewrite list_lookup_middle in Hj by reflexivity. injection Hj as <-.
        split; [lra|lia]. }
    destruct nearest as [[idx dist]|]; simpl.
    + destruct (Qltb _ dist) eqn:Ecl; simpl.
      * apply Qltb_lt in Ecl. apply Hnew.
        destruct Hopt as (w & _ & _ & _ & Hall).
        intros j v Hj Hv. destruct (Hall j v Hj Hv) as [Hle _]. lra.
      * apply Qltb_ge in Ecl.
        destruct Hopt as (w & Hw & Hwfit & Hd & Hall).
        exists w. split; [now apply lookup_app_l_Some|].
        split; [exact Hwfit|]. split; [exact Hd|].
        intros j v Hj Hv.
        destruct (decide (j < length seen)) as [Hjs|Hjs].
        -- rewrite lookup_app_l in Hj by exact Hjs. now apply Hall.
        -- apply lookup_lt_Some in Hj as Hjl. rewrite length_app in Hjl.
           simpl in Hjl. assert (j = length seen) as -> by lia.
           rewrite list_lookup_middle in Hj by reflexivity. injection Hj as <-.
           split; [exact Ecl|]. intros Hlt. apply lookup_lt_Some in Hw. lia.
    + apply Hnew. intros j v Hj Hv. exfalso.
      simpl in Hopt. rewrite Forall_forall in Hopt.
      apply (Hopt v); [now apply (list_elem_of_lookup_2 _ j)|exact Hv].
  - rewrite andb_false_r.
    assert (Hu : ~ (currentLoad + demand u <= vehicleCapacity g)%Q).
    { intros H. apply Qle_bool_iff in H. congruence. }
    destruct nearest as [[idx dist]|]; simpl in *.
    + destruct Hopt as (w & Hw & Hwfit & Hd & Hall).
      exists w. split; [now apply lookup_app_l_Some|].
      split; [exact Hwfit|]. split; [exact Hd|].
      intros j v Hj Hv.
      destruct (decide (j < length seen)) as [Hjs|Hjs].
      * rewrite lookup_app_l in Hj by exact Hjs. now apply Hall.
      * apply lookup_lt_Some in Hj as Hjl. rewrite length_app in Hjl.
        simpl in Hjl. assert (j = length seen) as -> by lia.
        rewrite list_lookup_middle in Hj by reflexivity. injection Hj as <-.
        contradiction.
    + apply Forall_app. split; [exact Hopt|]. now apply Forall_singleton.
Qed.

Lemma scanNearest_nearestAmong (seen us : list Destination)
    (nearest : option (nat * Q)) :
  nearestAmong g currentPos currentLoad seen nearest ->
  nearestAmong g currentPos currentLoad (seen ++ us)
    (scanNearest g currentPos currentLoad (length seen) us nearest).
Proof.
  revert seen nearest. induction us as [|u us IH]; intros seen nearest Hopt.
  - rewrite app_nil_r. exact Hopt.
  - cbn [scanNearest].
    replace (seen ++ u :: us) with ((seen ++ [u]) ++ us)
      by (now rewrite <- app_assoc).
    replace (S (length seen)) with (length (seen ++ [u]))
      by (rewrite length_app; simpl; lia).
    apply IH. now apply nearestAmong_step.
Qed.

End NearestChoice.

(** X1: the inner scan of [nearestNeighborVRP] selects nothing exactly when
    no unvisited customer fits the remaining capacity, and otherwise selects
    a fitting customer whose distance from the current position is minimal
    among the fitting customers, the first such customer in the order of
    [unvisited]. *)
Theorem scanNearest_selects_nearest_fitting (g : Globals) (currentPos : nat)
    (currentLoad : Q) (unvisited : list Destination) :
  match scanNearest g currentPos currentLoad 0 unvisited None with
  | None =>
      Forall (fun u => ~ (currentLoad + demand u <= vehicleCapacity g)%Q)
        unvisited
  | Some (idx, dist) =>
      exists u,
        unvisited !! idx = Some u
        /\ (currentLoad + demand u <= vehicleCapacity g)%Q
        /\ dist = distanceMatrix g currentPos (nodeIndex g u)
        /\ forall j v,
             unvisited !! j = Some v ->
             (currentLoad + demand v <= vehicleCapacity g)%Q ->
             (dist <= distanceMatrix g currentPos (nodeIndex g v))%Q
             /\ (j < idx ->
                 (dist < distanceMatrix g currentPos (nodeIndex g v))%Q)
  end.
Proof.
  apply (scanNearest_nearestAmong g currentPos currentLoad [] unvisited None).
  constructor.
Qed.

(** ** Nearest Neighbor: the second vehicle loop is never useful *)

Section VehicleLoops.

Context (g : Globals).

(** A vehicle takes a customer or none fits an empty vehicle. *)
Lemma buildRoute_serves_or_none_fits (unvisited : list Destination) :
  unvisited <> [] ->
  2 < length (buildRoute g unvisited).1
  \/ Forall (fun u => ~ (0 + demand u <= vehicleCapacity g)%Q) unvisited.
Proof.
  intros Hne. destruct unvisited as [|u us]; [contradiction|].
  pose proof (scanNearest_nearestAmong g 0 0%Q [] (u :: us) None
                (Forall_nil_2 _)) as Hscan.
  unfold nearestAmong in Hscan.
  change ([] ++ u :: us) with (u :: us) in Hscan.
  change (length (@nil Destination)) with 0 in Hscan.
  destruct (scanNearest g 0 0%Q 0 (u :: us) None) as [[idx dist]|] eqn:Es;
    [left|now right].
  destruct Hscan as (u' & Hu' & _).
  unfold buildRoute. change (length (u :: us)) with (S (length us)).
  rewrite (fillRoute_step g _ u us [0] 0 0%Q idx dist u' Es Hu').
  pose proof (fillRoute_length g (length us) (delete idx (u :: us))
                ([0] ++ [nodeIndex g u']) (nodeIndex g u') (0 + demand u')%Q) as Hl.
  destruct (fillRoute g _ _ _ _ _) as [r rest]. simpl in Hl. simpl.
  rewrite length_app. simpl. lia.
Qed.

Lemma vehicleLoop_none_fits (k : nat) (unvisited : list Destination)
    (vehicleRoutes : list Route) :
  Forall (fun u => ~ (0 + demand u <= vehicleCapacity g)%Q) unvisited ->
  vehicleLoop g k unvisited vehicleRoutes = (vehicleRoutes, unvisited).
Proof.
  intros Hall. induction k as [|k IH]; [now destruct unvisited|].
  destruct unvisited as [|u us]; [reflexivity|].
  cbn [vehicleLoop]. rewrite (buildRoute_none_fits g (u :: us) Hall). exact IH.
Qed.

Lemma length_pushIfServed (vehicleRoutes : list Route) (r : Route) :
  length (pushIfServed vehicleRoutes r)
  = length vehicleRoutes + (if 2 <? length r then 1 else 0).
Proof.
  unfold pushIfServed. destruct (2 <? length r); [|lia].
  rewrite length_app. reflexivity.
Qed.

(** After [k] vehicles: at most [k] routes were pushed, and nothing is left
    unvisited, or [k] routes were pushed, or none of the customers left fits
    an empty vehicle. *)
Lemma vehicleLoop_outcome (k : nat) (unvisited : list Destination)
    (vehicleRoutes : list Route) :
  length (vehicleLoop g k unvisited vehicleRoutes).1 <= length vehicleRoutes + k
  /\ ((vehicleLoop g k unvisited vehicleRoutes).2 = []
      \/ length (vehicleLoop g k unvisited vehicleRoutes).1
         = length vehicleRoutes + k
      \/ Forall (fun u => ~ (0 + demand u <= vehicleCapacity g)%Q)
           (vehicleLoop g k unvisited vehicleRoutes).2).
Proof.
  revert unvisited vehicleRoutes.
  induction k as [|k IH]; intros unvisited vehicleRoutes.
  - split; [destruct unvisited; simpl; lia|].
    right. left. destruct unvisited; simpl; lia.
  - destruct unvisited as [|u us]; [split; [simpl; lia|now left]|].
    destruct (buildRoute_serves_or_none_fits (u :: us) ltac:(discriminate))
      as [Hserved|Hnone].
    + cbn [vehicleLoop].
      destruct (buildRoute g (u :: us)) as [r unvisited']. simpl in Hserved.
      destruct (IH unvisited' (pushIfServed vehicleRoutes r)) as [IH1 IH2].
      rewrite length_pushIfServed in IH1, IH2.
      apply Nat.ltb_lt in Hserved. rewrite Hserved in IH1, IH2.
      split; [lia|].
      destruct IH2 as [H|[H|H]]; [now left|right; left; lia|now right; right].
    + rewrite (vehicleLoop_none_fits (S k) (u :: us) vehicleRoutes Hnone).
      simpl. split; [lia|]. now right; right.
Qed.

Lemma extraLoop_not_entered (fuel : nat) (unvisited : list Destination)
    (vehicleRoutes : list Route) :
  unvisited = [] \/ numVehicles g <= length vehicleRoutes ->
  extraLoop g fuel unvisited vehicleRoutes = Some vehicleRoutes.
Proof.
  intros H.
  assert (E : bool_decide (unvisited <> [])
              && (length vehicleRoutes <? numVehicles g) = false).
  { destruct H as [->|H].
    - rewrite bool_decide_eq_false_2 by (intros Hne; now apply Hne). reflexivity.
    - apply andb_false_iff. right. now apply Nat.ltb_ge. }
  destruct fuel; simpl; rewrite E; reflexivity.
Qed.

(** The two ways a call of [nearestNeighborVRP] can go. *)
Lemma nearestNeighborVRP_cases :
  (forall fuel,
     nearestNeighborVRP g fuel
     = Some (vehicleLoop g (numVehicles g) (destinations g) []).1)
  /\ length (vehicleLoop g (numVehicles g) (destinations g) []).1
     <= numVehicles g
  /\ ((vehicleLoop g (numVehicles g) (destinations g) []).2 = []
      \/ length (vehicleLoop g (numVehicles g) (destinations g) []).1
         = numVehicles g)
  \/ (forall fuel, nearestNeighborVRP g fuel = None).
Proof.
  unfold nearestNeighborVRP.
  destruct (vehicleLoop_outcome (numVehicles g) (destinations g) [])
    as [Hlen Hcases].
  destruct (vehicleLoop g _ _ _) as [vehicleRoutes unvisited].
  simpl in Hlen, Hcases. simpl.
  assert (Hret : unvisited = [] \/ length vehicleRoutes = numVehicles g ->
            (forall fuel, extraLoop g fuel unvisited vehicleRoutes
                          = Some vehicleRoutes)
            /\ length vehicleRoutes <= numVehicles g
            /\ (unvisited = [] \/ length vehicleRoutes = numVehicles g)).
  { intros H. split; [|split; [exact Hlen|exact H]].
    intros fuel. apply extraLoop_not_entered.
    destruct H as [H|H]; [now left|right; lia]. }
  destruct Hcases as [H|[H|H]]; [left; apply Hret; now left
                                |left; apply Hret; now right|].
  destruct (decide (unvisited = [])) as [He|Hne];
    [left; apply Hret; now left|].
  destruct (decide (length vehicleRoutes < numVehicles g)) as [Hlt|Hge];
    [|left; apply Hret; right; lia].
  right. intros fuel. now apply extraLoop_never_returns.
Qed.

End VehicleLoops.

(** X2: a call of [nearestNeighborVRP] returns without a single iteration of
    its second vehicle loop, with at most [numVehicles] routes, or it never
    returns: the second loop never adds a route. *)
Theorem nearestNeighborVRP_returns_at_once_or_never (g : Globals) :
  (exists routes,
     (forall fuel, nearestNeighborVRP g fuel = Some routes)
     /\ routes = (vehicleLoop g (numVehicles g) (destinations g) []).1
     /\ length routes <= numVehicles g)
  \/ (forall fuel, nearestNeighborVRP g fuel = None).
Proof.
  destruct (nearestNeighborVRP_cases g) as [(Hret & Hlen & _)|Hnever];
    [left|now right].
  eexists. split; [exact Hret|]. split; [reflexivity|exact Hlen].
Qed.

(** X3: when [nearestNeighborVRP] returns, every customer is in a route or
    all [numVehicles] vehicles have a route: a customer is dropped only when
    the fleet is used up. *)
Theorem nearestNeighborVRP_serves_all_or_uses_fleet (g : Globals) (fuel : nat)
    (routes : list Route) :
  distinctObjects g ->
  nearestNeighborVRP g fuel = Some routes ->
  servedCustomers routes ≡ₚ seq 1 (length (destinations g))
  \/ length routes = numVehicles g.
Proof.
  intros Hnd Hr.
  destruct (nearestNeighborVRP_cases g) as [(Hret & _ & Hcases)|Hnever];
    [|rewrite Hnever in Hr; discriminate].
  rewrite Hret in Hr. injection Hr as <-.
  destruct Hcases as [He|Hfull]; [left|now right].
  pose proof (vehicleLoop_invariant g Hnd (numVehicles g) (destinations g) []
                (nnInvariant_initial g Hnd)) as (_ & Hperm & _).
  rewrite He in Hperm. simpl in Hperm. now rewrite app_nil_r in Hperm.
Qed.

Lemma nearestNeighborVRP_serves_all_or_uses_fleet_witness :
  servedCustomers [[0; 3; 2; 0]; [0; 1; 0]] ≡ₚ seq 1 3
  \/ length [[0; 3; 2; 0]; [0; 1; 0]] = 2.
Proof.
  apply (nearestNeighborVRP_serves_all_or_uses_fleet threeCustomers 0
           [[0; 3; 2; 0]; [0; 1; 0]] (mkGlobals_distinct _ _ _ _ _)).
  vm_compute. reflexivity.
Defined.

(** ** The shape of the routes of the constructors *)

Lemma servedRoute_body (r : Route) :
  servedRoute r <->
  exists body, r = 0 :: body ++ [0] /\ body <> [] /\ Forall (fun k => k <> 0) body.
Proof.
  unfold servedRoute, framed. split.
  - intros [Hf Hne]. exists (customersOf r). split; [exact Hf|].
    split; [exact Hne|]. apply Forall_forall. intros k Hk.
    now apply elem_of_customersOf in Hk as [Hk _].
  - intros (body & -> & Hne & Hall).
    assert (E : customersOf (0 :: body ++ [0]) = body).
    { rewrite customersOf_depot_framed. clear Hne.
      induction body as [|k body IH]; [reflexivity|].
      apply Forall_cons in Hall as [Hk Hall].
      rewrite customersOf_cons. destruct (decide (k <> 0)); [|contradiction].
      now rewrite IH. }
    rewrite E. now split.
Qed.

Lemma nonEmptyRoutes_served (routes : list Route) :
  Forall servedRoute routes -> nonEmptyRoutes routes = length routes.
Proof.
  unfold nonEmptyRoutes. induction 1 as [|r routes [_ Hr] _ IH]; [reflexivity|].
  rewrite filter_cons_True by exact Hr. simpl. now rewrite IH.
Qed.

Section ServedRoutes.

Context (g : Globals).

Lemma mergeStep_served (rs : list RouteInfo) (s : Saving) :
  Forall (fun r => servedRoute (route r)) rs ->
  Forall (fun r => servedRoute (route r)) (mergeStep g rs s).
Proof.
  intros Hrs.
  destruct (mergeStep_cases g rs s) as [->|(rI & rJ & rest & Hp & -> & _)];
    [exact Hrs|].
  rewrite Hp in Hrs. apply Forall_cons in Hrs as [[HfI HnI] Hrs].
  apply Forall_cons in Hrs as [[HfJ HnJ] Hrs].
  apply Forall_app. split; [exact Hrs|]. apply Forall_singleton.
  destruct (framed_merge _ _ HfI HfJ) as [E Hm].
  split.
  - unfold framed. simpl. rewrite Hm. exact E.
  - simpl. rewrite Hm. intros Hnil. apply app_eq_nil in Hnil as [Hnil _].
    contradiction.
Qed.

Lemma initialRoutes_served :
  Forall (fun r => servedRoute (route r)) (initialRoutes g).
Proof.
  apply Forall_lookup. intros i r Hi. unfold initialRoutes in Hi.
  rewrite list_lookup_imap in Hi.
  destruct (destinations g !! i) as [d|]; [|discriminate].
  injection Hi as <-. rewrite Nat.add_1_r. simpl. split; [reflexivity|discriminate].
Qed.

Lemma savings_served : Forall servedRoute (savingsAlgorithmVRP g).
Proof.
  unfold savingsAlgorithmVRP. apply Forall_fmap.
  apply (mergeLoop_invariant g (Forall (fun r => servedRoute (route r)))).
  - intros rs s. apply mergeStep_served.
  - apply initialRoutes_served.
Qed.

Hypothesis Hnd : distinctObjects g.

Lemma buildRoute_served (vehicleRoutes : list Route)
    (unvisited : list Destination) (r : Route) (unvisited' : list Destination) :
  unvisited ⊆ destinations g ->
  Forall servedRoute vehicleRoutes ->
  buildRoute g unvisited = (r, unvisited') ->
  Forall servedRoute (pushIfServed vehicleRoutes r).
Proof.
  intros Hsub Hall Hb.
  apply buildRoute_spec in Hb as (taken & -> & Hp & _).
  assert (Htaken : taken ⊆ destinations g).
  { intros x Hx. apply Hsub. rewrite Hp. apply elem_of_app. now left. }
  destruct (taken_metrics g Hnd taken Htaken) as [_ Hcust].
  unfold pushIfServed.
  destruct (2 <? length (0 :: (nodeIndex g <$> taken) ++ [0])) eqn:E;
    [|exact Hall].
  apply Forall_app. split; [exact Hall|]. apply Forall_singleton.
  unfold servedRoute, framed. rewrite customersOf_depot_framed, Hcust.
  split; [reflexivity|]. intros Hnil. rewrite Hnil in E. discriminate.
Qed.

Lemma vehicleLoop_served (k : nat) (unvisited : list Destination)
    (vehicleRoutes : list Route) :
  nnInvariant g vehicleRoutes unvisited ->
  Forall servedRoute vehicleRoutes ->
  Forall servedRoute (vehicleLoop g k unvisited vehicleRoutes).1.
Proof.
  revert unvisited vehicleRoutes.
  induction k as [|k IH]; intros unvisited vehicleRoutes Hinv Hall.
  - now destruct unvisited.
  - destruct unvisited as [|u0 us]; [exact Hall|].
    cbn [vehicleLoop].
    destruct (buildRoute g (u0 :: us)) as [r unvisited'] eqn:Eb.
    apply IH.
    + now apply (buildRoute_invariant g Hnd _ (u0 :: us)).
    + apply (buildRoute_served _ (u0 :: us) r unvisited'); [apply Hinv|exact Hall|exact Eb].
Qed.

Lemma nearestNeighborVRP_served (fuel : nat) (routes : list Route) :
  nearestNeighborVRP g fuel = Some routes -> Forall servedRoute routes.
Proof.
  intros Hr.
  destruct (nearestNeighborVRP_cases g) as [(Hret & _)|Hnever];
    [|rewrite Hnever in Hr; discriminate].
  rewrite Hret in Hr. injection Hr as <-.
  apply vehicleLoop_served; [now apply nnInvariant_initial|constructor].
Qed.

End ServedRoutes.

(** X4: every route returned by [nearestNeighborVRP] or by
    [savingsAlgorithmVRP] starts at the depot, ends at the depot and visits
    at least one customer and no depot in between. *)
Theorem constructors_return_depot_framed_routes (g : Globals) :
  distinctObjects g ->
  (forall fuel routes,
     nearestNeighborVRP g fuel = Some routes ->
     Forall (fun r => exists body, r = 0 :: body ++ [0] /\ body <> []
                                   /\ Forall (fun k => k <> 0) body) routes)
  /\ Forall (fun r => exists body, r = 0 :: body ++ [0] /\ body <> []
                                   /\ Forall (fun k => k <> 0) body)
       (savingsAlgorithmVRP g).
Proof.
  intros Hnd. split.
  - intros fuel routes Hr.
    eapply Forall_impl; [apply (nearestNeighborVRP_served g Hnd fuel routes Hr)|].
    intros r. apply servedRoute_body.
  - eapply Forall_impl; [apply savings_served|].
    intros r. apply servedRoute_body.
Qed.

Lemma constructors_return_depot_framed_routes_witness :
  Forall (fun r => exists body, r = 0 :: body ++ [0] /\ body <> []
                                /\ Forall (fun k => k <> 0) body)
    [[0; 3; 2; 0]; [0; 1; 0]].
Proof.
  apply (proj1 (constructors_return_depot_framed_routes threeCustomers
                  (mkGlobals_distinct _ _ _ _ _)) 0).
  vm_compute. reflexivity.
Defined.

(** X5: for the routes of either constructor the [vehicles] field set by
    [evaluateSolution] is the number of routes that serve a customer: the
    constructors hand the evaluator no empty route. *)
Theorem evaluateSolution_vehicles_of_constructors (g : Globals)
    (name : string) (colorIndex : nat) :
  distinctObjects g ->
  (forall fuel routes,
     nearestNeighborVRP g fuel = Some routes ->
     vehicles (evaluateSolution g routes name colorIndex) = nonEmptyRoutes routes)
  /\ vehicles (evaluateSolution g (savingsAlgorithmVRP g) name colorIndex)
     = nonEmptyRoutes (savingsAlgorithmVRP g).
Proof.
  intros Hnd. split.
  - intros fuel routes Hr. rewrite evaluateSolution_vehicles.
    symmetry. apply nonEmptyRoutes_served.
    apply (nearestNeighborVRP_served g Hnd fuel routes Hr).
  - rewrite evaluateSolution_vehicles. symmetry.
    apply nonEmptyRoutes_served, savings_served.
Qed.

Lemma evaluateSolution_vehicles_of_constructors_witness :
  vehicles (evaluateSolution threeCustomers [[0; 3; 2; 0]; [0; 1; 0]]
              "Vecino Más Cercano" 0)
  = nonEmptyRoutes [[0; 3; 2; 0]; [0; 1; 0]].
Proof.
  apply (proj1 (evaluateSolution_vehicles_of_constructors threeCustomers
                  "Vecino Más Cercano" 0 (mkGlobals_distinct _ _ _ _ _)) 0).
  vm_compute. reflexivity.
Defined.

(** ** 2-Opt: local optimum, and its use in [solveVRP] *)

Lemma movePairs_complete (len i j : nat) :
  1 <= i -> i < j -> j + 1 < len -> (i, j) ∈ movePairs len.
Proof.
  intros Hi Hij Hj. unfold movePairs.
  apply list_elem_of_bind. exists i. split; [|apply elem_of_seq; lia].
  apply list_elem_of_bind. exists j. split; [|apply elem_of_seq; lia].
  now apply list_elem_of_singleton.
Qed.

Lemma movePairs_short (len : nat) : len <= 3 -> movePairs len = [].
Proof.
  intros H. unfold movePairs.
  replace (len - 2 - 1) with 0 by lia. reflexivity.
Qed.

Section LocalOptimum.

Context (g : Globals).

Lemma fold_tryMove_improved (route : Route) (pairs : list (nat * nat)) (b : Best) :
  improved b = true -> improved (fold_left (tryMove g route) pairs b) = true.
Proof.
  revert b. induction pairs as [|ij pairs IH]; intros b Hb; [exact Hb|].
  simpl. apply IH. unfold tryMove. now destruct (Qltb _ _).
Qed.

(** A pass that reports no improvement has tried every pair in vain. *)
Lemma fold_tryMove_unimproved (route : Route) (pairs : list (nat * nat)) (b : Best) :
  improved (fold_left (tryMove g route) pairs b) = false <->
  improved b = false
  /\ Forall (fun ij => (bestDistance b
                        <= calculateRouteDistance g (reverseSegment route ij.1 ij.2))%Q)
       pairs.
Proof.
  revert b. induction pairs as [|ij pairs IH]; intros b; simpl.
  - split; [intros H; split; [exact H|constructor]|now intros [H _]].
  - rewrite IH. unfold tryMove.
    destruct (Qltb (calculateRouteDistance g (reverseSegment route ij.1 ij.2))
                (bestDistance b)) eqn:E; simpl.
    + apply Qltb_lt in E. split; [intros [H _]; discriminate|].
      intros [_ Hall]. apply Forall_cons in Hall as [Hij _]. exfalso. lra.
    + apply Qltb_ge in E. rewrite Forall_cons. tauto.
Qed.

Lemma twoOptPass_unimproved (route : Route) (b : Best) :
  bestDistance b = calculateRouteDistance g route ->
  improved (twoOptPass g route b) = false <-> localOptimum g route.
Proof.
  intros Hd. unfold twoOptPass. rewrite fold_tryMove_unimproved. simpl.
  rewrite Hd, Forall_forall. unfold localOptimum. split.
  - intros [_ Hall] i j Hi Hij Hj.
    apply (Hall (i, j)). now apply movePairs_complete.
  - intros Hopt. split; [reflexivity|]. intros [i j] Hin.
    apply movePairs_bounds in Hin. simpl. apply Hopt; lia.
Qed.

Lemma twoOptLoop_localOptimum (route0 : Route) (fuel : nat) (route : Route)
    (b : Best) (r : Route) :
  atLoopHead g route0 route b ->
  (improved b = false -> localOptimum g route) ->
  twoOptLoop g fuel route b = Some r ->
  localOptimum g r.
Proof.
  revert route b. induction fuel as [|fuel IH]; intros route b Hhead Hopt H.
  - simpl in H. destruct (improved b); [discriminate|].
    injection H as <-. destruct Hhead as (-> & _). now apply Hopt.
  - cbn [twoOptLoop] in H. destruct (improved b) eqn:Eb.
    + apply IH in H; [exact H|now apply twoOptPass_keeps_head|].
      intros Hun.
      assert (Hd : bestDistance b = calculateRouteDistance g route)
        by apply Hhead.
      pose proof (proj1 (twoOptPass_unimproved route b Hd) Hun) as Hloc.
      destruct (twoOptPass_cases g route b) as [E|(Himp & _)];
        [|congruence].
      rewrite E. simpl. destruct Hhead as (-> & _). exact Hloc.
    + injection H as <-. destruct Hhead as (-> & _). now apply Hopt.
Qed.

(** On a local optimum one pass is enough. *)
Lemma twoOptImprovement_fixed (fuel : nat) (route : Route) :
  localOptimum g route -> twoOptImprovement g (S fuel) route = Some route.
Proof.
  intros Hopt. unfold twoOptImprovement. cbn [twoOptLoop]. simpl improved.
  pose proof (proj2 (twoOptPass_unimproved route
                       {| bestRoute := route;
                          bestDistance := calculateRouteDistance g route;
                          improved := true |} eq_refl) Hopt) as Hun.
  destruct (twoOptPass_cases g route
              {| bestRoute := route;
                 bestDistance := calculateRouteDistance g route;
                 improved := true |}) as [E|(Himp & _)]; [|congruence].
  rewrite E. simpl. destruct fuel; reflexivity.
Qed.

Lemma localOptimum_short (route : Route) : length route <= 3 -> localOptimum g route.
Proof. intros Hlen i j Hi Hij Hj. lia. Qed.

Lemma routeDemand_perm (r r' : Route) :
  r ≡ₚ r' -> (routeDemand g r == routeDemand g r')%Q.
Proof.
  unfold routeDemand. induction 1; simpl; lra.
Qed.

Lemma twoOptImprovement_sameService (fuel : nat) (r r' : Route) :
  twoOptImprovement g fuel r = Some r' -> sameService g r r'.
Proof.
  intros H.
  destruct (twoOptImprovement_returns g r) as (r0 & _ & Huniq & Hp & Hh & Hl & Hd).
  apply Huniq in H as ->.
  split; [exact Hp|]. split; [exact Hh|]. split; [exact Hl|].
  split; [now apply routeDemand_perm|exact Hd].
Qed.

Lemma improveAll_sameService (fuel : nat) (ui : Controls)
    (routes routes' : list Route) :
  improveAll g fuel ui routes = Some routes' ->
  Forall2 (sameService g) routes routes'.
Proof.
  unfold improveAll. destruct (use2Opt ui).
  - intros H. apply mapM_Some in H.
    eapply Forall2_impl; [exact H|].
    intros r r'. apply twoOptImprovement_sameService.
  - intros H. injection H as <-. apply Forall_Forall2_diag.
    apply Forall_forall. intros r _.
    repeat split; try reflexivity. apply Qle_refl.
Qed.

Lemma sameService_sumOfDistances (routes routes' : list Route) :
  Forall2 (sameService g) routes routes' ->
  (sumOfDistances g routes' <= sumOfDistances g routes)%Q.
Proof.
  unfold sumOfDistances.
  induction 1 as [|r r' routes routes' (_ & _ & _ & _ & Hd) _ IH]; simpl; lra.
Qed.

Lemma sameService_servedCustomers (routes routes' : list Route) :
  Forall2 (sameService g) routes routes' ->
  servedCustomers routes' ≡ₚ servedCustomers routes.
Proof.
  unfold servedCustomers.
  induction 1 as [|r r' routes routes' (Hp & _) _ IH]; [reflexivity|].
  rewrite !fmap_cons. simpl. unfold customersOf at 1 3.
  now rewrite Hp, IH.
Qed.

End LocalOptimum.

(** X6: the route returned by [twoOptImprovement] is a local optimum (no
    reversal of a segment between positions 1 and length - 2 makes it
    strictly shorter), 2-Opt applied to it returns it unchanged after one
    pass, and a route of at most three nodes is returned as it is. *)
Theorem twoOptImprovement_local_optimum (g : Globals) (route : Route) :
  (forall fuel r,
     twoOptImprovement g fuel route = Some r ->
     localOptimum g r
     /\ forall fuel', twoOptImprovement g (S fuel') r = Some r)
  /\ (length route <= 3 ->
      forall fuel, twoOptImprovement g (S fuel) route = Some route).
Proof.
  split.
  - intros fuel r Hr.
    assert (Hopt : localOptimum g r).
    { apply (twoOptLoop_localOptimum g route fuel route _ r
               (atLoopHead_initial g route)); [discriminate|exact Hr]. }
    split; [exact Hopt|]. intros fuel'. now apply twoOptImprovement_fixed.
  - intros Hlen fuel. apply twoOptImprovement_fixed. now apply localOptimum_short.
Qed.

Lemma twoOptImprovement_local_optimum_witness :
  localOptimum crossing [0; 2; 1; 3; 0]
  /\ twoOptImprovement crossing 1 [0; 1; 0] = Some [0; 1; 0].
Proof.
  pose proof (twoOptImprovement_local_optimum crossing [0; 1; 2; 3; 0])
    as [H1 _].
  pose proof (twoOptImprovement_local_optimum crossing [0; 1; 0]) as [_ H2].
  split.
  - apply (H1 2 [0; 2; 1; 3; 0]). vm_compute. reflexivity.
  - apply (H2 ltac:(simpl; lia) 0).
Defined.

(** X7: the 2-Opt step of [solveVRP] keeps a solution what it was: as many
    routes, each with the same nodes, the same first and last node and the
    same demand as before, the same customers served, and a total distance
    that is not larger. *)
Theorem improveAll_keeps_solution (g : Globals) (fuel : nat) (ui : Controls)
    (routes routes' : list Route) (name name' : string) (c c' : nat) :
  improveAll g fuel ui routes = Some routes' ->
  length routes' = length routes
  /\ Forall2 (fun r r' => r' ≡ₚ r /\ head r' = head r /\ last r' = last r
                          /\ (routeDemand g r' == routeDemand g r)%Q)
       routes routes'
  /\ servedCustomers routes' ≡ₚ servedCustomers routes
  /\ (distance (evaluateSolution g routes' name' c')
      <= distance (evaluateSolution g routes name c))%Q.
Proof.
  intros H. apply improveAll_sameService in H.
  split; [symmetry; now apply (Forall2_length _ _ _ H)|].
  split; [|split].
  - eapply Forall2_impl; [exact H|]. intros r r' (H1 & H2 & H3 & H4 & _). auto.
  - now apply (sameService_servedCustomers g).
  - rewrite !evaluateSolution_distance, !fold_accumulate_distance.
    pose proof (sameService_sumOfDistances g routes routes' H). lra.
Qed.

Lemma improveAll_keeps_solution_witness :
  (distance (evaluateSolution crossing [[0; 2; 1; 3; 0]]%nat "b" 1)
   <= distance (evaluateSolution crossing [[0; 1; 2; 3; 0]]%nat "a" 0))%Q.
Proof.
  apply (improveAll_keeps_solution crossing 2 allControls
           [[0; 1; 2; 3; 0]] [[0; 2; 1; 3; 0]] "a" "b" 0 1).
  vm_compute. reflexivity.
Defined.

(** ** Best result *)

Lemma fold_best_firstMinimum (seen rest : list Solution) (i : nat)
    (best : Solution) :
  firstMinimum seen i best ->
  exists i',
    firstMinimum (seen ++ rest) i'
      (fold_left
         (fun best current =>
            if Qltb (distance current) (distance best) then current else best)
         rest best).
Proof.
  revert seen i best. induction rest as [|s rest IH]; intros seen i best Hmin.
  - exists i. now rewrite app_nil_r.
  - simpl. replace (seen ++ s :: rest) with ((seen ++ [s]) ++ rest)
      by (now rewrite <- app_assoc).
    destruct Hmin as [Hi Hall].
    destruct (Qltb (distance s) (distance best)) eqn:E.
    + apply Qltb_lt in E. apply (IH _ (length seen)). split.
      * apply list_lookup_middle. reflexivity.
      * intros j t Hj. destruct (decide (j < length seen)) as [Hjs|Hjs].
        -- rewrite lookup_app_l in Hj by exact Hjs.
           destruct (Hall j t Hj) as [Hle _]. split; [lra|intros _; lra].
        -- apply lookup_lt_Some in Hj as Hjl. rewrite length_app in Hjl.
           simpl in Hjl. assert (j = length seen) as -> by lia.
           rewrite list_lookup_middle in Hj by reflexivity. injection Hj as <-.
           split; [lra|lia].
    + apply Qltb_ge in E. apply (IH _ i). split.
      * now apply lookup_app_l_Some.
      * intros j t Hj. destruct (decide (j < length seen)) as [Hjs|Hjs].
        -- rewrite lookup_app_l in Hj by exact Hjs. now apply Hall.
        -- apply lookup_lt_Some in Hj as Hjl. rewrite length_app in Hjl.
           simpl in Hjl. assert (j = length seen) as -> by lia.
           rewrite list_lookup_middle in Hj by reflexivity. injection Hj as <-.
           split; [exact E|]. intros Hlt. apply lookup_lt_Some in Hi. lia.
Qed.

(** X8: the best-of selection of the result views fails exactly on an empty
    list of results, and otherwise returns an entry of the list of minimal
    total distance, the first such entry: a later solution replaces it only
    when it is strictly shorter. *)
Theorem bestResult_first_minimum (results : list Solution) :
  (bestResult results = None <-> results = [])
  /\ forall best,
       bestResult results = Some best ->
       exists i,
         results !! i = Some best
         /\ forall j s, results !! j = Some s ->
              (distance best <= distance s)%Q
              /\ (j < i -> (distance best < distance s)%Q).
Proof.
  split.
  - destruct results; simpl; split; congruence.
  - intros best H. destruct results as [|first rest]; [discriminate|].
    simpl in H. injection H as <-.
    apply (fold_best_firstMinimum [first] rest 0 first).
    split; [reflexivity|].
    intros j s Hj. destruct j as [|j]; [|destruct j; discriminate].
    injection Hj as <-. split; [apply Qle_refl|lia].
Qed.

Lemma bestResult_first_minimum_witness :
  exists i,
    threeResults !! i = Some mergedResult
    /\ forall j s, threeResults !! j = Some s ->
         (distance mergedResult <= distance s)%Q
         /\ (j < i -> (distance mergedResult < distance s)%Q).
Proof.
  apply (proj2 (bestResult_first_minimum threeResults)).
  vm_compute. reflexivity.
Defined.

(** ** Fetch with retries *)

Section Retry.

Context (fetch : nat -> FetchOutcome).

Lemma succeeds_dec (o : FetchOutcome) : {succeeds o} + {~ succeeds o}.
Proof.
  destruct o as [|status ra].
  - right. intros (s & r & H & _). discriminate.
  - destruct (responseOk status) eqn:E.
    + left. now exists status, ra.
    + right. intros (s & r & H & Hok). injection H as -> ->. congruence.
Qed.

Lemma responseOk_429 : responseOk 429 = false.
Proof. reflexivity. Qed.

(** The first ok response within the attempts left ends the loop. *)
Lemma retryLoop_first_success (n remaining attempt : nat) (delay : Q)
    (slept : list JSNumber) (status : nat) (retryAfter : option JSNumber) :
  n < remaining ->
  fetch (attempt + n) = Responds status retryAfter ->
  responseOk status = true ->
  (forall m, m < n -> ~ succeeds (fetch (attempt + m))) ->
  exists ws,
    length ws = n
    /\ retryLoop fetch remaining attempt delay slept
       = {| outcome := Resolved status; fetchCount := S (attempt + n);
            waits := slept ++ ws |}.
Proof.
  revert remaining attempt delay slept.
  induction n as [|n IH]; intros remaining attempt delay slept Hn Hf Hok Hbefore.
  - destruct remaining as [|remaining]; [lia|].
    rewrite Nat.add_0_r in Hf. exists []. split; [reflexivity|].
    cbn [retryLoop]. rewrite Hf.
    destruct (status =? 429) eqn:E429.
    + apply Nat.eqb_eq in E429. subst. discriminate.
    + rewrite Hok. simpl. now rewrite app_nil_r, Nat.add_0_r.
  - destruct remaining as [|remaining]; [lia|].
    assert (Hrem : (remaining =? 0) = false) by (apply Nat.eqb_neq; lia).
    assert (Hnext : forall w,
              exists ws, length ws = S n
                /\ retryLoop fetch remaining (S attempt) (delay * 2) (slept ++ [w])
                   = {| outcome := Resolved status;
                        fetchCount := S (attempt + S n);
                        waits := slept ++ ws |}).
    { intros w.
      destruct (IH remaining (S attempt) (delay * 2)%Q (slept ++ [w]))
        as (ws & Hlen & Hrun).
      - lia.
      - now replace (S attempt + n) with (attempt + S n) by lia.
      - exact Hok.
      - intros m Hm. replace (S attempt + m) with (attempt + S m) by lia.
        apply Hbefore. lia.
      - exists (w :: ws). split; [simpl; lia|].
        rewrite Hrun. f_equal; [f_equal; lia|].
        now rewrite <- app_assoc. }
    cbn [retryLoop]. rewrite Hrem.
    pose proof (Hbefore 0 ltac:(lia)) as H0. rewrite Nat.add_0_r in H0.
    destruct (fetch attempt) as [|s ra]; [apply Hnext|].
    destruct (s =? 429); [apply Hnext|].
    destruct (responseOk s) eqn:Es; simpl; [|apply Hnext].
    exfalso. apply H0. now exists s, ra.
Qed.

(** Without an ok response the loop uses up the attempts and throws. *)
Lemma retryLoop_no_success (remaining attempt : nat) (delay : Q)
    (slept : list JSNumber) :
  (forall m, m < remaining -> ~ succeeds (fetch (attempt + m))) ->
  exists e ws,
    retryLoop fetch remaining attempt delay slept
    = {| outcome := Thrown e; fetchCount := attempt + remaining;
         waits := slept ++ ws |}
    /\ match remaining with
       | 0 => e = MaxRetryReached /\ ws = []
       | S last =>
           match fetch (attempt + last) with
           | Rejects => e = NetworkError /\ length ws = last
           | Responds status _ =>
               if status =? 429
               then e = MaxRetryReached /\ length ws = S last
               else e = HttpError status /\ length ws = last
           end
       end.
Proof.
  revert attempt delay slept.
  induction remaining as [|remaining IH]; intros attempt delay slept Hnone.
  - exists MaxRetryReached, []. simpl. now rewrite app_nil_r, Nat.add_0_r.
  - pose proof (Hnone 0 ltac:(lia)) as H0. rewrite Nat.add_0_r in H0.
    assert (Hnext : forall w, remaining <> 0 \/ (exists ra, fetch attempt = Responds 429 ra) ->
              exists e ws,
                retryLoop fetch remaining (S attempt) (delay * 2) (slept ++ [w])
                = {| outcome := Thrown e; fetchCount := attempt + S remaining;
                     waits := slept ++ ws |}
                /\ match fetch (attempt + remaining) with
                   | Rejects => e = NetworkError /\ length ws = remaining
                   | Responds status _ =>
                       if status =? 429
                       then e = MaxRetryReached /\ length ws = S remaining
                       else e = HttpError status /\ length ws = remaining
                   end).
    { intros w Hcase.
      destruct (IH (S attempt) (delay * 2)%Q (slept ++ [w])) as (e & ws & Hrun & Hlast).
      - intros m Hm. replace (S attempt + m) with (attempt + S m) by lia.
        apply Hnone. lia.
      - exists e, (w :: ws). split.
        + rewrite Hrun. f_equal; [lia|now rewrite <- app_assoc].
        + destruct remaining as [|last].
          * destruct Hcase as [Hc|[ra Hra]]; [contradiction|].
            rewrite Nat.add_0_r, Hra. simpl.
            destruct Hlast as [-> ->]. now split.
          * replace (S attempt + last) with (attempt + S last) in Hlast by lia.
            destruct (fetch (attempt + S last)) as [|s ra].
            -- destruct Hlast as [-> Hl]. split; [reflexivity|simpl; lia].
            -- destruct (s =? 429); destruct Hlast as [-> Hl];
                 (split; [reflexivity|simpl; lia]). }
    cbn [retryLoop].
    destruct (fetch attempt) as [|s ra] eqn:Ef.
    + destruct (remaining =? 0) eqn:Er.
      * apply Nat.eqb_eq in Er. subst remaining.
        exists NetworkError, []. rewrite app_nil_r, Nat.add_0_r, Ef.
        split; [f_equal; lia|now split].
      * apply Nat.eqb_neq in Er.
        destruct (Hnext (Num delay) (or_introl Er)) as (e & ws & Hrun & Hlast).
        now exists e, ws.
    + destruct (s =? 429) eqn:E429.
      * apply Nat.eqb_eq in E429. subst s.
        apply Hnext. right. now exists ra.
      * destruct (responseOk s) eqn:Eok; simpl.
        -- exfalso. apply H0. now exists s, ra.
        -- destruct (remaining =? 0) eqn:Er.
           ++ apply Nat.eqb_eq in Er. subst remaining.
              exists (HttpError s), []. rewrite app_nil_r, Nat.add_0_r, Ef, E429.
              split; [f_equal; lia|now split].
           ++ apply Nat.eqb_neq in Er.
              destruct (Hnext (Num delay) (or_introl Er)) as (e & ws & Hrun & Hlast).
              now exists e, ws.
Qed.

(** Every wait is the [Retry-After] of its response or the current delay. *)
Lemma retryLoop_waits (remaining attempt : nat) (delay : Q)
    (slept : list JSNumber) :
  (delay == inject_Z (500 * 2 ^ Z.of_nat attempt))%Q ->
  length slept = attempt ->
  (forall k w, slept !! k = Some w -> expectedWait fetch k w) ->
  forall k w,
    waits (retryLoop fetch remaining attempt delay slept) !! k = Some w ->
    expectedWait fetch k w.
Proof.
  revert attempt delay slept.
  induction remaining as [|remaining IH]; intros attempt delay slept Hd Hlen Hs;
    [exact Hs|].
  assert (Hd' : (delay * 2 == inject_Z (500 * 2 ^ Z.of_nat (S attempt)))%Q).
  { rewrite Hd, Nat2Z.inj_succ, Z.pow_succ_r by lia.
    replace (500 * (2 * 2 ^ Z.of_nat attempt))%Z
      with ((500 * 2 ^ Z.of_nat attempt) * 2)%Z by lia.
    rewrite inject_Z_mult. reflexivity. }
  assert (Hnext : forall w, expectedWait fetch attempt w ->
            forall k w',
              waits (retryLoop fetch remaining (S attempt) (delay * 2)
                       (slept ++ [w])) !! k = Some w' ->
              expectedWait fetch k w').
  { intros w Hw. apply IH; [exact Hd'|rewrite length_app; simpl; lia|].
    intros k w' Hk. destruct (decide (k < length slept)) as [Hlt|Hge].
    - rewrite lookup_app_l in Hk by exact Hlt. now apply Hs.
    - apply lookup_lt_Some in Hk as Hkl. rewrite length_app in Hkl. simpl in Hkl.
      assert (k = length slept) as -> by lia.
      rewrite list_lookup_middle in Hk by reflexivity. injection Hk as <-.
      now rewrite Hlen. }
  assert (Hback : backoffWait attempt (Num delay)) by (now exists delay).
  cbn [retryLoop].
  destruct (fetch attempt) as [|s ra] eqn:Ef.
  - destruct (remaining =? 0); [exact Hs|].
    apply Hnext. unfold expectedWait. now rewrite Ef.
  - destruct (s =? 429) eqn:E429.
    + apply Hnext. unfold expectedWait. rewrite Ef.
      destruct ra as [v|]; [now rewrite E429|exact Hback].
    + destruct (responseOk s); simpl; [exact Hs|].
      destruct (remaining =? 0); [exact Hs|].
      apply Hnext. unfold expectedWait. rewrite Ef.
      destruct ra as [v|]; [now rewrite E429|exact Hback].
Qed.

(** The loop calls [fetch] and [sleep] at most once per attempt. *)
Lemma retryLoop_counts (remaining attempt : nat) (delay : Q)
    (slept : list JSNumber) :
  fetchCount (retryLoop fetch remaining attempt delay slept)
  <= attempt + remaining
  /\ length (waits (retryLoop fetch remaining attempt delay slept))
     <= length slept + remaining.
Proof.
  revert attempt delay slept.
  induction remaining as [|remaining IH]; intros attempt delay slept;
    [simpl; lia|].
  assert (Hnext : forall w,
            fetchCount (retryLoop fetch remaining (S attempt) (delay * 2)
                          (slept ++ [w])) <= attempt + S remaining
            /\ length (waits (retryLoop fetch remaining (S attempt) (delay * 2)
                                (slept ++ [w]))) <= length slept + S remaining).
  { intros w. destruct (IH (S attempt) (delay * 2)%Q (slept ++ [w])) as [H1 H2].
    rewrite length_app in H2. simpl in H2. lia. }
  cbn [retryLoop].
  destruct (fetch attempt) as [|s ra].
  - destruct (remaining =? 0); [simpl; lia|apply Hnext].
  - destruct (s =? 429); [apply Hnext|].
    destruct (responseOk s); simpl; [lia|].
    destruct (remaining =? 0); [simpl; lia|apply Hnext].
Qed.

End Retry.

(** X11: [fetchWithRetry] resolves with the first ok response among the
    first [maxAttempts] calls of [fetch], after one call of [sleep] per
    failed call: rejected calls, 429 responses and other responses that are
    not ok are all retried. *)
Theorem fetchWithRetry_first_ok_response (fetch : nat -> FetchOutcome)
    (maxAttempts n status : nat) (retryAfter : option JSNumber) :
  n < maxAttempts ->
  fetch n = Responds status retryAfter ->
  responseOk status = true ->
  (forall m, m < n -> ~ succeeds (fetch m)) ->
  outcome (fetchWithRetry fetch maxAttempts) = Resolved status
  /\ fetchCount (fetchWithRetry fetch maxAttempts) = S n
  /\ length (waits (fetchWithRetry fetch maxAttempts)) = n.
Proof.
  intros Hn Hf Hok Hbefore. unfold fetchWithRetry.
  destruct (retryLoop_first_success fetch n maxAttempts 0 500 [] status
              retryAfter Hn Hf Hok Hbefore) as (ws & Hlen & ->).
  simpl. auto.
Qed.

Lemma fetchWithRetry_first_ok_response_witness :
  outcome (fetchWithRetry flakyFetch 5) = Resolved 200
  /\ fetchCount (fetchWithRetry flakyFetch 5) = 5
  /\ length (waits (fetchWithRetry flakyFetch 5)) = 4.
Proof.
  apply (fetchWithRetry_first_ok_response flakyFetch 5 4 200 None).
  - lia.
  - reflexivity.
  - reflexivity.
  - intros m Hm (s & ra & Hs & Hok).
    do 4 (destruct m as [|m]; [simpl in Hs; try discriminate;
                               injection Hs as <- _; discriminate|]).
    lia.
Defined.

(** X12: without an ok response among the first [maxAttempts] calls of
    [fetch], [fetchWithRetry] throws after exactly [maxAttempts] calls: the
    network error or the HTTP error of the last call, with no wait after it,
    or "Max retry attempts reached" when the last response is a 429 (after
    one more wait) or when [maxAttempts] is 0. *)
Theorem fetchWithRetry_exhausted (fetch : nat -> FetchOutcome)
    (maxAttempts : nat) :
  (forall m, m < maxAttempts -> ~ succeeds (fetch m)) ->
  fetchCount (fetchWithRetry fetch maxAttempts) = maxAttempts
  /\ match maxAttempts with
     | 0 => outcome (fetchWithRetry fetch 0) = Thrown MaxRetryReached
            /\ waits (fetchWithRetry fetch 0) = []
     | S last =>
         match fetch last with
         | Rejects =>
             outcome (fetchWithRetry fetch maxAttempts) = Thrown NetworkError
             /\ length (waits (fetchWithRetry fetch maxAttempts)) = last
         | Responds status _ =>
             if status =? 429
             then outcome (fetchWithRetry fetch maxAttempts)
                  = Thrown MaxRetryReached
                  /\ length (waits (fetchWithRetry fetch maxAttempts)) = S last
             else outcome (fetchWithRetry fetch maxAttempts)
                  = Thrown (HttpError status)
                  /\ length (waits (fetchWithRetry fetch maxAttempts)) = last
         end
     end.
Proof.
  intros Hnone. unfold fetchWithRetry.
  destruct (retryLoop_no_success fetch maxAttempts 0 500 [] Hnone)
    as (e & ws & Hrun & Hlast).
  destruct maxAttempts as [|last]; [simpl; auto|].
  rewrite Hrun. split; [reflexivity|].
  simpl in Hlast. destruct (fetch last) as [|s ra].
  - destruct Hlast as [-> Hl]. now split.
  - destruct (s =? 429); destruct Hlast as [-> Hl]; now split.
Qed.

Lemma fetchWithRetry_exhausted_witness :
  outcome (fetchWithRetry flakyFetch 4) = Thrown (HttpError 503)
  /\ length (waits (fetchWithRetry flakyFetch 4)) = 3.
Proof.
  assert (H : forall m, m < 4 -> ~ succeeds (flakyFetch m)).
  { intros m Hm (s & ra & Hs & Hok).
    do 4 (destruct m as [|m]; [simpl in Hs; try discriminate;
                               injection Hs as <- _; discriminate|]).
    lia. }
  exact (proj2 (fetchWithRetry_exhausted flakyFetch 4 H)).
Defined.

(** X13: [fetchWithRetry] calls [fetch] at most [maxAttempts] times, and the
    wait after the call number [k] is 500 ms doubled [k] times, except after
    a 429 response with a [Retry-After] header, where it is that value times
    1000: the delay doubles after every failed call, a 429 included. *)
Theorem fetchWithRetry_backoff (fetch : nat -> FetchOutcome) (maxAttempts : nat) :
  fetchCount (fetchWithRetry fetch maxAttempts) <= maxAttempts
  /\ length (waits (fetchWithRetry fetch maxAttempts)) <= maxAttempts
  /\ forall k w,
       waits (fetchWithRetry fetch maxAttempts) !! k = Some w ->
       match fetch k with
       | Responds status (Some v) =>
           if status =? 429 then w = retryAfterMs v
           else exists q, w = Num q /\ (q == inject_Z (500 * 2 ^ Z.of_nat k))%Q
       | _ => exists q, w = Num q /\ (q == inject_Z (500 * 2 ^ Z.of_nat k))%Q
       end.
Proof.
  unfold fetchWithRetry.
  destruct (retryLoop_counts fetch maxAttempts 0 500 []) as [H1 H2].
  split; [exact H1|]. split; [exact H2|].
  apply (retryLoop_waits fetch maxAttempts 0 500 []).
  - reflexivity.
  - reflexivity.
  - intros k w Hk. discriminate.
Qed.

Lemma fetchWithRetry_backoff_witness :
  waits (fetchWithRetry flakyFetch 5) = [Num 500; Num (500 * 2); Num (500 * 2 * 2);
                                          Num (500 * 2 * 2 * 2)]
  /\ exists q, Num (500 * 2 * 2) = Num q /\ (q == inject_Z (500 * 2 ^ 2))%Q.
Proof.
  split; [reflexivity|].
  apply (proj2 (proj2 (fetchWithRetry_backoff flakyFetch 5)) 2).
  reflexivity.
Defined.

(** ** Route metrics: the legs of a route *)

Section Legs.

Context (matrix : nat -> nat -> Q).

(** The loop adds the legs from left to right: the last leg is added last. *)
Lemma sumLegs_snoc (acc : Q) (route : Route) (x y : nat) :
  sumLegs matrix acc (route ++ [x; y])
  = (sumLegs matrix acc (route ++ [x]) + matrix x y)%Q.
Proof.
  revert acc. induction route as [|a route IH]; intros acc; [reflexivity|].
  destruct route as [|b route].
  - exact (IH (acc + matrix a x)%Q).
  - exact (IH (acc + matrix a b)%Q).
Qed.

Lemma sumLegs_nonneg (route : Route) :
  (forall a b, (0 <= matrix a b)%Q) ->
  (0 <= sumLegs matrix 0 route)%Q
  /\ forall x, (sumLegs matrix 0 route <= sumLegs matrix 0 (route ++ [x]))%Q.
Proof.
  intros Hpos. induction route as [|y route [IH1 IH2]] using rev_ind.
  - split; [apply Qle_refl|]. intros x. apply Qle_refl.
  - split.
    + eapply Qle_trans; [exact IH1|apply IH2].
    + intros x. rewrite <- app_assoc. simpl app. rewrite sumLegs_snoc.
      pose proof (Hpos y x). lra.
Qed.

End Legs.

(** X14: the distance of a route of fewer than two nodes is 0, and a node
    appended to a route adds the leg from the last node of the route to it,
    the legs being added from the first to the last; so with distances of 0
    or more no route has a negative distance and a route is never shorter
    than the route without its last node. *)
Theorem calculateRouteDistance_legs (g : Globals) :
  calculateRouteDistance g [] = 0%Q
  /\ (forall x, calculateRouteDistance g [x] = 0%Q)
  /\ (forall route x y,
        calculateRouteDistance g (route ++ [x; y])
        = (calculateRouteDistance g (route ++ [x]) + distanceMatrix g x y)%Q)
  /\ ((forall a b, (0 <= distanceMatrix g a b)%Q) ->
      forall route,
        (0 <= calculateRouteDistance g route)%Q
        /\ forall x, (calculateRouteDistance g route
                      <= calculateRouteDistance g (route ++ [x]))%Q).
Proof.
  unfold calculateRouteDistance. split; [reflexivity|]. split; [reflexivity|].
  split; [intros route x y; apply sumLegs_snoc|].
  intros Hpos route. now apply sumLegs_nonneg.
Qed.

Lemma calculateRouteDistance_legs_witness :
  (0 <= calculateRouteDistance mergeable [0; 1; 2; 0]%nat)%Q
  /\ (calculateRouteDistance mergeable [0; 1; 2]%nat
      <= calculateRouteDistance mergeable ([0; 1; 2] ++ [0])%nat)%Q.
Proof.
  assert (Hpos : forall a b, (0 <= distanceMatrix mergeable a b)%Q).
  { intros a b. unfold mergeable, mkGlobals, matrixOf. simpl distanceMatrix.
    do 3 (destruct a as [|a]; [do 3 (destruct b as [|b]; [vm_compute; discriminate|]);
          simpl; destruct b; vm_compute; discriminate|]).
    simpl. destruct a, b; vm_compute; discriminate. }
  pose proof (proj2 (proj2 (proj2 (calculateRouteDistance_legs mergeable))) Hpos)
    as H.
  split; [apply (H [0; 1; 2; 0])|apply (H [0; 1; 2])].
Defined.

(** ** Clarke-Wright Savings: the list of savings *)

Lemma insertSaving_perm (s : Saving) (l : list Saving) :
  insertSaving s l ≡ₚ s :: l.
Proof.
  induction l as [|t l IH]; [reflexivity|]. simpl.
  destruct (Qltb (saving s) (saving t)); [|reflexivity].
  rewrite IH. apply perm_swap.
Qed.

Lemma sortSavings_perm (l : list Saving) : sortSavings l ≡ₚ l.
Proof.
  unfold sortSavings. induction l as [|s l IH]; [reflexivity|].
  simpl. now rewrite insertSaving_perm, IH.
Qed.

Lemma insertSaving_sorted (s : Saving) (l : list Saving) :
  StronglySorted savingGe l -> StronglySorted savingGe (insertSaving s l).
Proof.
  induction 1 as [|t l Hl IH Hall]; simpl; [repeat constructor|].
  destruct (Qltb (saving s) (saving t)) eqn:E.
  - apply Qltb_lt in E. constructor; [exact IH|].
    rewrite insertSaving_perm. constructor; [|exact Hall].
    unfold savingGe. lra.
  - apply Qltb_ge in E. constructor; [now constructor|].
    constructor; [exact E|].
    eapply Forall_impl; [exact Hall|]. unfold savingGe. intros u Hu. lra.
Qed.

Lemma sortSavings_sorted (l : list Saving) :
  StronglySorted savingGe (sortSavings l).
Proof.
  unfold sortSavings. induction l as [|s l IH]; [constructor|].
  simpl. now apply insertSaving_sorted.
Qed.

Lemma insertSaving_withSaving (v : Q) (s : Saving) (l : list Saving) :
  withSaving v (insertSaving s l) = withSaving v (s :: l).
Proof.
  unfold withSaving. induction l as [|t l IH]; [reflexivity|]. simpl.
  destruct (Qltb (saving s) (saving t)) eqn:E; [|reflexivity].
  apply Qltb_lt in E. simpl. rewrite IH. simpl.
  destruct (Qeq_bool (saving s) v) eqn:Es, (Qeq_bool (saving t) v) eqn:Et;
    try reflexivity.
  apply Qeq_bool_iff in Es, Et. exfalso. lra.
Qed.

Lemma sortSavings_withSaving (v : Q) (l : list Saving) :
  withSaving v (sortSavings l) = withSaving v l.
Proof.
  unfold sortSavings. induction l as [|s l IH]; [reflexivity|].
  simpl. rewrite insertSaving_withSaving. unfold withSaving in *. simpl.
  now rewrite IH.
Qed.

Lemma elem_of_computeSavings (g : Globals) (s : Saving) :
  s ∈ computeSavings g <->
  1 <= sav_i s /\ sav_i s < sav_j s /\ sav_j s <= length (destinations g)
  /\ saving s = (distanceMatrix g 0 (sav_i s) + distanceMatrix g 0 (sav_j s)
                 - distanceMatrix g (sav_i s) (sav_j s))%Q.
Proof.
  unfold computeSavings. rewrite list_elem_of_bind. split.
  - intros (i & H & Hi). apply list_elem_of_bind in H as (j & H & Hj).
    apply list_elem_of_singleton in H as ->. simpl.
    apply elem_of_seq in Hi, Hj. repeat split; lia.
  - intros (Hi & Hij & Hj & Hs). exists (sav_i s).
    split; [|apply elem_of_seq; lia].
    apply list_elem_of_bind. exists (sav_j s). split; [|apply elem_of_seq; lia].
    apply list_elem_of_singleton. destruct s as [i j v]. simpl in *. now subst.
Qed.

Lemma length_pairs_from (n k : nat) (f : nat -> nat -> Saving) :
  k <= n ->
  2 * length (i ← seq (n - k + 1) k; j ← seq (i + 1) (n - i); [f i j])
  = k * (k - 1).
Proof.
  induction k as [|k IH]; intros Hk; [reflexivity|].
  replace (n - S k + 1) with (n - k) by lia.
  cbn [seq]. rewrite bind_cons, length_app.
  replace (S (n - k)) with (n - k + 1) by lia.
  rewrite Nat.mul_add_distr_l, IH by lia.
  assert (E : forall a m, length (j ← seq a m; [f (n - k) j]) = m).
  { intros a m. revert a. induction m as [|m IHm]; intros a; [reflexivity|].
    cbn [seq]. rewrite bind_cons, length_app, IHm. reflexivity. }
  rewrite E. replace (n - (n - k)) with k by lia.
  destruct k; simpl; lia.
Qed.

(** X15: the savings that [savingsAlgorithmVRP] iterates over are one entry
    for each pair of customers i < j, with the saving
    d(0,i) + d(0,j) - d(i,j), in non-increasing order of saving, entries of
    equal saving in the order of generation (i ascending, then j). *)
Theorem savings_list_sorted (g : Globals) :
  sortSavings (computeSavings g) ≡ₚ computeSavings g
  /\ StronglySorted (fun a b => (saving b <= saving a)%Q)
       (sortSavings (computeSavings g))
  /\ (forall v,
        withSaving v (sortSavings (computeSavings g))
        = withSaving v (computeSavings g))
  /\ (forall s,
        s ∈ sortSavings (computeSavings g) <->
        1 <= sav_i s /\ sav_i s < sav_j s /\ sav_j s <= length (destinations g)
        /\ saving s = (distanceMatrix g 0 (sav_i s) + distanceMatrix g 0 (sav_j s)
                       - distanceMatrix g (sav_i s) (sav_j s))%Q)
  /\ 2 * length (sortSavings (computeSavings g))
     = length (destinations g) * (length (destinations g) - 1).
Proof.
  split; [apply sortSavings_perm|]. split; [apply sortSavings_sorted|].
  split; [intros v; apply sortSavings_withSaving|]. split.
  - intros s. rewrite sortSavings_perm. apply elem_of_computeSavings.
  - rewrite (Permutation_length (sortSavings_perm _)). unfold computeSavings.
    pose proof (length_pairs_from (length (destinations g))
                  (length (destinations g))
                  (fun i j => {| sav_i := i; sav_j := j;
                                 saving := (distanceMatrix g 0 i
                                            + distanceMatrix g 0 j
                                            - distanceMatrix g i j)%Q |})
                  (Nat.le_refl _)) as H.
    now rewrite Nat.sub_diag in H.
Qed.

(** ** Clarke-Wright Savings: the initial routes *)

Section Merges.

Context (g : Globals).

Lemma initialRoutes_oriented : Forall oriented (initialRoutes g).
Proof.
  apply Forall_lookup. intros i r Hi. unfold initialRoutes in Hi.
  rewrite list_lookup_imap in Hi.
  destruct (destinations g !! i) as [d|]; [|discriminate].
  injection Hi as <-. exists [i + 1]. now split.
Qed.

Lemma initialRoutes_singleRoutes : route <$> initialRoutes g = singleRoutes g.
Proof.
  unfold initialRoutes, singleRoutes. apply list_eq. intros i.
  rewrite !list_lookup_fmap, list_lookup_imap.
  destruct (destinations g !! i) as [d|] eqn:E; simpl.
  - apply lookup_lt_Some in E. rewrite lookup_seq_lt by exact E. simpl.
    now rewrite Nat.add_1_r.
  - apply lookup_ge_None in E. now rewrite lookup_seq_ge.
Qed.

End Merges.

(** X17: with at least as many vehicles as customers [savingsAlgorithmVRP]
    merges nothing, whatever the savings: it returns the route [0, k, 0] of
    each customer k, in order. *)
Theorem savings_enough_vehicles (g : Globals) :
  length (destinations g) <= numVehicles g ->
  savingsAlgorithmVRP g = singleRoutes g.
Proof.
  intros H. unfold savingsAlgorithmVRP.
  rewrite mergeLoop_stops by (now rewrite length_initialRoutes).
  apply initialRoutes_singleRoutes.
Qed.

Lemma savings_enough_vehicles_witness :
  computeSavings spareVehicle <> []
  /\ (load <$> initialRoutes spareVehicle) = [5%Q; 5%Q]
  /\ savingsAlgorithmVRP spareVehicle = [[0; 1; 0]; [0; 2; 0]]
  /\ savingsAlgorithmVRP mergeable = [[0; 1; 2; 0]].
Proof.
  split; [discriminate|]. split; [reflexivity|]. split.
  - apply (savings_enough_vehicles spareVehicle). simpl. lia.
  - vm_compute. reflexivity.
Defined.

(** ** Clarke-Wright Savings: the merges that are left *)

Lemma partitions_perm (n : nat) (a b : list RouteInfo) :
  a ≡ₚ b -> partitions n a -> partitions n b.
Proof.
  intros Hp [Hf Hc]. split; [now rewrite <- Hp|].
  now rewrite <- (customersOfEntries_perm a b Hp).
Qed.

Lemma mergeState_perm (n : nat) (a b : list RouteInfo) :
  a ≡ₚ b -> mergeState n a -> mergeState n b.
Proof.
  intros Hp (H1 & H2 & H3). split; [now apply (partitions_perm n a)|].
  now rewrite <- Hp.
Qed.

Lemma blocked_perm (g : Globals) (a b : list RouteInfo) (i j : nat) :
  a ≡ₚ b -> blocked g a i j -> blocked g b i j.
Proof.
  intros Hp H rI rJ HI HJ. apply H; now rewrite Hp.
Qed.

(** The ends of an entry are customers of its route. *)
Lemma oriented_ends (r : RouteInfo) :
  framed (route r) -> oriented r ->
  ends_start r ∈ customersOf (route r) /\ ends_end r ∈ customersOf (route r).
Proof.
  unfold framed. intros Hf (body & Hb & Hh & Hl).
  assert (E : body = customersOf (route r)).
  { rewrite Hb in Hf at 1. injection Hf as Hf. now apply app_inv_tail in Hf. }
  rewrite <- E. split.
  - destruct body as [|x body]; [discriminate|]. injection Hh as ->. left.
  - apply last_Some in Hl as [xs ->]. apply elem_of_app. right. left.
Qed.

(** No customer is in two entries of the array. *)
Lemma disjoint_entries (n : nat) (x y : RouteInfo) (l : list RouteInfo)
    (k : nat) :
  partitions n (x :: l) -> y ∈ l ->
  k ∈ customersOf (route x) -> k ∈ customersOf (route y) -> False.
Proof.
  intros [_ Hc] Hy Hx Hky.
  assert (Hnd : NoDup (customersOfEntries (x :: l)))
    by (rewrite Hc; apply NoDup_seq).
  rewrite customersOfEntries_cons in Hnd.
  apply NoDup_app in Hnd as (_ & Hdisj & _).
  apply (Hdisj k Hx). apply elem_of_concat. exists (customersOf (route y)).
  split; [exact Hky|]. now apply list_elem_of_fmap_2, list_elem_of_fmap_2.
Qed.

Lemma entries_share (n : nat) (rs : list RouteInfo) (x y : RouteInfo) (k : nat) :
  partitions n rs -> x ∈ rs -> y ∈ rs ->
  k ∈ customersOf (route x) -> k ∈ customersOf (route y) -> x = y.
Proof.
  intros Hrs Hx Hy Hkx Hky.
  apply elem_of_Permutation in Hx as [l Hp].
  rewrite Hp in Hy. apply (partitions_perm n _ _ Hp) in Hrs.
  apply elem_of_cons in Hy as [->|Hy]; [reflexivity|].
  exfalso. exact (disjoint_entries n x y l k Hrs Hy Hkx Hky).
Qed.

Lemma oriented_merged (routeI routeJ : RouteInfo) :
  oriented routeI -> oriented routeJ -> oriented (mergedEntry routeI routeJ).
Proof.
  intros (bI & HrI & HhI & HlI) (bJ & HrJ & HhJ & HlJ).
  apply last_Some in HlI as [xs ->].
  destruct bJ as [|j ys]; [discriminate|]. injection HhJ as ->.
  exists ((xs ++ [ends_end routeI]) ++ ends_start routeJ :: ys). split; [|split].
  - simpl. rewrite HrI, HrJ.
    change (0 :: (xs ++ [ends_end routeI]) ++ [0])
      with ((0 :: xs ++ [ends_end routeI]) ++ [0]).
    rewrite removelast_last. simpl. now rewrite <- !app_assoc.
  - simpl. rewrite <- HhI. now destruct xs.
  - simpl. rewrite last_app. rewrite <- HlJ. simpl.
    now destruct (last (ends_start routeJ :: ys)).
Qed.

Section MergesLeft.

Context (g : Globals).

(** What one merge attempt does for its pair: it leaves the array as it is
    because no merge is possible for the pair, or it merges the route that
    ends at [i] with the route that starts at [j]. *)
Lemma mergeStep_outcome (n : nat) (rs : list RouteInfo) (s : Saving) :
  partitions n rs -> Forall oriented rs ->
  (mergeStep g rs s = rs /\ blocked g rs (sav_i s) (sav_j s))
  \/ exists routeI routeJ rest,
       rs ≡ₚ routeI :: routeJ :: rest
       /\ mergeStep g rs s = rest ++ [mergedEntry routeI routeJ]
       /\ ends_end routeI = sav_i s
       /\ ends_start routeJ = sav_j s.
Proof.
  intros Hrs Hor.
  assert (Hends : forall r, r ∈ rs ->
            ends_start r ∈ customersOf (route r)
            /\ ends_end r ∈ customersOf (route r)).
  { intros r Hr. apply oriented_ends.
    - destruct Hrs as [Hf _]. rewrite Forall_forall in Hf. now apply Hf.
    - rewrite Forall_forall in Hor. now apply Hor. }
  unfold mergeStep.
  destruct (list_find _ rs) as [[idxI routeI]|] eqn:EI.
  2: { left. split; [reflexivity|]. intros rI rJ HI _ _ Hend _.
       apply list_find_None in EI. rewrite Forall_forall in EI.
       exfalso. now apply (EI rI HI). }
  destruct (list_find (fun r => ends_start r = sav_j s) rs)
    as [[idxJ routeJ]|] eqn:EJ.
  2: { left. split; [reflexivity|]. intros rI rJ _ HJ _ _ Hstart.
       apply list_find_None in EJ. rewrite Forall_forall in EJ.
       exfalso. now apply (EJ rJ HJ). }
  apply list_find_Some in EI as (HI & HendI & _).
  apply list_find_Some in EJ as (HJ & HstartJ & _).
  assert (HinI : routeI ∈ rs) by now apply (list_elem_of_lookup_2 _ idxI).
  assert (HinJ : routeJ ∈ rs) by now apply (list_elem_of_lookup_2 _ idxJ).
  assert (Hfound : forall rI rJ, rI ∈ rs -> rJ ∈ rs ->
            ends_end rI = sav_i s -> ends_start rJ = sav_j s ->
            rI = routeI /\ rJ = routeJ).
  { intros rI rJ HrI HrJ Hend Hstart. split.
    - apply (entries_share n rs rI routeI (sav_i s) Hrs HrI HinI).
      + rewrite <- Hend. now apply Hends.
      + rewrite <- HendI. now apply Hends.
    - apply (entries_share n rs rJ routeJ (sav_j s) Hrs HrJ HinJ).
      + rewrite <- Hstart. now apply Hends.
      + rewrite <- HstartJ. now apply Hends. }
  destruct (bool_decide (idxI <> idxJ)) eqn:Ene.
  2: { left. split; [reflexivity|]. intros rI rJ HrI HrJ Hne Hend Hstart _.
       apply bool_decide_eq_false in Ene.
       assert (idxI = idxJ) as E by (destruct (decide (idxI = idxJ)); tauto).
       rewrite E in HI. rewrite HI in HJ. injection HJ as <-.
       destruct (Hfound rI rJ HrI HrJ Hend Hstart) as [-> ->]. now apply Hne. }
  destruct (Qle_bool _ _) eqn:Ecap.
  2: { left. split; [reflexivity|]. intros rI rJ HrI HrJ _ Hend Hstart Hfit.
       destruct (Hfound rI rJ HrI HrJ Hend Hstart) as [-> ->].
       apply Qle_bool_iff in Hfit. congruence. }
  right. exists routeI, routeJ,
    (delete (idxI `min` idxJ) (delete (idxI `max` idxJ) rs)).
  apply bool_decide_eq_true in Ene.
  split; [|split; [reflexivity|split; [exact HendI|exact HstartJ]]].
  destruct (Nat.lt_total idxI idxJ) as [Hlt|[Heq|Hgt]]; [|contradiction|].
  - rewrite Nat.min_l, Nat.max_r by lia.
    etrans; [apply (delete_Permutation rs idxJ routeJ HJ)|].
    etrans; [|apply perm_swap].
    apply perm_skip, delete_Permutation.
    rewrite list_lookup_delete_lt by lia. exact HI.
  - rewrite Nat.min_r, Nat.max_l by lia.
    etrans; [apply (delete_Permutation rs idxI routeI HI)|].
    apply perm_skip, delete_Permutation.
    rewrite list_lookup_delete_lt by lia. exact HJ.
Qed.

(** A merge of [routeI] and [routeJ] leaves no merge for their pair, and
    none for a pair that had none: the merged route is at least as loaded as
    each of the two. *)
Lemma merged_blocked (n : nat) (routeI routeJ : RouteInfo)
    (rest : list RouteInfo) (i j : nat) :
  mergeState n (routeI :: routeJ :: rest) ->
  blocked g (routeI :: routeJ :: rest) i j
  \/ (ends_end routeI = i /\ ends_start routeJ = j) ->
  blocked g (rest ++ [mergedEntry routeI routeJ]) i j.
Proof.
  intros (Hp & Hor & Hload) Hold.
  assert (Hp' : partitions n (routeJ :: routeI :: rest))
    by (apply (partitions_perm n (routeI :: routeJ :: rest)); [apply perm_swap|exact Hp]).
  assert (Hends : forall r, r ∈ routeI :: routeJ :: rest ->
            ends_start r ∈ customersOf (route r)
            /\ ends_end r ∈ customersOf (route r)).
  { intros r Hr. apply oriented_ends.
    - destruct Hp as [Hf _]. rewrite Forall_forall in Hf. now apply Hf.
    - rewrite Forall_forall in Hor. now apply Hor. }
  assert (HinI : routeI ∈ routeI :: routeJ :: rest) by left.
  assert (HinJ : routeJ ∈ routeI :: routeJ :: rest) by (right; left).
  assert (Hin : forall r, r ∈ rest -> r ∈ routeI :: routeJ :: rest)
    by (intros r Hr; now do 2 right).
  assert (HnotI : forall r k, r ∈ rest -> k ∈ customersOf (route r) ->
            k ∈ customersOf (route routeI) -> False).
  { intros r k Hr Hk HkI.
    apply (disjoint_entries n routeI r (routeJ :: rest) k Hp); [now right|exact HkI|exact Hk]. }
  assert (HnotJ : forall r k, r ∈ rest -> k ∈ customersOf (route r) ->
            k ∈ customersOf (route routeJ) -> False).
  { intros r k Hr Hk HkJ.
    apply (disjoint_entries n routeJ r (routeI :: rest) k Hp'); [now right|exact HkJ|exact Hk]. }
  assert (HIJ : forall k, k ∈ customersOf (route routeI) ->
            k ∈ customersOf (route routeJ) -> False).
  { intros k HkI HkJ.
    apply (disjoint_entries n routeI routeJ (routeJ :: rest) k Hp); [left|exact HkI|exact HkJ]. }
  apply Forall_cons in Hload as [HlI Hload].
  apply Forall_cons in Hload as [HlJ _].
  intros A B HA HB Hne HendA HstartB Hfit.
  apply elem_of_app in HA as [HA|HA], HB as [HB|HB];
    try apply list_elem_of_singleton in HA; try apply list_elem_of_singleton in HB.
  - destruct Hold as [Hb|[Hi Hj]].
    + apply (Hb A B); auto.
    + apply (HnotI A i HA).
      * rewrite <- HendA. now apply Hends, Hin.
      * rewrite <- Hi. now apply Hends.
  - subst B. simpl in HstartB, Hfit. destruct Hold as [Hb|[Hi Hj]].
    + apply (Hb A routeI); auto.
      * intros E. apply (HnotI A (ends_end A) HA); [now apply Hends, Hin|].
        rewrite <- E. now apply Hends, Hin.
      * lra.
    + apply (HnotI A i HA).
      * rewrite <- HendA. now apply Hends, Hin.
      * rewrite <- Hi. now apply Hends.
  - subst A. simpl in HendA, Hfit. destruct Hold as [Hb|[Hi Hj]].
    + apply (Hb routeJ B); auto.
      * intros E. apply (HnotJ B (ends_end B) HB); [now apply Hends, Hin|].
        rewrite E. now apply Hends, Hin.
      * lra.
    + apply (HIJ i).
      * rewrite <- Hi. now apply Hends.
      * rewrite <- HendA. now apply Hends.
  - subst A B. now apply Hne.
Qed.

Lemma mergeStep_state (n : nat) (rs : list RouteInfo) (s : Saving) :
  mergeState n rs -> mergeState n (mergeStep g rs s).
Proof.
  intros (Hp & Hor & Hload). split; [now apply mergeStep_partitions|].
  destruct (mergeStep_cases g rs s) as [->|(rI & rJ & rest & Hperm & -> & _)];
    [now split|].
  rewrite Hperm in Hor, Hload.
  apply Forall_cons in Hor as [HoI Hor]. apply Forall_cons in Hor as [HoJ Hor].
  apply Forall_cons in Hload as [HlI Hload].
  apply Forall_cons in Hload as [HlJ Hload].
  split; apply Forall_app; (split; [assumption|]); apply Forall_singleton.
  - now apply oriented_merged.
  - simpl. lra.
Qed.

(** When the merge loop ends, the vehicle count is reached or no merge is
    left for any of the pairs it went through. *)
Lemma mergeLoop_blocks (n : nat) (savings : list Saving) :
  forall (done : Saving -> Prop) (rs : list RouteInfo),
    mergeState n rs ->
    (forall s, done s -> blocked g rs (sav_i s) (sav_j s)) ->
    mergeState n (mergeLoop g savings rs)
    /\ (length (mergeLoop g savings rs) <= numVehicles g
        \/ forall s, done s \/ s ∈ savings ->
             blocked g (mergeLoop g savings rs) (sav_i s) (sav_j s)).
Proof.
  induction savings as [|s savings IH]; intros done rs Hst Hdone.
  - split; [exact Hst|]. right. intros s [Hs|Hs]; [now apply Hdone|].
    now apply elem_of_nil in Hs.
  - cbn [mergeLoop]. destruct (length rs <=? numVehicles g) eqn:E.
    + split; [exact Hst|]. left. now apply Nat.leb_le.
    + destruct (IH (fun t => done t \/ t = s) (mergeStep g rs s)) as [H1 H2].
      * now apply mergeStep_state.
      * intros t Ht.
        destruct Hst as (Hp & Hor & Hload).
        destruct (mergeStep_outcome n rs s Hp Hor)
          as [[-> Hb]|(rI & rJ & rest & Hperm & -> & Hi & Hj)].
        -- destruct Ht as [Ht| ->]; [now apply Hdone|exact Hb].
        -- apply (merged_blocked n).
           ++ apply (mergeState_perm n rs); [exact Hperm|now split].
           ++ destruct Ht as [Ht| ->]; [left|now right].
              apply (blocked_perm g rs); [exact Hperm|now apply Hdone].
      * split; [exact H1|]. destruct H2 as [H2|H2]; [now left|right].
        intros t [Ht|Ht]; apply H2; [now left; left|].
        apply elem_of_cons in Ht as [->|Ht]; [left; now right|now right].
Qed.

Lemma initialRoutes_state :
  (forall d, d ∈ destinations g -> (0 <= demand d)%Q) ->
  mergeState (length (destinations g)) (initialRoutes g).
Proof.
  intros Hpos. split; [apply initialRoutes_partitions|].
  split; [apply initialRoutes_oriented|].
  apply Forall_lookup. intros i r Hi. unfold initialRoutes in Hi.
  rewrite list_lookup_imap in Hi.
  destruct (destinations g !! i) as [d|] eqn:Ed; [|discriminate].
  injection Hi as <-. simpl. apply Hpos. now apply (list_elem_of_lookup_2 _ i).
Qed.

End MergesLeft.

(** C5, as amended: [savingsAlgorithmVRP] returns at most one route per
    customer and never fewer than the smaller of [numVehicles] and the number
    of customers.  It returns at most [numVehicles] routes unless no merge is
    left: with demands of 0 or more, when more than [numVehicles] routes are
    returned there are no two of them, a route whose last customer is i and
    another whose first customer is j with i < j, whose loads fit one vehicle
    together.  The merge loop stops as soon as the number of remaining routes
    is at or below [numVehicles]. *)
Theorem savings_route_count (g : Globals) :
  (forall d, d ∈ destinations g -> (0 <= demand d)%Q) ->
  savingsAlgorithmVRP g = route <$> finalEntries g
  /\ Forall (fun r => exists body,
               route r = 0 :: body ++ [0]
               /\ head body = Some (ends_start r)
               /\ last body = Some (ends_end r))
       (finalEntries g)
  /\ length (savingsAlgorithmVRP g) <= length (destinations g)
  /\ numVehicles g `min` length (destinations g) <= length (savingsAlgorithmVRP g)
  /\ (length (savingsAlgorithmVRP g) <= numVehicles g
      \/ forall a b routeI routeJ,
           finalEntries g !! a = Some routeI ->
           finalEntries g !! b = Some routeJ ->
           a <> b ->
           ends_end routeI < ends_start routeJ ->
           ~ (load routeI + load routeJ <= vehicleCapacity g)%Q)
  /\ (forall savings rs,
        length rs <= numVehicles g -> mergeLoop g savings rs = rs).
Proof.
  intros Hpos.
  destruct (mergeLoop_blocks g (length (destinations g))
              (sortSavings (computeSavings g)) (fun _ => False)
              (initialRoutes g) (initialRoutes_state g Hpos))
    as [(Hp & Hor & _) Hleft]; [intros s []|].
  fold (finalEntries g) in Hp, Hor, Hleft.
  pose proof (mergeLoop_length g (sortSavings (computeSavings g)) (initialRoutes g))
    as [H1 H2].
  rewrite length_initialRoutes in H1, H2. fold (finalEntries g) in H1, H2.
  assert (Hlen : length (savingsAlgorithmVRP g) = length (finalEntries g))
    by (unfold savingsAlgorithmVRP; now rewrite length_fmap).
  rewrite Hlen.
  split; [reflexivity|]. split; [exact Hor|]. split; [exact H2|].
  split; [exact H1|]. split; [|intros savings rs; apply mergeLoop_stops].
  destruct Hleft as [Hle|Hb]; [now left|right].
  intros a b rI rJ Ha Hb' Hab Hlt.
  assert (HinI : rI ∈ finalEntries g) by now apply (list_elem_of_lookup_2 _ a).
  assert (HinJ : rJ ∈ finalEntries g) by now apply (list_elem_of_lookup_2 _ b).
  assert (Hends : forall r, r ∈ finalEntries g ->
            ends_start r ∈ customersOf (route r)
            /\ ends_end r ∈ customersOf (route r)).
  { intros r Hr. apply oriented_ends.
    - destruct Hp as [Hf _]. rewrite Forall_forall in Hf. now apply Hf.
    - rewrite Forall_forall in Hor. now apply Hor. }
  assert (Hrange : forall r k, r ∈ finalEntries g -> k ∈ customersOf (route r) ->
            1 <= k <= length (destinations g)).
  { intros r k Hr Hk. destruct Hp as [_ Hc].
    assert (Hin : k ∈ customersOfEntries (finalEntries g)).
    { apply elem_of_concat. exists (customersOf (route r)).
      split; [exact Hk|]. now apply list_elem_of_fmap_2, list_elem_of_fmap_2. }
    rewrite Hc in Hin. apply elem_of_seq in Hin. lia. }
  pose proof (Hrange rI _ HinI (proj2 (Hends rI HinI))) as HrI.
  pose proof (Hrange rJ _ HinJ (proj1 (Hends rJ HinJ))) as HrJ.
  apply (Hb {| sav_i := ends_end rI; sav_j := ends_start rJ;
               saving := (distanceMatrix g 0 (ends_end rI)
                          + distanceMatrix g 0 (ends_start rJ)
                          - distanceMatrix g (ends_end rI) (ends_start rJ))%Q |});
    auto.
  - right. rewrite sortSavings_perm. apply elem_of_computeSavings. simpl.
    repeat split; lia.
  - intros E. apply Hab.
    assert (Hnd : NoDup (customersOfEntries (finalEntries g)))
      by (destruct Hp as [_ Hc]; rewrite Hc; apply NoDup_seq).
    apply (NoDup_concat_unique _ a b (customersOf (route rI))
             (customersOf (route rJ)) (ends_end rI) Hnd).
    + rewrite !list_lookup_fmap, Ha. reflexivity.
    + rewrite !list_lookup_fmap, Hb'. reflexivity.
    + now apply Hends.
    + rewrite <- E. now apply Hends.
Qed.

Lemma savings_route_count_witness :
  (~ length (savingsAlgorithmVRP misaligned) <= numVehicles misaligned
   /\ forall a b routeI routeJ,
        finalEntries misaligned !! a = Some routeI ->
        finalEntries misaligned !! b = Some routeJ ->
        a <> b ->
        ends_end routeI < ends_start routeJ ->
        ~ (load routeI + load routeJ <= vehicleCapacity misaligned)%Q)
  /\ mergeLoop spareVehicle (sortSavings (computeSavings spareVehicle))
       (initialRoutes spareVehicle)
     = initialRoutes spareVehicle.
Proof.
  assert (Hpos : forall d, d ∈ destinations misaligned -> (0 <= demand d)%Q).
  { intros d Hd. apply list_elem_of_In in Hd. simpl in Hd.
    destruct Hd as [<-|[<-|[<-|[]]]]; vm_compute; discriminate. }
  assert (Hpos' : forall d, d ∈ destinations spareVehicle -> (0 <= demand d)%Q).
  { intros d Hd. apply list_elem_of_In in Hd. simpl in Hd.
    destruct Hd as [<-|[<-|[]]]; vm_compute; discriminate. }
  assert (Hlen : ~ length (savingsAlgorithmVRP misaligned) <= numVehicles misaligned)
    by (vm_compute; lia).
  split.
  - split; [exact Hlen|].
    destruct (savings_route_count misaligned Hpos) as (_ & _ & _ & _ & [H|H] & _);
      [contradiction|exact H].
  - destruct (savings_route_count spareVehicle Hpos') as (_ & _ & _ & _ & _ & H).
    apply H. simpl. lia.
Defined.

(** C5 as stated fails: with three customers of demand 1 and one vehicle of
    capacity 10 the problem passes the feasibility check, the pair (1, 3) is
    merged into [0, 1, 3, 0], and neither (2, 3) nor (1, 2) finds a route
    ending at its first customer and another starting at its second: two
    routes are returned for one vehicle. *)
Lemma savings_exceeds_vehicle_count :
  fst (validateProblem misaligned) = true
  /\ savingsAlgorithmVRP misaligned = [[0; 2; 0]; [0; 1; 3; 0]]
  /\ numVehicles misaligned = 1
  /\ ~ length (savingsAlgorithmVRP misaligned) <= numVehicles misaligned.
Proof.
  assert (E : savingsAlgorithmVRP misaligned = [[0; 2; 0]; [0; 1; 3; 0]])
    by (vm_compute; reflexivity).
  split; [vm_compute; reflexivity|].
  split; [exact E|]. split; [reflexivity|].
  rewrite E. simpl. lia.
Qed.

(** X18: the routes of both constructors, also after the 2-Opt step of
    [solveVRP], hold only the depot and customers 1..C: every index they
    pass to the matrices or to [destinations] is within bounds. *)
Theorem routes_within_bounds (g : Globals) (fuel : nat) (ui : Controls) :
  distinctObjects g ->
  (forall routes improved,
     nearestNeighborVRP g fuel = Some routes ->
     improveAll g fuel ui routes = Some improved ->
     Forall (Forall (fun k => k <= length (destinations g))) routes
     /\ Forall (Forall (fun k => k <= length (destinations g))) improved)
  /\ Forall (Forall (fun k => k <= length (destinations g)))
       (savingsAlgorithmVRP g)
  /\ (forall improved,
        improveAll g fuel ui (savingsAlgorithmVRP g) = Some improved ->
        Forall (Forall (fun k => k <= length (destinations g))) improved).
Proof.
  intros Hnd.
  assert (Hin : forall routes,
            (forall k, k ∈ servedCustomers routes ->
                       k ∈ seq 1 (length (destinations g))) ->
            Forall (Forall (fun k => k <= length (destinations g))) routes).
  { intros routes Hsub. apply Forall_forall. intros r Hr.
    apply Forall_forall. intros k Hk.
    destruct (decide (k = 0)) as [->|Hk0]; [lia|].
    assert (Hs : k ∈ servedCustomers routes).
    { apply elem_of_concat. exists (customersOf r).
      split; [now apply elem_of_customersOf|].
      now apply list_elem_of_fmap_2. }
    apply Hsub, elem_of_seq in Hs. lia. }
  assert (Himp : forall routes improved,
            Forall (Forall (fun k => k <= length (destinations g))) routes ->
            improveAll g fuel ui routes = Some improved ->
            Forall (Forall (fun k => k <= length (destinations g))) improved).
  { intros routes improved Hall H. apply improveAll_sameService in H.
    induction H as [|r r' routes routes' (Hp & _) _ IH]; [constructor|].
    apply Forall_cons in Hall as [Hr Hall].
    constructor; [now rewrite Hp|now apply IH]. }
  assert (Hsav : Forall (Forall (fun k => k <= length (destinations g)))
                   (savingsAlgorithmVRP g)).
  { apply Hin. intros k Hk.
    destruct (savings_partitions g) as [_ Hp].
    change (servedCustomers (savingsAlgorithmVRP g)
            ≡ₚ seq 1 (length (destinations g))) in Hp.
    now rewrite Hp in Hk. }
  split; [|split; [exact Hsav|intros improved; now apply Himp]].
  intros routes improved Hr Hi.
  assert (Hnn : Forall (Forall (fun k => k <= length (destinations g))) routes).
  { apply Hin. intros k Hk.
    apply (nearestNeighborVRP_invariant g Hnd fuel routes) in Hr
      as (dropped & _ & Hperm & _).
    rewrite <- Hperm. apply elem_of_app. now left. }
  split; [exact Hnn|now apply (Himp routes)].
Qed.

Lemma routes_within_bounds_witness :
  Forall (Forall (fun k => k <= length (destinations threeCustomers)))
    (savingsAlgorithmVRP threeCustomers).
Proof.
  apply (proj1 (proj2 (routes_within_bounds threeCustomers 0 allControls
                         (mkGlobals_distinct _ _ _ _ _)))).
Defined.

(** ** Evaluator: the totals of a solution *)





(** ** Evaluator: the energy of a solution *)

Lemma fold_accumulate_nan (g : Globals) (routes : list Route) (d t : Q) :
  (fold_left (accumulate g) routes (d, t, NaN)).2 = NaN.
Proof.
  revert d t. induction routes as [|r routes IH]; intros d t; [reflexivity|].
  simpl. apply IH.
Qed.

Lemma fold_accumulate_number (g : Globals) (routes : list Route)
    (d t e f : Q) :
  fuelConsumption g = Some f ->
  exists e', (fold_left (accumulate g) routes (d, t, Num e)).2 = Num e'.
Proof.
  intros Hf. revert d t e.
  induction routes as [|r routes IH]; intros d t e; simpl; [now exists e|].
  unfold calculateRouteEnergy. rewrite Hf. simpl. apply IH.
Qed.

Lemma evaluateSolution_energy (g : Globals) (routes : list Route)
    (name : string) (colorIndex : nat) :
  energy (evaluateSolution g routes name colorIndex)
  = (fold_left (accumulate g) routes (0%Q, 0%Q, Num 0)).2.
Proof.
  unfold evaluateSolution.
  destruct (fold_left _ _ _) as [[d t] e]. reflexivity.
Qed.

(** X19: with a consumption rate in the problem file the [energy] of the
    solution returned by [evaluateSolution] is a number; with none it is NaN
    as soon as the list has a route, and the number 0 for an empty list of
    routes. *)
Theorem evaluateSolution_energy_nan (g : Globals) (routes : list Route)
    (name : string) (colorIndex : nat) :
  (forall f, fuelConsumption g = Some f ->
     exists e, energy (evaluateSolution g routes name colorIndex) = Num e)
  /\ (fuelConsumption g = None -> routes <> [] ->
      energy (evaluateSolution g routes name colorIndex) = NaN)
  /\ (routes = [] ->
      energy (evaluateSolution g routes name colorIndex) = Num 0).
Proof.
  rewrite evaluateSolution_energy. split; [|split].
  - intros f Hf. apply (fold_accumulate_number g routes 0 0 0 f Hf).
  - intros Hf Hne. destruct routes as [|r routes]; [now contradiction Hne|].
    simpl. unfold calculateRouteEnergy. rewrite Hf. simpl.
    apply fold_accumulate_nan.
  - now intros ->.
Qed.

Lemma evaluateSolution_energy_nan_witness :
  (exists e, energy (evaluateSolution mergeable [[0; 1; 2; 0]]
                       "Algoritmo de Ahorros" 0) = Num e)
  /\ energy (evaluateSolution threeCustomers [[0; 3; 2; 0]; [0; 1; 0]]
               "Vecino Más Cercano" 0) = NaN
  /\ energy (evaluateSolution threeCustomers [] "Vecino Más Cercano" 0) = Num 0.
Proof.
  split; [|split].
  - apply (proj1 (evaluateSolution_energy_nan mergeable [[0; 1; 2; 0]]
                    "Algoritmo de Ahorros" 0) 8%Q).
    reflexivity.
  - apply (proj1 (proj2 (evaluateSolution_energy_nan threeCustomers
                           [[0; 3; 2; 0]; [0; 1; 0]] "Vecino Más Cercano" 0)));
      [reflexivity|discriminate].
  - apply (proj2 (proj2 (evaluateSolution_energy_nan threeCustomers []
                           "Vecino Más Cercano" 0))).
    reflexivity.
Defined.

(** ** Loading a problem file *)

Lemma load_bind_inr {A B : Type} (m : Load A) (k : A -> Load B) (b : B) :
  load_bind m k = inr b -> exists a, m = inr a /\ k a = inr b.
Proof. destruct m as [e|a]; [discriminate|]. intros H. now exists a. Qed.

Lemma checkCustomer_accepted (index : nat) (dest : JSON) (c : Customer) :
  checkCustomer index dest = inr c -> acceptedCustomer c.
Proof.
  unfold checkCustomer. intros H.
  apply load_bind_inr in H as (lat & _ & H).
  apply load_bind_inr in H as (lng & _ & H).
  destruct (asNumber lat) as [la|]; [|discriminate].
  destruct (asNumber lng) as [lo|]; [|discriminate].
  apply load_bind_inr in H as (demand & _ & H).
  destruct (asNumber demand) as [d|]; [|discriminate].
  destruct (Qle_bool d 0) eqn:Ed; [discriminate|].
  apply load_bind_inr in H as (id & _ & H).
  destruct id as [v|]; [|discriminate].
  destruct (truthy (Some v)) eqn:Ev; [|discriminate].
  injection H as <-. split; simpl; [|exact Ev].
  apply Qnot_le_lt. intros Hle. apply Qle_bool_iff in Hle. congruence.
Qed.

Lemma checkCustomers_accepted (index : nat) (dests : list JSON)
    (cs : list Customer) :
  checkCustomers index dests = inr cs ->
  length cs = length dests /\ Forall acceptedCustomer cs.
Proof.
  revert index cs. induction dests as [|dest dests IH]; intros index cs H.
  - injection H as <-. split; [reflexivity|constructor].
  - simpl in H. apply load_bind_inr in H as (c & Hc & H).
    apply load_bind_inr in H as (cs' & Hcs & H). injection H as <-.
    destruct (IH _ _ Hcs) as [Hlen Hall]. split; [simpl; lia|].
    constructor; [now apply (checkCustomer_accepted index dest)|exact Hall].
Qed.

Lemma fieldOf_app_other (core others : list (string * JSON)) (key : string) :
  Forall (fun kv => kv.1 <> key) core ->
  fieldOf (core ++ others) key = fieldOf others key.
Proof.
  intros Hcore. unfold fieldOf. rewrite reverse_app.
  assert (Hnone : list_find (fun kv => kv.1 = key) (reverse core) = None).
  { apply list_find_None. now rewrite Forall_reverse. }
  destruct (list_find (fun kv => kv.1 = key) (reverse others))
    as [[i kv]|] eqn:E.
  - now rewrite (list_find_app_l _ _ _ _ _ E).
  - rewrite (list_find_app_r _ _ _ E), Hnone. reflexivity.
Qed.

Lemma fieldOf_app_core (core others : list (string * JSON)) (key : string) :
  Forall (fun kv => kv.1 <> key) others ->
  fieldOf (core ++ others) key = fieldOf core key.
Proof.
  intros Hothers. unfold fieldOf. rewrite reverse_app.
  assert (Hnone : list_find (fun kv => kv.1 = key) (reverse others) = None).
  { apply list_find_None. now rewrite Forall_reverse. }
  rewrite (list_find_app_r _ _ _ Hnone).
  destruct (list_find _ (reverse core)) as [[i kv]|]; reflexivity.
Qed.

Lemma checkCustomer_customerJSON (index : nat) (c : Customer) :
  acceptedCustomer c -> checkCustomer index (customerJSON c) = inr c.
Proof.
  intros [Hd Hid]. destruct c as [id la lo d].
  cbn [customerDemand customerId] in Hd, Hid.
  assert (Ed : Qle_bool d 0 = false).
  { destruct (Qle_bool d 0) eqn:Ed; [|reflexivity].
    apply Qle_bool_iff in Ed. lra. }
  unfold checkCustomer, customerJSON, getField, load_bind.
  change (fieldOf _ "lat") with (Some (JNumber la)).
  change (fieldOf _ "lng") with (Some (JNumber lo)).
  change (fieldOf _ "demand") with (Some (JNumber d)).
  change (fieldOf _ "id") with (Some id).
  cbn [asNumber]. now rewrite Ed, Hid.
Qed.

Lemma checkCustomers_customerJSON (index : nat) (cs : list Customer) :
  Forall acceptedCustomer cs ->
  checkCustomers index (customerJSON <$> cs) = inr cs.
Proof.
  intros Hall. revert index. induction Hall as [|c cs Hc _ IH]; intros index.
  - reflexivity.
  - rewrite fmap_cons.
    change (checkCustomers index (customerJSON c :: (customerJSON <$> cs)))
      with (load_bind (checkCustomer index (customerJSON c)) (fun c0 =>
            load_bind (checkCustomers (S index) (customerJSON <$> cs))
              (fun cs0 => inr (c0 :: cs0)))).
    now rewrite (checkCustomer_customerJSON index c Hc), IH.
Qed.

(** X20: a file written with a depot, a non-empty list of customers of
    positive demand with an id, and any further keys is loaded back as that
    depot and those customers, in order; each parameter is the value of its
    key among the further keys, [undefined] when the file has none. *)
Theorem loadCase_caseJSON (depot : Q * Q) (customers : list Customer)
    (others : list (string * JSON)) :
  customers <> [] ->
  Forall (fun c => (0 < customerDemand c)%Q
                   /\ truthy (Some (customerId c)) = true) customers ->
  freeOfCoreKeys others ->
  loadCase (caseJSON depot customers others)
  = inr {| loadedDepot := depot;
           loadedCustomers := customers;
           loadedNumVehicles := fieldOf others "numVehicles";
           loadedVehicleCapacity := fieldOf others "vehicleCapacity";
           loadedAvgSpeed := fieldOf others "avgSpeed";
           loadedFuelConsumption := fieldOf others "fuelConsumption" |}.
Proof.
  intros Hne Hall Hfree. unfold loadCase, caseJSON.
  cbn [getField load_bind].
  rewrite !(fieldOf_app_core _ others "depot"),
          !(fieldOf_app_core _ others "destinations")
    by (eapply Forall_impl; [exact Hfree|]; intros kv [? ?]; assumption).
  rewrite !(fieldOf_app_other _ others "numVehicles"),
          !(fieldOf_app_other _ others "vehicleCapacity"),
          !(fieldOf_app_other _ others "avgSpeed"),
          !(fieldOf_app_other _ others "fuelConsumption")
    by (repeat constructor; discriminate).
  change (fieldOf _ "depot")
    with (Some (JObject [("lat", JNumber depot.1); ("lng", JNumber depot.2)]%string)).
  change (fieldOf _ "destinations")
    with (Some (JArray (customerJSON <$> customers))).
  cbn [truthy negb getField load_bind].
  change (fieldOf _ "lat") with (Some (JNumber depot.1)).
  change (fieldOf _ "lng") with (Some (JNumber depot.2)).
  cbn [asNumber].
  pose proof (checkCustomers_customerJSON 0 customers Hall) as Hcs.
  destruct customers as [|c cs]; [congruence|].
  rewrite fmap_cons in *. rewrite Hcs.
  destruct depot as [la lo]. reflexivity.
Qed.

Lemma loadCase_caseJSON_witness : loadCase bareCase = inr bareLoaded.
Proof.
  apply (loadCase_caseJSON (0%Q, 0%Q) (loadedCustomers bareLoaded) []).
  - discriminate.
  - repeat constructor.
  - constructor.
Defined.

(** X21: a problem file that [loadFromJSONFile] accepts is an object whose
    [destinations] is a non-empty array; one customer is loaded per entry,
    each with a positive demand and an id; the four parameters
    ([numVehicles], [vehicleCapacity], [avgSpeed], [fuelConsumption]) are
    stored as the file has them, absent ones as [undefined], without any
    check. *)
Theorem loadCase_accepts (caseStudyData : JSON) (loaded : LoadedCase) :
  loadCase caseStudyData = inr loaded ->
  exists fields items,
    caseStudyData = JObject fields
    /\ fieldOf fields "destinations" = Some (JArray items)
    /\ items <> []
    /\ length (loadedCustomers loaded) = length items
    /\ Forall (fun c => (0 < customerDemand c)%Q
                        /\ truthy (Some (customerId c)) = true)
         (loadedCustomers loaded)
    /\ loadedNumVehicles loaded = fieldOf fields "numVehicles"
    /\ loadedVehicleCapacity loaded = fieldOf fields "vehicleCapacity"
    /\ loadedAvgSpeed loaded = fieldOf fields "avgSpeed"
    /\ loadedFuelConsumption loaded = fieldOf fields "fuelConsumption".
Proof.
  unfold loadCase. intros H.
  apply load_bind_inr in H as (depot & Hdepot & H).
  destruct (truthy depot) eqn:Etd; [|discriminate]. simpl in H.
  apply load_bind_inr in H as (dests & Hdests & H).
  destruct (truthy dests) eqn:Ets; [|discriminate]. simpl in H.
  destruct depot as [depotV|]; [|discriminate].
  destruct dests as [destsV|]; [|discriminate].
  apply load_bind_inr in H as (lat & _ & H).
  apply load_bind_inr in H as (lng & _ & H).
  destruct (asNumber lat) as [la|]; [|discriminate].
  destruct (asNumber lng) as [lo|]; [|discriminate].
  destruct destsV as [| | | |[|d ds]|]; try discriminate.
  apply load_bind_inr in H as (customers & Hcs & H).
  apply load_bind_inr in H as (nv & Hnv & H).
  apply load_bind_inr in H as (vc & Hvc & H).
  apply load_bind_inr in H as (sp & Hsp & H).
  apply load_bind_inr in H as (fc & Hfc & H).
  injection H as <-. simpl.
  destruct caseStudyData as [| | | | |fields]; try discriminate.
  simpl in *. injection Hdests as Hdests. injection Hnv as <-.
  injection Hvc as <-. injection Hsp as <-. injection Hfc as <-.
  destruct (checkCustomers_accepted 0 (d :: ds) customers Hcs) as [Hlen Hall].
  exists fields, (d :: ds). repeat split; try assumption; discriminate.
Qed.

Lemma loadCase_accepts_witness :
  exists fields items,
    bareCase = JObject fields
    /\ fieldOf fields "destinations" = Some (JArray items)
    /\ items <> []
    /\ length (loadedCustomers bareLoaded) = length items
    /\ Forall (fun c => (0 < customerDemand c)%Q
                        /\ truthy (Some (customerId c)) = true)
         (loadedCustomers bareLoaded)
    /\ loadedNumVehicles bareLoaded = fieldOf fields "numVehicles"
    /\ loadedVehicleCapacity bareLoaded = fieldOf fields "vehicleCapacity"
    /\ loadedAvgSpeed bareLoaded = fieldOf fields "avgSpeed"
    /\ loadedFuelConsumption bareLoaded = fieldOf fields "fuelConsumption".
Proof. apply (loadCase_accepts bareCase bareLoaded). reflexivity. Defined.
